(** * node_validator::validator_pool: the accounting core of the staking pool

    A shallow embedding of [contract/node-validator/sources/validator_pool.move]
    and the properties of its pool ledger: the lifecycle state machine, the
    stake and reward bookkeeping, and what aborts leave behind.

    - Move values of type [u64] and [u8] are integers in [Z]; every
      arithmetic operation of the source is a checked operation that aborts
      when the result leaves the range of its type, as the Move VM does.
    - Objects live in a store keyed by object ID.  A reference
      [&mut ValidatorPool] or [&mut Contributor] is the ID of the object, and
      a field assignment through it updates the store.
    - Functions of the module are computations in a state-and-abort monad
      over the store, one monadic step per statement of the source.  An abort
      keeps the store as it was at the abort, so that what had been written
      before an [assert!] fails can be stated; the transaction layer discards
      it, as the host does.
    - The store holds any number of pools: the functions take the pool and
      the record they act on as two arguments and never compare
      [contributor.pool_id] with the pool.

    The file has three parts: the module and the host around it; what each
    function does, as a predicate on its outcome, with the invariant of the
    store; and the properties. *)

From stdpp Require Import base numbers option list gmap fin_maps.

Open Scope Z_scope.

(** ** Machine integers *)

Definition u64_max : Z := 18446744073709551615.
Definition u8_max : Z := 255.

Definition is_u64 (x : Z) : bool := (0 <=? x) && (x <=? u64_max).
Definition is_u8 (x : Z) : bool := (0 <=? x) && (x <=? u8_max).

(** ** Constants of the module *)

Definition COLLECTING : Z := 0.
Definition READY : Z := 1.
Definition ACTIVE : Z := 2.

Definition E_UNAUTHORIZED : Z := 1001.
Definition E_INVALID_STATE : Z := 1002.
Definition E_INSUFFICIENT_STAKE : Z := 1003.
Definition E_ZERO_AMOUNT : Z := 1004.
Definition E_WITHDRAWAL_NOT_ALLOWED : Z := 1007.

(** ** Structs *)

Definition address := Z.
Definition ID := Z.

(** [iota::balance::Balance<IOTA>]: a held amount. *)
Record Balance := mkBalance { value : Z }.

(** [iota::coin::Coin<IOTA>]: an object wrapping a balance. *)
Record Coin := mkCoin { coin_id : ID; coin_balance : Balance }.

Record ValidatorPool := mkValidatorPool {
  id : ID;
  required_stake : Z;
  total_stake : Z;
  operator : address;
  operator_reward_pct : Z;
  status : Z;
  accumulated_reward : Z;
  reward_per_stake : Z;
  balance : Balance;
}.

Record Contributor := mkContributor {
  contributor_id : ID;
  pool_id : ID;
  owner : address;
  staked_amount : Z;
  reward_debt : Z;
}.

Record OperatorCap := mkOperatorCap {
  cap_id : ID;
  cap_pool_id : ID;
}.

(** ** Events *)

Inductive Event :=
| PoolCreated (pool : ID) (op : address) (required : Z) (pct : Z)
| StakeDeposited (pool : ID) (contributor : address) (amount new_total_stake pool_status : Z)
| PoolActivated (pool : ID) (op : address) (total : Z)
| RewardRecorded (pool : ID) (reward_amount new_accumulated_reward : Z)
| RewardClaimed (pool : ID) (claimer : address) (reward_amount : Z) (is_operator : bool)
| StakeWithdrawn (pool : ID) (contributor : address) (amount new_total_stake : Z).

(** ** The object store and the transaction context *)

(** [TxContext]: the sender of the running transaction and the source of
    fresh object IDs.  The counter is never reset, which stands for the
    freshness the host derives from the transaction digest. *)
Record TxContext := mkTxContext { sender : address; ids_created : Z }.

Record World := mkWorld {
  pools : gmap ID ValidatorPool;
  contributors : gmap ID Contributor;
  caps : gmap ID OperatorCap;
  coins : list (address * Coin);
  events : list Event;
  ctx : TxContext;
}.

Definition genesis : World :=
  mkWorld ∅ ∅ ∅ [] [] (mkTxContext 0 0).

(** ** Aborts and the monad *)

Inductive abort_code :=
| Assert (code : Z)        (* [assert!(cond, code)] of this module *)
| ARITHMETIC_ERROR         (* overflow, underflow or division by zero *)
| ENotEnough               (* [balance::split] of more than is held *)
| OBJECT_NOT_FOUND.        (* an input object that is not in the store *)

(** An abort carries the store as it was when the abort happened; the
    transaction layer below throws it away. *)
Inductive outcome (A : Type) :=
| Ok (a : A) (w : World)
| Abort (e : abort_code) (w : World).
Arguments Ok {A} a w.
Arguments Abort {A} e w.

Definition M (A : Type) : Type := World → outcome A.

Definition ret {A} (a : A) : M A := Ok a.

Definition bind {A B} (m : M A) (k : A → M B) (w : World) : outcome B :=
  match m w with
  | Ok a w' => k a w'
  | Abort e w' => Abort e w'
  end.

Notation "'let*' x ':=' m 'in' k" := (bind m (λ x, k))
  (at level 10, x pattern, m at level 100, k at level 200).
Notation "m ';;' k" := (bind m (λ _, k))
  (at level 100, k at level 200, right associativity).

Definition abort {A} (e : abort_code) : M A := Abort e.

Definition assert (cond : bool) (code : Z) : M unit :=
  if cond then ret tt else abort (Assert code).

Definition when (cond : bool) (m : M unit) : M unit :=
  if cond then m else ret tt.

(** Checked [u64] arithmetic. *)
Definition add64 (a b : Z) : M Z :=
  if a + b <=? u64_max then ret (a + b) else abort ARITHMETIC_ERROR.
Definition sub64 (a b : Z) : M Z :=
  if b <=? a then ret (a - b) else abort ARITHMETIC_ERROR.
Definition mul64 (a b : Z) : M Z :=
  if a * b <=? u64_max then ret (a * b) else abort ARITHMETIC_ERROR.
Definition div64 (a b : Z) : M Z :=
  if b =? 0 then abort ARITHMETIC_ERROR else ret (a / b).

(** ** Field updates *)

Definition set_total_stake (v : Z) (p : ValidatorPool) : ValidatorPool :=
  mkValidatorPool (id p) (required_stake p) v (operator p) (operator_reward_pct p)
    (status p) (accumulated_reward p) (reward_per_stake p) (balance p).
Definition set_status (v : Z) (p : ValidatorPool) : ValidatorPool :=
  mkValidatorPool (id p) (required_stake p) (total_stake p) (operator p)
    (operator_reward_pct p) v (accumulated_reward p) (reward_per_stake p) (balance p).
Definition set_accumulated_reward (v : Z) (p : ValidatorPool) : ValidatorPool :=
  mkValidatorPool (id p) (required_stake p) (total_stake p) (operator p)
    (operator_reward_pct p) (status p) v (reward_per_stake p) (balance p).
Definition set_reward_per_stake (v : Z) (p : ValidatorPool) : ValidatorPool :=
  mkValidatorPool (id p) (required_stake p) (total_stake p) (operator p)
    (operator_reward_pct p) (status p) (accumulated_reward p) v (balance p).
Definition set_balance (v : Balance) (p : ValidatorPool) : ValidatorPool :=
  mkValidatorPool (id p) (required_stake p) (total_stake p) (operator p)
    (operator_reward_pct p) (status p) (accumulated_reward p) (reward_per_stake p) v.

Definition set_staked_amount (v : Z) (c : Contributor) : Contributor :=
  mkContributor (contributor_id c) (pool_id c) (owner c) v (reward_debt c).
Definition set_reward_debt (v : Z) (c : Contributor) : Contributor :=
  mkContributor (contributor_id c) (pool_id c) (owner c) (staked_amount c) v.

Definition with_pools (f : gmap ID ValidatorPool → gmap ID ValidatorPool) (w : World) : World :=
  mkWorld (f (pools w)) (contributors w) (caps w) (coins w) (events w) (ctx w).
Definition with_contributors (f : gmap ID Contributor → gmap ID Contributor) (w : World) : World :=
  mkWorld (pools w) (f (contributors w)) (caps w) (coins w) (events w) (ctx w).
Definition with_caps (f : gmap ID OperatorCap → gmap ID OperatorCap) (w : World) : World :=
  mkWorld (pools w) (contributors w) (f (caps w)) (coins w) (events w) (ctx w).
Definition with_coins (f : list (address * Coin) → list (address * Coin)) (w : World) : World :=
  mkWorld (pools w) (contributors w) (caps w) (f (coins w)) (events w) (ctx w).
Definition with_events (f : list Event → list Event) (w : World) : World :=
  mkWorld (pools w) (contributors w) (caps w) (coins w) (f (events w)) (ctx w).
Definition with_ctx (f : TxContext → TxContext) (w : World) : World :=
  mkWorld (pools w) (contributors w) (caps w) (coins w) (events w) (f (ctx w)).

(** ** References into the store *)

(** Reading a field through [&ValidatorPool] / [&mut ValidatorPool]. *)
Definition read_pool {A} (pool : ID) (field : ValidatorPool → A) (w : World) : outcome A :=
  match pools w !! pool with
  | Some p => Ok (field p) w
  | None => Abort OBJECT_NOT_FOUND w
  end.

(** Assigning a field through [&mut ValidatorPool]. *)
Definition write_pool (pool : ID) (upd : ValidatorPool → ValidatorPool) (w : World)
  : outcome unit :=
  match pools w !! pool with
  | Some p => Ok tt (with_pools <[pool := upd p]> w)
  | None => Abort OBJECT_NOT_FOUND w
  end.

Definition read_contributor {A} (contributor : ID) (field : Contributor → A) (w : World)
  : outcome A :=
  match contributors w !! contributor with
  | Some c => Ok (field c) w
  | None => Abort OBJECT_NOT_FOUND w
  end.

Definition write_contributor (contributor : ID) (upd : Contributor → Contributor) (w : World)
  : outcome unit :=
  match contributors w !! contributor with
  | Some c => Ok tt (with_contributors <[contributor := upd c]> w)
  | None => Abort OBJECT_NOT_FOUND w
  end.

Definition read_cap {A} (cap : ID) (field : OperatorCap → A) (w : World) : outcome A :=
  match caps w !! cap with
  | Some c => Ok (field c) w
  | None => Abort OBJECT_NOT_FOUND w
  end.

(** Taking an object out of the store, for an argument passed by value. *)
Definition take_contributor (contributor : ID) (w : World) : outcome Contributor :=
  match contributors w !! contributor with
  | Some c => Ok c (with_contributors (delete contributor) w)
  | None => Abort OBJECT_NOT_FOUND w
  end.

(** ** The framework functions the module calls

    [iota::tx_context], [iota::object], [iota::event], [iota::coin],
    [iota::balance] and [iota::transfer] belong to the IOTA framework, not to
    the repository.  They are modelled by what the module relies on: a fresh
    ID for each [object::new]; a balance as an amount, [balance::join] adding
    in [u64] and [balance::split] aborting with [ENotEnough] when asked for
    more than is held; a coin as an object holding a balance. *)

(** [tx_context::sender] *)
Definition tx_context_sender (w : World) : outcome address := Ok (sender (ctx w)) w.

(** [object::new]: a fresh ID. *)
Definition object_new (w : World) : outcome ID :=
  Ok (ids_created (ctx w))
     (with_ctx (λ c, mkTxContext (sender c) (ids_created c + 1)) w).

(** [object::delete]: the ID is dropped; IDs are never reused. *)
Definition object_delete (uid : ID) : M unit := ret tt.

(** [event::emit] *)
Definition event_emit (e : Event) (w : World) : outcome unit :=
  Ok tt (with_events (λ l, l ++ [e]) w).

(** [coin::value], [coin::into_balance], [coin::from_balance] *)
Definition coin_value (c : Coin) : Z := value (coin_balance c).
Definition coin_into_balance (c : Coin) : Balance := coin_balance c.
Definition coin_from_balance (b : Balance) : M Coin :=
  let* uid := object_new in ret (mkCoin uid b).

(** [balance::zero], [balance::value], [balance::join], [balance::split] *)
Definition balance_zero : Balance := mkBalance 0.
Definition balance_value (b : Balance) : Z := value b.
Definition balance_join (self : Balance) (b : Balance) : M Balance :=
  let* v := add64 (value self) (value b) in ret (mkBalance v).
(** [balance_split self v] gives what is left in [self] and the part split off. *)
Definition balance_split (self : Balance) (v : Z) : M (Balance * Balance) :=
  if v <=? value self then ret (mkBalance (value self - v), mkBalance v)
  else abort ENotEnough.

(** [transfer::public_transfer]: the object becomes a stored object.  Who may
    present a stored object to a later transaction is decided by the host and
    is not modelled: any sender may present any stored object. *)
Definition transfer_pool (p : ValidatorPool) (recipient : address) (w : World) : outcome unit :=
  Ok tt (with_pools <[id p := p]> w).
Definition transfer_cap (c : OperatorCap) (recipient : address) (w : World) : outcome unit :=
  Ok tt (with_caps <[cap_id c := c]> w).
Definition transfer_contributor (c : Contributor) (recipient : address) (w : World)
  : outcome unit :=
  Ok tt (with_contributors <[contributor_id c := c]> w).
Definition transfer_coin (c : Coin) (recipient : address) (w : World) : outcome unit :=
  Ok tt (with_coins (λ l, l ++ [(recipient, c)]) w).

(** ** Public functions of the module *)

Definition create_pool (required_stake : Z) (operator_reward_pct : Z)
  : M (ValidatorPool * OperatorCap) :=
  assert (operator_reward_pct <=? 100) E_ZERO_AMOUNT;;
  assert (required_stake >? 0) E_ZERO_AMOUNT;;
  let* pool_id := object_new in
  let pool_id_copy := pool_id in
  let* operator := tx_context_sender in
  let pool := mkValidatorPool pool_id required_stake 0 operator operator_reward_pct
                COLLECTING 0 0 balance_zero in
  let* cap_uid := object_new in
  let operator_cap := mkOperatorCap cap_uid pool_id_copy in
  event_emit (PoolCreated pool_id_copy operator required_stake operator_reward_pct);;
  ret (pool, operator_cap).

Definition stake (pool : ID) (stake_coin : Coin) : M Contributor :=
  let* st := read_pool pool status in
  assert ((st =? COLLECTING) || (st =? READY)) E_INVALID_STATE;;
  let stake_amount := coin_value stake_coin in
  assert (stake_amount >? 0) E_ZERO_AMOUNT;;
  let* contributor_addr := tx_context_sender in
  (* Add funds to pool *)
  let stake_balance := coin_into_balance stake_coin in
  let* bal := read_pool pool balance in
  let* bal' := balance_join bal stake_balance in
  write_pool pool (set_balance bal');;
  (* Update total stake *)
  let* ts := read_pool pool total_stake in
  let* ts' := add64 ts stake_amount in
  write_pool pool (set_total_stake ts');;
  (* Check if threshold reached and update status *)
  let* ts := read_pool pool total_stake in
  let* rs := read_pool pool required_stake in
  let* st := read_pool pool status in
  when ((ts >=? rs) && (st =? COLLECTING)) (write_pool pool (set_status READY));;
  let* uid := object_new in
  let* pid := read_pool pool id in
  let* rps := read_pool pool reward_per_stake in
  let* scaled := mul64 rps stake_amount in
  let* debt := div64 scaled 1000000 in
  let contributor := mkContributor uid pid contributor_addr stake_amount debt in
  let* new_total := read_pool pool total_stake in
  let* new_status := read_pool pool status in
  event_emit (StakeDeposited pid contributor_addr stake_amount new_total new_status);;
  ret contributor.

Definition activate_pool (pool : ID) (_operator_cap : ID) : M unit :=
  let* st := read_pool pool status in
  assert (st =? READY) E_INVALID_STATE;;
  let* snd := tx_context_sender in
  let* op := read_pool pool operator in
  assert (snd =? op) E_UNAUTHORIZED;;
  write_pool pool (set_status ACTIVE);;
  let* pid := read_pool pool id in
  let* ts := read_pool pool total_stake in
  event_emit (PoolActivated pid op ts).

Definition record_reward (pool : ID) (reward_coin : Coin) : M unit :=
  let* st := read_pool pool status in
  assert (st =? ACTIVE) E_INVALID_STATE;;
  let reward_amount := coin_value reward_coin in
  assert (reward_amount >? 0) E_ZERO_AMOUNT;;
  (* Add reward to pool balance *)
  let reward_balance := coin_into_balance reward_coin in
  let* bal := read_pool pool balance in
  let* bal' := balance_join bal reward_balance in
  write_pool pool (set_balance bal');;
  (* Update accumulated rewards *)
  let* acc := read_pool pool accumulated_reward in
  let* acc' := add64 acc reward_amount in
  write_pool pool (set_accumulated_reward acc');;
  (* Update reward per stake for future reward calculations *)
  let* ts := read_pool pool total_stake in
  when (ts >? 0)
    (let* rps := read_pool pool reward_per_stake in
     let* scaled := mul64 reward_amount 1000000 in
     let* ts := read_pool pool total_stake in
     let* inc := div64 scaled ts in
     let* rps' := add64 rps inc in
     write_pool pool (set_reward_per_stake rps'));;
  let* pid := read_pool pool id in
  let* new_acc := read_pool pool accumulated_reward in
  event_emit (RewardRecorded pid reward_amount new_acc).

Definition claim_reward (pool : ID) (contributor : ID) : M Coin :=
  let* st := read_pool pool status in
  assert (st =? ACTIVE) E_INVALID_STATE;;
  let* own := read_contributor contributor owner in
  let* snd := tx_context_sender in
  assert (own =? snd) E_UNAUTHORIZED;;
  (* Calculate pending reward *)
  let* staked := read_contributor contributor staked_amount in
  let* rps := read_pool pool reward_per_stake in
  let* prod := mul64 staked rps in
  let* scaled := div64 prod 1000000 in
  let* debt := read_contributor contributor reward_debt in
  let* pending_reward := sub64 scaled debt in
  if pending_reward >? 0 then
    (* Calculate user's share *)
    let* pct := read_pool pool operator_reward_pct in
    let* user_pct := sub64 100 pct in
    let* gross := mul64 pending_reward user_pct in
    let* user_reward := div64 gross 100 in
    (* Update reward debt to prevent double claiming *)
    let* staked := read_contributor contributor staked_amount in
    let* rps := read_pool pool reward_per_stake in
    let* prod := mul64 staked rps in
    let* new_debt := div64 prod 1000000 in
    write_contributor contributor (set_reward_debt new_debt);;
    (* Transfer reward *)
    let* bal := read_pool pool balance in
    let* split := balance_split bal user_reward in
    write_pool pool (set_balance split.1);;
    let* reward_coin := coin_from_balance split.2 in
    let* pid := read_pool pool id in
    let* claimer := read_contributor contributor owner in
    event_emit (RewardClaimed pid claimer user_reward false);;
    ret reward_coin
  else
    (* Return empty coin if no reward *)
    coin_from_balance balance_zero.

Definition claim_operator_reward (pool : ID) (_operator_cap : ID) : M Coin :=
  let* st := read_pool pool status in
  assert (st =? ACTIVE) E_INVALID_STATE;;
  let* snd := tx_context_sender in
  let* op := read_pool pool operator in
  assert (snd =? op) E_UNAUTHORIZED;;
  (* Calculate operator's share of accumulated rewards *)
  let* acc := read_pool pool accumulated_reward in
  let* pct := read_pool pool operator_reward_pct in
  let* prod := mul64 acc pct in
  let* operator_reward := div64 prod 100 in
  if operator_reward >? 0 then
    (* Reset accumulated reward *)
    write_pool pool (set_accumulated_reward 0);;
    let* bal := read_pool pool balance in
    let* split := balance_split bal operator_reward in
    write_pool pool (set_balance split.1);;
    let* reward_coin := coin_from_balance split.2 in
    let* pid := read_pool pool id in
    let* claimer := read_pool pool operator in
    event_emit (RewardClaimed pid claimer operator_reward true);;
    ret reward_coin
  else
    coin_from_balance balance_zero.

Definition withdraw_stake (pool : ID) (contributor : ID) (amount : Z) : M Coin :=
  let* st := read_pool pool status in
  assert ((st =? COLLECTING) || (st =? READY)) E_WITHDRAWAL_NOT_ALLOWED;;
  let* own := read_contributor contributor owner in
  let* snd := tx_context_sender in
  assert (own =? snd) E_UNAUTHORIZED;;
  assert (amount >? 0) E_ZERO_AMOUNT;;
  let* staked := read_contributor contributor staked_amount in
  assert (staked >=? amount) E_INSUFFICIENT_STAKE;;
  (* Update contributor stake *)
  let* staked := read_contributor contributor staked_amount in
  let* staked' := sub64 staked amount in
  write_contributor contributor (set_staked_amount staked');;
  (* Update pool total stake *)
  let* ts := read_pool pool total_stake in
  let* ts' := sub64 ts amount in
  write_pool pool (set_total_stake ts');;
  (* If total stake drops below threshold, move back to COLLECTING *)
  let* ts := read_pool pool total_stake in
  let* rs := read_pool pool required_stake in
  let* st := read_pool pool status in
  when ((ts <? rs) && (st =? READY)) (write_pool pool (set_status COLLECTING));;
  (* Return withdrawn funds *)
  let* bal := read_pool pool balance in
  let* split := balance_split bal amount in
  write_pool pool (set_balance split.1);;
  let* withdrawal_coin := coin_from_balance split.2 in
  let* pid := read_pool pool id in
  let* who := read_contributor contributor owner in
  let* new_total := read_pool pool total_stake in
  event_emit (StakeWithdrawn pid who amount new_total);;
  ret withdrawal_coin.

(** ** View functions *)

Definition get_pool_info (pool : ID) : M (Z * Z * address * Z * Z * Z * Z) :=
  let* p := read_pool pool (λ p, p) in
  ret (required_stake p, total_stake p, operator p, operator_reward_pct p,
       status p, accumulated_reward p, balance_value (balance p)).

Definition get_contributor_info (contributor : ID) : M (ID * address * Z * Z) :=
  let* c := read_contributor contributor (λ c, c) in
  ret (pool_id c, owner c, staked_amount c, reward_debt c).

Definition calculate_pending_reward (pool : ID) (contributor : ID) : M Z :=
  let* st := read_pool pool status in
  let* staked := read_contributor contributor staked_amount in
  if negb (st =? ACTIVE) || (staked =? 0) then ret 0
  else
    let* rps := read_pool pool reward_per_stake in
    let* prod := mul64 staked rps in
    let* scaled := div64 prod 1000000 in
    let* debt := read_contributor contributor reward_debt in
    let* total_reward := sub64 scaled debt in
    let* pct := read_pool pool operator_reward_pct in
    let* user_pct := sub64 100 pct in
    let* gross := mul64 total_reward user_pct in
    let* user_reward := div64 gross 100 in
    ret user_reward.

Definition is_ready_for_activation (pool : ID) : M bool :=
  let* st := read_pool pool status in ret (st =? READY).

Definition is_contributor_for_pool (contributor : ID) (pool : ID) : M bool :=
  let* cp := read_contributor contributor pool_id in
  let* pid := read_pool pool id in
  ret (cp =? pid).

(** ** Entry functions *)

Definition create_validator_pool : M unit :=
  let* created := create_pool 1000000000 10 in
  let* snd := tx_context_sender in
  transfer_pool created.1 snd;;
  transfer_cap created.2 snd.

Definition create_custom_validator_pool (required_stake operator_reward_pct : Z) : M unit :=
  let* created := create_pool required_stake operator_reward_pct in
  let* snd := tx_context_sender in
  transfer_pool created.1 snd;;
  transfer_cap created.2 snd.

Definition stake_to_pool (pool : ID) (stake_coin : Coin) : M unit :=
  let* contributor := stake pool stake_coin in
  let* snd := tx_context_sender in
  transfer_contributor contributor snd.

Definition activate_validator_pool (pool : ID) (operator_cap : ID) : M unit :=
  activate_pool pool operator_cap.

Definition record_validator_reward (pool : ID) (reward_coin : Coin) : M unit :=
  record_reward pool reward_coin.

Definition claim_user_reward (pool : ID) (contributor : ID) : M unit :=
  let* reward_coin := claim_reward pool contributor in
  let* snd := tx_context_sender in
  transfer_coin reward_coin snd.

Definition claim_operator_rewards (pool : ID) (operator_cap : ID) : M unit :=
  let* reward_coin := claim_operator_reward pool operator_cap in
  let* snd := tx_context_sender in
  transfer_coin reward_coin snd.

Definition withdraw_user_stake (pool : ID) (contributor : ID) (amount : Z) : M unit :=
  let* withdrawal_coin := withdraw_stake pool contributor amount in
  let* snd := tx_context_sender in
  transfer_coin withdrawal_coin snd.

(** The argument is passed by value: the record leaves the store when the
    call starts and [object::delete] drops its ID. *)
Definition destroy_empty_contributor (contributor : ID) : M unit :=
  let* c := take_contributor contributor in
  assert (staked_amount c =? 0) E_INSUFFICIENT_STAKE;;
  object_delete (contributor_id c).

(** ** Transactions *)

Inductive Call :=
| CreateValidatorPool
| CreateCustomValidatorPool (required_stake operator_reward_pct : Z)
| StakeToPool (pool : ID) (stake_coin : Coin)
| ActivateValidatorPool (pool operator_cap : ID)
| RecordValidatorReward (pool : ID) (reward_coin : Coin)
| ClaimUserReward (pool contributor : ID)
| ClaimOperatorRewards (pool operator_cap : ID)
| WithdrawUserStake (pool contributor : ID) (amount : Z)
| DestroyEmptyContributor (contributor : ID).

Record Transaction := mkTx { tx_sender : address; tx_call : Call }.

(** Arguments have the types of the entry function's signature. *)
Definition well_typed (c : Call) : bool :=
  match c with
  | CreateValidatorPool => true
  | CreateCustomValidatorPool rs pct => is_u64 rs && is_u8 pct
  | StakeToPool _ coin => is_u64 (coin_value coin)
  | ActivateValidatorPool _ _ => true
  | RecordValidatorReward _ coin => is_u64 (coin_value coin)
  | ClaimUserReward _ _ => true
  | ClaimOperatorRewards _ _ => true
  | WithdrawUserStake _ _ amount => is_u64 amount
  | DestroyEmptyContributor _ => true
  end.

(** The host resolves the object arguments before the call starts. *)
Definition resolve (c : Call) : M unit :=
  match c with
  | CreateValidatorPool | CreateCustomValidatorPool _ _ => ret tt
  | StakeToPool pool _ | RecordValidatorReward pool _ =>
      read_pool pool (λ _, tt)
  | ActivateValidatorPool pool cap | ClaimOperatorRewards pool cap =>
      read_pool pool (λ _, tt);; read_cap cap (λ _, tt)
  | ClaimUserReward pool contributor | WithdrawUserStake pool contributor _ =>
      read_pool pool (λ _, tt);; read_contributor contributor (λ _, tt)
  | DestroyEmptyContributor contributor =>
      read_contributor contributor (λ _, tt)
  end.

Definition dispatch (c : Call) : M unit :=
  match c with
  | CreateValidatorPool => create_validator_pool
  | CreateCustomValidatorPool rs pct => create_custom_validator_pool rs pct
  | StakeToPool pool coin => stake_to_pool pool coin
  | ActivateValidatorPool pool cap => activate_validator_pool pool cap
  | RecordValidatorReward pool coin => record_validator_reward pool coin
  | ClaimUserReward pool contributor => claim_user_reward pool contributor
  | ClaimOperatorRewards pool cap => claim_operator_rewards pool cap
  | WithdrawUserStake pool contributor amount => withdraw_user_stake pool contributor amount
  | DestroyEmptyContributor contributor => destroy_empty_contributor contributor
  end.

Definition begin_tx (s : address) (w : World) : World :=
  with_ctx (λ c, mkTxContext s (ids_created c)) w.

(** Running a transaction: what the call returns, with the store in which it
    ended. *)
Definition run_tx (t : Transaction) (w : World) : outcome unit :=
  (resolve (tx_call t);; dispatch (tx_call t)) (begin_tx (tx_sender t) w).

(** The host commits the effects of a call that returns and discards those
    of a call that aborts. *)
Definition execute (t : Transaction) (w : World) : World :=
  match run_tx t w with
  | Ok _ w' => w'
  | Abort _ _ => w
  end.

Definition execute_all (ts : list Transaction) (w : World) : World :=
  foldl (λ w t, execute t w) w ts.

(** ** Reachable stores *)

Inductive reachable : World → Prop :=
| reachable_genesis : reachable genesis
| reachable_execute t w :
    reachable w → well_typed (tx_call t) = true → reachable (execute t w).

(** A call is scoped when the Contributor Record it presents was created by
    a stake into the pool it presents: what [is_contributor_for_pool] tests.
    No function of the module makes the test. *)
Definition scoped (c : Call) (w : World) : bool :=
  match c with
  | ClaimUserReward pool contributor | WithdrawUserStake pool contributor _ =>
      match contributors w !! contributor with
      | Some r => pool_id r =? pool
      | None => true
      end
  | _ => true
  end.

Inductive reachable_scoped : World → Prop :=
| reachable_scoped_genesis : reachable_scoped genesis
| reachable_scoped_execute t w :
    reachable_scoped w → well_typed (tx_call t) = true →
    scoped (tx_call t) w = true → reachable_scoped (execute t w).


(** * What each function does

    For each public function, a predicate on its outcome in a store [w] where
    the pool argument is [p] (and the record argument is [c]): the result and
    the store after a return, the condition behind each abort, and the store
    at the abort of an [assert!]. *)

Definition bump (w : World) : TxContext :=
  mkTxContext (sender (ctx w)) (ids_created (ctx w) + 1).

Definition create_pool_post (rs pct : Z) (w : World)
    (r : outcome (ValidatorPool * OperatorCap)) : Prop :=
  let n := ids_created (ctx w) in
  match r with
  | Ok created w' =>
      pct ≤ 100 ∧ 0 < rs ∧
      created.1 = mkValidatorPool n rs 0 (sender (ctx w)) pct COLLECTING 0 0 (mkBalance 0) ∧
      created.2 = mkOperatorCap (n + 1) n ∧
      w' = mkWorld (pools w) (contributors w) (caps w) (coins w)
             (events w ++ [PoolCreated n (sender (ctx w)) rs pct])
             (mkTxContext (sender (ctx w)) (n + 1 + 1))
  | Abort (Assert code) w' =>
      w' = w ∧ code = E_ZERO_AMOUNT ∧ (100 < pct ∨ rs ≤ 0)
  | Abort _ _ => False
  end.

Definition stake_status (p : ValidatorPool) (v : Z) : Z :=
  if (total_stake p + v >=? required_stake p) && (status p =? COLLECTING)
  then READY else status p.

Definition stake_post (h : ID) (coin : Coin) (w : World) (p : ValidatorPool)
    (r : outcome Contributor) : Prop :=
  let v := coin_value coin in
  match r with
  | Ok c w' =>
      (status p = COLLECTING ∨ status p = READY) ∧ 0 < v ∧
      value (balance p) + v ≤ u64_max ∧ total_stake p + v ≤ u64_max ∧
      reward_per_stake p * v ≤ u64_max ∧
      c = mkContributor (ids_created (ctx w)) (id p) (sender (ctx w)) v
            (reward_per_stake p * v / 1000000) ∧
      w' = mkWorld
             (<[h := set_status (stake_status p v)
                       (set_total_stake (total_stake p + v)
                          (set_balance (mkBalance (value (balance p) + v)) p))]> (pools w))
             (contributors w) (caps w) (coins w)
             (events w ++ [StakeDeposited (id p) (sender (ctx w)) v (total_stake p + v)
                             (stake_status p v)])
             (bump w)
  | Abort (Assert code) w' =>
      w' = w ∧
      (code = E_INVALID_STATE ∧ status p ≠ COLLECTING ∧ status p ≠ READY ∨
       code = E_ZERO_AMOUNT ∧ (status p = COLLECTING ∨ status p = READY) ∧ v ≤ 0)
  | Abort ARITHMETIC_ERROR _ =>
      (status p = COLLECTING ∨ status p = READY) ∧ 0 < v ∧
      (u64_max < value (balance p) + v ∨ u64_max < total_stake p + v ∨
       u64_max < reward_per_stake p * v)
  | Abort _ _ => False
  end.

Definition activate_pool_post (h : ID) (w : World) (p : ValidatorPool)
    (r : outcome unit) : Prop :=
  match r with
  | Ok _ w' =>
      status p = READY ∧ sender (ctx w) = operator p ∧
      w' = mkWorld (<[h := set_status ACTIVE p]> (pools w)) (contributors w) (caps w)
             (coins w) (events w ++ [PoolActivated (id p) (operator p) (total_stake p)])
             (ctx w)
  | Abort (Assert code) w' =>
      w' = w ∧
      (code = E_INVALID_STATE ∧ status p ≠ READY ∨
       code = E_UNAUTHORIZED ∧ status p = READY ∧ sender (ctx w) ≠ operator p)
  | Abort _ _ => False
  end.

Definition record_rps (p : ValidatorPool) (v : Z) : Z :=
  if total_stake p >? 0
  then reward_per_stake p + (v * 1000000) / total_stake p
  else reward_per_stake p.

Definition record_reward_post (h : ID) (coin : Coin) (w : World) (p : ValidatorPool)
    (r : outcome unit) : Prop :=
  let v := coin_value coin in
  match r with
  | Ok _ w' =>
      status p = ACTIVE ∧ 0 < v ∧
      value (balance p) + v ≤ u64_max ∧ accumulated_reward p + v ≤ u64_max ∧
      (0 < total_stake p → v * 1000000 ≤ u64_max ∧ record_rps p v ≤ u64_max) ∧
      w' = mkWorld
             (<[h := set_reward_per_stake (record_rps p v)
                       (set_accumulated_reward (accumulated_reward p + v)
                          (set_balance (mkBalance (value (balance p) + v)) p))]> (pools w))
             (contributors w) (caps w) (coins w)
             (events w ++ [RewardRecorded (id p) v (accumulated_reward p + v)])
             (ctx w)
  | Abort (Assert code) w' =>
      w' = w ∧
      (code = E_INVALID_STATE ∧ status p ≠ ACTIVE ∨
       code = E_ZERO_AMOUNT ∧ status p = ACTIVE ∧ v ≤ 0)
  | Abort ARITHMETIC_ERROR _ =>
      status p = ACTIVE ∧ 0 < v ∧
      (u64_max < value (balance p) + v ∨ u64_max < accumulated_reward p + v ∨
       (0 < total_stake p ∧ (u64_max < v * 1000000 ∨ u64_max < record_rps p v)))
  | Abort _ _ => False
  end.

(** The three quantities of [claim_reward]. *)
Definition settled (p : ValidatorPool) (c : Contributor) : Z :=
  staked_amount c * reward_per_stake p / 1000000.
Definition pending (p : ValidatorPool) (c : Contributor) : Z :=
  settled p c - reward_debt c.
Definition user_share (p : ValidatorPool) (c : Contributor) : Z :=
  pending p c * (100 - operator_reward_pct p) / 100.

Definition claim_reward_post (h k : ID) (w : World) (p : ValidatorPool) (c : Contributor)
    (r : outcome Coin) : Prop :=
  match r with
  | Ok coin w' =>
      status p = ACTIVE ∧ owner c = sender (ctx w) ∧
      staked_amount c * reward_per_stake p ≤ u64_max ∧ reward_debt c ≤ settled p c ∧
      (0 < pending p c ∧ operator_reward_pct p ≤ 100 ∧
       pending p c * (100 - operator_reward_pct p) ≤ u64_max ∧
       user_share p c ≤ value (balance p) ∧
       coin = mkCoin (ids_created (ctx w)) (mkBalance (user_share p c)) ∧
       w' = mkWorld
              (<[h := set_balance (mkBalance (value (balance p) - user_share p c)) p]>
                 (pools w))
              (<[k := set_reward_debt (settled p c) c]> (contributors w))
              (caps w) (coins w)
              (events w ++ [RewardClaimed (id p) (owner c) (user_share p c) false])
              (bump w)
       ∨
       pending p c ≤ 0 ∧
       coin = mkCoin (ids_created (ctx w)) (mkBalance 0) ∧
       w' = mkWorld (pools w) (contributors w) (caps w) (coins w) (events w) (bump w))
  | Abort (Assert code) w' =>
      w' = w ∧
      (code = E_INVALID_STATE ∧ status p ≠ ACTIVE ∨
       code = E_UNAUTHORIZED ∧ status p = ACTIVE ∧ owner c ≠ sender (ctx w))
  | Abort ARITHMETIC_ERROR _ =>
      status p = ACTIVE ∧ owner c = sender (ctx w) ∧
      (u64_max < staked_amount c * reward_per_stake p ∨
       settled p c < reward_debt c ∨
       0 < pending p c ∧
       (100 < operator_reward_pct p ∨
        u64_max < pending p c * (100 - operator_reward_pct p)))
  | Abort ENotEnough _ =>
      status p = ACTIVE ∧ owner c = sender (ctx w) ∧
      0 < pending p c ∧ value (balance p) < user_share p c
  | Abort OBJECT_NOT_FOUND _ => False
  end.

Definition operator_share (p : ValidatorPool) : Z :=
  accumulated_reward p * operator_reward_pct p / 100.

Definition claim_operator_reward_post (h : ID) (w : World) (p : ValidatorPool)
    (r : outcome Coin) : Prop :=
  match r with
  | Ok coin w' =>
      status p = ACTIVE ∧ sender (ctx w) = operator p ∧
      accumulated_reward p * operator_reward_pct p ≤ u64_max ∧
      (0 < operator_share p ∧ operator_share p ≤ value (balance p) ∧
       coin = mkCoin (ids_created (ctx w)) (mkBalance (operator_share p)) ∧
       w' = mkWorld
              (<[h := set_balance (mkBalance (value (balance p) - operator_share p))
                        (set_accumulated_reward 0 p)]> (pools w))
              (contributors w) (caps w) (coins w)
              (events w ++ [RewardClaimed (id p) (operator p) (operator_share p) true])
              (bump w)
       ∨
       operator_share p ≤ 0 ∧
       coin = mkCoin (ids_created (ctx w)) (mkBalance 0) ∧
       w' = mkWorld (pools w) (contributors w) (caps w) (coins w) (events w) (bump w))
  | Abort (Assert code) w' =>
      w' = w ∧
      (code = E_INVALID_STATE ∧ status p ≠ ACTIVE ∨
       code = E_UNAUTHORIZED ∧ status p = ACTIVE ∧ sender (ctx w) ≠ operator p)
  | Abort ARITHMETIC_ERROR _ =>
      status p = ACTIVE ∧ sender (ctx w) = operator p ∧
      u64_max < accumulated_reward p * operator_reward_pct p
  | Abort ENotEnough _ =>
      status p = ACTIVE ∧ sender (ctx w) = operator p ∧
      0 < operator_share p ∧ value (balance p) < operator_share p
  | Abort OBJECT_NOT_FOUND _ => False
  end.

Definition withdraw_status (p : ValidatorPool) (amount : Z) : Z :=
  if (total_stake p - amount <? required_stake p) && (status p =? READY)
  then COLLECTING else status p.

Definition withdraw_stake_post (h k : ID) (amount : Z) (w : World) (p : ValidatorPool)
    (c : Contributor) (r : outcome Coin) : Prop :=
  match r with
  | Ok coin w' =>
      (status p = COLLECTING ∨ status p = READY) ∧ owner c = sender (ctx w) ∧
      0 < amount ∧ amount ≤ staked_amount c ∧ amount ≤ total_stake p ∧
      amount ≤ value (balance p) ∧
      coin = mkCoin (ids_created (ctx w)) (mkBalance amount) ∧
      w' = mkWorld
             (<[h := set_balance (mkBalance (value (balance p) - amount))
                       (set_status (withdraw_status p amount)
                          (set_total_stake (total_stake p - amount) p))]> (pools w))
             (<[k := set_staked_amount (staked_amount c - amount) c]> (contributors w))
             (caps w) (coins w)
             (events w ++ [StakeWithdrawn (id p) (owner c) amount (total_stake p - amount)])
             (bump w)
  | Abort (Assert code) w' =>
      w' = w ∧
      (code = E_WITHDRAWAL_NOT_ALLOWED ∧ status p ≠ COLLECTING ∧ status p ≠ READY ∨
       (status p = COLLECTING ∨ status p = READY) ∧
       (code = E_UNAUTHORIZED ∧ owner c ≠ sender (ctx w) ∨
        code = E_ZERO_AMOUNT ∧ owner c = sender (ctx w) ∧ amount ≤ 0 ∨
        code = E_INSUFFICIENT_STAKE ∧ owner c = sender (ctx w) ∧ 0 < amount ∧
        staked_amount c < amount))
  | Abort ARITHMETIC_ERROR _ =>
      (status p = COLLECTING ∨ status p = READY) ∧ owner c = sender (ctx w) ∧
      0 < amount ≤ staked_amount c ∧ total_stake p < amount
  | Abort ENotEnough _ =>
      (status p = COLLECTING ∨ status p = READY) ∧ owner c = sender (ctx w) ∧
      0 < amount ≤ staked_amount c ∧ amount ≤ total_stake p ∧
      value (balance p) < amount
  | Abort OBJECT_NOT_FOUND _ => False
  end.

Definition calculate_pending_reward_post (w : World) (p : ValidatorPool) (c : Contributor)
    (r : outcome Z) : Prop :=
  match r with
  | Ok v w' =>
      w' = w ∧
      ((status p ≠ ACTIVE ∨ staked_amount c = 0) ∧ v = 0
       ∨
       status p = ACTIVE ∧ staked_amount c ≠ 0 ∧
       staked_amount c * reward_per_stake p ≤ u64_max ∧
       reward_debt c ≤ settled p c ∧ operator_reward_pct p ≤ 100 ∧
       pending p c * (100 - operator_reward_pct p) ≤ u64_max ∧
       v = user_share p c)
  | Abort ARITHMETIC_ERROR w' =>
      w' = w ∧ status p = ACTIVE ∧ staked_amount c ≠ 0 ∧
      (u64_max < staked_amount c * reward_per_stake p ∨
       settled p c < reward_debt c ∨
       100 < operator_reward_pct p ∨
       u64_max < pending p c * (100 - operator_reward_pct p))
  | Abort _ _ => False
  end.

(** * Bookkeeping over the records of one pool *)

(** What a record counts for in pool [h]: [f] of it when it belongs to [h]. *)
Definition weight (f : Contributor → Z) (h : ID) (c : Contributor) : Z :=
  if pool_id c =? h then f c else 0.

Definition sum_of (f : Contributor → Z) (h : ID) (cs : gmap ID Contributor) : Z :=
  map_fold (λ _ c acc, weight f h c + acc) 0 cs.

(** The sum of [staked_amount] (of [reward_debt]) over the live records of
    pool [h]. *)
Definition staked_in (h : ID) (cs : gmap ID Contributor) : Z := sum_of staked_amount h cs.
Definition debt_in (h : ID) (cs : gmap ID Contributor) : Z := sum_of reward_debt h cs.

(** * Invariants *)

(** The reward ledger of a pool against the reward [R] it has taken in and
    the debt [D] its records have settled: what has been paid out,
    [total_stake + R - balance], is covered by the users' part of [D] and the
    operator's part of what was zeroed from [accumulated_reward]. *)
Definition ledger (p : ValidatorPool) (D R : Z) : Prop :=
  0 ≤ accumulated_reward p ≤ R ∧
  0 ≤ reward_per_stake p ∧
  reward_per_stake p * total_stake p ≤ 1000000 * R ∧
  value (balance p) ≤ total_stake p + R ∧
  100 * (total_stake p + R - value (balance p))
    ≤ (100 - operator_reward_pct p) * D
      + operator_reward_pct p * (R - accumulated_reward p).

Definition pool_inv (cs : gmap ID Contributor) (h : ID) (p : ValidatorPool) : Prop :=
  id p = h ∧
  (status p = COLLECTING ∨ status p = READY ∨ status p = ACTIVE) ∧
  0 < required_stake p ∧
  0 ≤ operator_reward_pct p ≤ 100 ∧
  total_stake p = staked_in h cs ∧
  (status p ≠ COLLECTING → required_stake p ≤ total_stake p) ∧
  (status p ≠ ACTIVE →
     reward_per_stake p = 0 ∧ accumulated_reward p = 0 ∧
     value (balance p) = total_stake p) ∧
  ∃ R, ledger p (debt_in h cs) R.

Definition contributor_inv (ps : gmap ID ValidatorPool) (c : Contributor) : Prop :=
  0 ≤ staked_amount c ∧
  0 ≤ reward_debt c ∧
  ∀ p, ps !! pool_id c = Some p →
       1000000 * reward_debt c ≤ staked_amount c * reward_per_stake p.

Definition world_inv (w : World) : Prop :=
  (∀ h p, pools w !! h = Some p →
          h < ids_created (ctx w) ∧ pool_inv (contributors w) h p) ∧
  (∀ k c, contributors w !! k = Some c →
          k < ids_created (ctx w) ∧ pool_id c < ids_created (ctx w) ∧
          contributor_inv (pools w) c).

(** What holds of every pool in every reachable store, whatever records the
    calls present. *)
Definition pool_basic (p : ValidatorPool) : Prop :=
  (status p = COLLECTING ∨ status p = READY ∨ status p = ACTIVE) ∧
  0 < required_stake p ∧
  0 ≤ operator_reward_pct p ≤ 100 ∧
  0 ≤ total_stake p ∧
  (status p ≠ COLLECTING → required_stake p ≤ total_stake p) ∧
  (status p ≠ ACTIVE → reward_per_stake p = 0 ∧ accumulated_reward p = 0) ∧
  0 ≤ reward_per_stake p ∧
  0 ≤ accumulated_reward p ∧
  0 ≤ value (balance p).

Definition basic_inv (w : World) : Prop :=
  ∀ h p, pools w !! h = Some p → h < ids_created (ctx w) ∧ pool_basic p.

(** * Histories used below *)

(** A coin of value [v] presented by a caller. *)
Definition coin_of (v : Z) : Coin := mkCoin 0 (mkBalance v).

(** Every pool holds at least its total stake. *)
Definition solvent (w : World) : Prop :=
  ∀ h p, pools w !! h = Some p → total_stake p ≤ value (balance p).

(** Two pools, every call sent by address 10, who holds every object.  Pool 0
    is staked, activated and rewarded; pool 3 is staked, and its record 5 is
    then presented to [claim_reward] together with pool 0. *)
Definition cross_pool_claim : list Transaction :=
  [ mkTx 10 (CreateCustomValidatorPool 1000 10);
    mkTx 10 (StakeToPool 0 (coin_of 1000));
    mkTx 10 (ActivateValidatorPool 0 1);
    mkTx 10 (RecordValidatorReward 0 (coin_of 100));
    mkTx 10 (CreateCustomValidatorPool 1 0);
    mkTx 10 (StakeToPool 3 (coin_of 10000));
    mkTx 10 (ClaimUserReward 0 5) ].

(** A history is scoped when each of its calls is, in the store it runs in. *)
Fixpoint all_scoped (txs : list Transaction) (w : World) : bool :=
  match txs with
  | [] => true
  | t :: rest =>
      well_typed (tx_call t) && scoped (tx_call t) w && all_scoped rest (execute t w)
  end.

(** The life of one pool: created by 10, staked by 11, activated, rewarded. *)
Definition lifecycle : list Transaction :=
  [ mkTx 10 (CreateCustomValidatorPool 1000 10);
    mkTx 11 (StakeToPool 0 (coin_of 1000));
    mkTx 10 (ActivateValidatorPool 0 1);
    mkTx 10 (RecordValidatorReward 0 (coin_of 100)) ].

(** The stake and withdraw operations on pool [h], and the cleanup of an
    emptied record. *)
Definition stake_or_withdraw (h : ID) (c : Call) : bool :=
  match c with
  | StakeToPool h' _ => h' =? h
  | WithdrawUserStake h' _ _ => h' =? h
  | DestroyEmptyContributor _ => true
  | _ => false
  end.

(** A withdrawal presents its own record when the Contributor Record was
    created by a stake into the pool the call presents.  Claims are left
    free: [claim_reward] writes neither [staked_amount] nor [total_stake]. *)
Definition own_withdrawal (c : Call) (w : World) : bool :=
  match c with
  | WithdrawUserStake pool contributor _ =>
      match contributors w !! contributor with
      | Some r => pool_id r =? pool
      | None => true
      end
  | _ => true
  end.

(** The stores reached by histories in which every withdrawal presents its
    own record. *)
Inductive reachable_own_withdrawals : World → Prop :=
| reachable_own_genesis : reachable_own_withdrawals genesis
| reachable_own_execute t w :
    reachable_own_withdrawals w → well_typed (tx_call t) = true →
    own_withdrawal (tx_call t) w = true → reachable_own_withdrawals (execute t w).

Fixpoint all_own_withdrawals (txs : list Transaction) (w : World) : bool :=
  match txs with
  | [] => true
  | t :: rest =>
      well_typed (tx_call t) && own_withdrawal (tx_call t) w
      && all_own_withdrawals rest (execute t w)
  end.

(** Every pool's [total_stake] is the sum of the stakes of its records. *)
Definition stakes_add_up (w : World) : Prop :=
  ∀ h p, pools w !! h = Some p → total_stake p = staked_in h (contributors w).

(** Every call sent by address 10.  A store with pool 0 and its record 2 of
    500; then a pool is created (pool 3), staked with 400 (record 5), and
    record 2 is presented to [withdraw_stake] together with pool 3. *)
Definition earlier_pool : list Transaction :=
  [ mkTx 10 (CreateCustomValidatorPool 1000 10);
    mkTx 10 (StakeToPool 0 (coin_of 500)) ].

Definition foreign_withdrawal : list Transaction :=
  [ mkTx 10 (StakeToPool 3 (coin_of 400));
    mkTx 10 (WithdrawUserStake 3 2 100) ].

(** Pool 0 with three deposits, a partial and a full withdrawal, and the
    cleanup of the emptied record. *)
Definition deposits_and_withdrawals : list Transaction :=
  [ mkTx 11 (StakeToPool 0 (coin_of 400));
    mkTx 12 (StakeToPool 0 (coin_of 700));
    mkTx 11 (WithdrawUserStake 0 2 150);
    mkTx 13 (StakeToPool 0 (coin_of 50));
    mkTx 12 (WithdrawUserStake 0 3 700);
    mkTx 12 (DestroyEmptyContributor 3) ].

(** The round trip: a pool with threshold [S] and operator cut [p], one stake
    of [S], activation, one reward of [R]. *)
Definition round_trip (operator user : address) (S R p : Z) : list Transaction :=
  [ mkTx operator (CreateCustomValidatorPool S p);
    mkTx user (StakeToPool 0 (coin_of S));
    mkTx operator (ActivateValidatorPool 0 1);
    mkTx operator (RecordValidatorReward 0 (coin_of R)) ].

Definition round_trip_payout (S R p : Z) : Z :=
  (R * 1000000 / S * S / 1000000) * (100 - p) / 100.

(** Every transaction of the history returns. *)
Fixpoint all_return (txs : list Transaction) (w : World) : bool :=
  match txs with
  | [] => true
  | t :: rest =>
      match run_tx t w with
      | Ok _ w' => all_return rest w'
      | Abort _ _ => false
      end
  end.

(** The staker's first claim pays [round_trip_payout]; the second pays
    nothing and leaves the pool and the record as they were. *)
Definition round_trip_holds (operator user : address) (S R p : Z) : Prop :=
  let w := begin_tx user (execute_all (round_trip operator user S R p) genesis) in
  ∃ coin1 w1 coin2 w2,
    claim_reward 0 2 w = Ok coin1 w1 ∧
    coin_value coin1 = round_trip_payout S R p ∧
    claim_reward 0 2 w1 = Ok coin2 w2 ∧
    coin_value coin2 = 0 ∧
    pools w2 = pools w1 ∧ contributors w2 = contributors w1 ∧
    caps w2 = caps w1 ∧ coins w2 = coins w1 ∧ events w2 = events w1.

(** Stores of the lifecycle: a pool that is collecting, ready, and active
    with a reward recorded. *)
Definition collecting_store : World :=
  execute_all (take 1 lifecycle) genesis.
Definition ready_store : World :=
  execute_all (take 2 lifecycle) genesis.
Definition active_store : World :=
  execute_all lifecycle genesis.

(** The operations of the core, as calls: every call but the cleanup of an
    emptied record. *)
Definition core_call (c : Call) : bool :=
  match c with
  | DestroyEmptyContributor _ => false
  | _ => true
  end.

Definition error_codes : list Z :=
  [E_UNAUTHORIZED; E_INVALID_STATE; E_INSUFFICIENT_STAKE; E_ZERO_AMOUNT;
   E_WITHDRAWAL_NOT_ALLOWED].

(** Every call sent by address 10.  Pool 0 is active with a reward recorded;
    pool 3 is still collecting.  The record 5 staked into pool 3 is presented
    to [claim_reward] together with pool 0. *)
Definition cross_pool_debt : list Transaction :=
  [ mkTx 10 (CreateCustomValidatorPool 1000 10);
    mkTx 10 (StakeToPool 0 (coin_of 1000));
    mkTx 10 (ActivateValidatorPool 0 1);
    mkTx 10 (RecordValidatorReward 0 (coin_of 100));
    mkTx 10 (CreateCustomValidatorPool 1000 0);
    mkTx 10 (StakeToPool 3 (coin_of 10));
    mkTx 10 (ClaimUserReward 0 5) ].

(** A pool of 2000000 that is active, before a reward of 1. *)
Definition before_small_reward : list Transaction :=
  [ mkTx 10 (CreateCustomValidatorPool 2000000 10);
    mkTx 11 (StakeToPool 0 (coin_of 2000000));
    mkTx 10 (ActivateValidatorPool 0 1) ].

(** Every call sent by address 10.  Pool 0 is active and a debt of 100 is
    settled on its record 2; pool 4 is active with no reward recorded. *)
Definition two_active_pools : list Transaction :=
  [ mkTx 10 (CreateCustomValidatorPool 1000 10);
    mkTx 10 (StakeToPool 0 (coin_of 1000));
    mkTx 10 (ActivateValidatorPool 0 1);
    mkTx 10 (RecordValidatorReward 0 (coin_of 100));
    mkTx 10 (ClaimUserReward 0 2);
    mkTx 10 (CreateCustomValidatorPool 10 0);
    mkTx 10 (StakeToPool 4 (coin_of 10));
    mkTx 10 (ActivateValidatorPool 4 5) ].

(** The stores a history can lead to from a store. *)
Inductive future : World → World → Prop :=
| future_now w : future w w
| future_execute t w w' :
    future w w' → well_typed (tx_call t) = true → future w (execute t w').
(** * The store after a transaction that returns

    One store for each entry function: what the call and the transfers that
    follow it leave behind, for the sender [s] in the store [w]. *)

Definition create_effect (s : address) (rs pct : Z) (w : World) : World :=
  let n := ids_created (ctx w) in
  mkWorld (<[n := mkValidatorPool n rs 0 s pct COLLECTING 0 0 (mkBalance 0)]> (pools w))
    (contributors w)
    (<[n + 1 := mkOperatorCap (n + 1) n]> (caps w))
    (coins w)
    (events w ++ [PoolCreated n s rs pct])
    (mkTxContext s (n + 1 + 1)).

Definition stake_effect (s : address) (h : ID) (p : ValidatorPool) (v : Z) (w : World)
  : World :=
  let n := ids_created (ctx w) in
  mkWorld
    (<[h := set_status (stake_status p v)
              (set_total_stake (total_stake p + v)
                 (set_balance (mkBalance (value (balance p) + v)) p))]> (pools w))
    (<[n := mkContributor n (id p) s v (reward_per_stake p * v / 1000000)]>
       (contributors w))
    (caps w) (coins w)
    (events w ++ [StakeDeposited (id p) s v (total_stake p + v) (stake_status p v)])
    (mkTxContext s (n + 1)).

Definition activate_effect (s : address) (h : ID) (p : ValidatorPool) (w : World) : World :=
  mkWorld (<[h := set_status ACTIVE p]> (pools w)) (contributors w) (caps w) (coins w)
    (events w ++ [PoolActivated (id p) (operator p) (total_stake p)])
    (mkTxContext s (ids_created (ctx w))).

Definition record_effect (s : address) (h : ID) (p : ValidatorPool) (v : Z) (w : World)
  : World :=
  mkWorld
    (<[h := set_reward_per_stake (record_rps p v)
              (set_accumulated_reward (accumulated_reward p + v)
                 (set_balance (mkBalance (value (balance p) + v)) p))]> (pools w))
    (contributors w) (caps w) (coins w)
    (events w ++ [RewardRecorded (id p) v (accumulated_reward p + v)])
    (mkTxContext s (ids_created (ctx w))).

Definition claim_effect (s : address) (h k : ID) (p : ValidatorPool) (c : Contributor)
    (w : World) : World :=
  let n := ids_created (ctx w) in
  mkWorld
    (<[h := set_balance (mkBalance (value (balance p) - user_share p c)) p]> (pools w))
    (<[k := set_reward_debt (settled p c) c]> (contributors w))
    (caps w)
    (coins w ++ [(s, mkCoin n (mkBalance (user_share p c)))])
    (events w ++ [RewardClaimed (id p) (owner c) (user_share p c) false])
    (mkTxContext s (n + 1)).

(** A claim that finds nothing to pay: an empty coin for the sender. *)
Definition empty_effect (s : address) (w : World) : World :=
  let n := ids_created (ctx w) in
  mkWorld (pools w) (contributors w) (caps w)
    (coins w ++ [(s, mkCoin n (mkBalance 0))])
    (events w)
    (mkTxContext s (n + 1)).

Definition claim_operator_effect (s : address) (h : ID) (p : ValidatorPool) (w : World)
  : World :=
  let n := ids_created (ctx w) in
  mkWorld
    (<[h := set_balance (mkBalance (value (balance p) - operator_share p))
              (set_accumulated_reward 0 p)]> (pools w))
    (contributors w) (caps w)
    (coins w ++ [(s, mkCoin n (mkBalance (operator_share p)))])
    (events w ++ [RewardClaimed (id p) (operator p) (operator_share p) true])
    (mkTxContext s (n + 1)).

Definition withdraw_effect (s : address) (h k : ID) (p : ValidatorPool) (c : Contributor)
    (amount : Z) (w : World) : World :=
  let n := ids_created (ctx w) in
  mkWorld
    (<[h := set_balance (mkBalance (value (balance p) - amount))
              (set_status (withdraw_status p amount)
                 (set_total_stake (total_stake p - amount) p))]> (pools w))
    (<[k := set_staked_amount (staked_amount c - amount) c]> (contributors w))
    (caps w)
    (coins w ++ [(s, mkCoin n (mkBalance amount))])
    (events w ++ [StakeWithdrawn (id p) (owner c) amount (total_stake p - amount)])
    (mkTxContext s (n + 1)).

Definition destroy_effect (s : address) (k : ID) (w : World) : World :=
  mkWorld (pools w) (delete k (contributors w)) (caps w) (coins w) (events w)
    (mkTxContext s (ids_created (ctx w))).

(** [effect s w call w']: the call, sent by [s] in the store [w], returns and
    leaves the store [w'].  Each case carries the checks the call has
    passed. *)
Inductive effect (s : address) (w : World) : Call → World → Prop :=
| effect_create_default :
    effect s w CreateValidatorPool (create_effect s 1000000000 10 w)
| effect_create rs pct :
    0 < rs → pct ≤ 100 →
    effect s w (CreateCustomValidatorPool rs pct) (create_effect s rs pct w)
| effect_stake h coin p :
    pools w !! h = Some p →
    status p = COLLECTING ∨ status p = READY →
    0 < coin_value coin →
    value (balance p) + coin_value coin ≤ u64_max →
    total_stake p + coin_value coin ≤ u64_max →
    reward_per_stake p * coin_value coin ≤ u64_max →
    effect s w (StakeToPool h coin) (stake_effect s h p (coin_value coin) w)
| effect_activate h cap p r :
    pools w !! h = Some p → caps w !! cap = Some r →
    status p = READY → s = operator p →
    effect s w (ActivateValidatorPool h cap) (activate_effect s h p w)
| effect_record h coin p :
    pools w !! h = Some p →
    status p = ACTIVE →
    0 < coin_value coin →
    value (balance p) + coin_value coin ≤ u64_max →
    accumulated_reward p + coin_value coin ≤ u64_max →
    (0 < total_stake p →
       coin_value coin * 1000000 ≤ u64_max ∧ record_rps p (coin_value coin) ≤ u64_max) →
    effect s w (RecordValidatorReward h coin) (record_effect s h p (coin_value coin) w)
| effect_claim h k p c :
    pools w !! h = Some p → contributors w !! k = Some c →
    status p = ACTIVE → owner c = s →
    staked_amount c * reward_per_stake p ≤ u64_max →
    0 < pending p c → operator_reward_pct p ≤ 100 →
    pending p c * (100 - operator_reward_pct p) ≤ u64_max →
    user_share p c ≤ value (balance p) →
    effect s w (ClaimUserReward h k) (claim_effect s h k p c w)
| effect_claim_nothing h k p c :
    pools w !! h = Some p → contributors w !! k = Some c →
    status p = ACTIVE → owner c = s →
    staked_amount c * reward_per_stake p ≤ u64_max →
    pending p c = 0 →
    effect s w (ClaimUserReward h k) (empty_effect s w)
| effect_claim_operator h cap p r :
    pools w !! h = Some p → caps w !! cap = Some r →
    status p = ACTIVE → s = operator p →
    accumulated_reward p * operator_reward_pct p ≤ u64_max →
    0 < operator_share p → operator_share p ≤ value (balance p) →
    effect s w (ClaimOperatorRewards h cap) (claim_operator_effect s h p w)
| effect_claim_operator_nothing h cap p r :
    pools w !! h = Some p → caps w !! cap = Some r →
    status p = ACTIVE → s = operator p →
    accumulated_reward p * operator_reward_pct p ≤ u64_max →
    operator_share p ≤ 0 →
    effect s w (ClaimOperatorRewards h cap) (empty_effect s w)
| effect_withdraw h k amount p c :
    pools w !! h = Some p → contributors w !! k = Some c →
    status p = COLLECTING ∨ status p = READY →
    owner c = s →
    0 < amount → amount ≤ staked_amount c → amount ≤ total_stake p →
    amount ≤ value (balance p) →
    effect s w (WithdrawUserStake h k amount) (withdraw_effect s h k p c amount w)
| effect_destroy k c :
    contributors w !! k = Some c → staked_amount c = 0 →
    effect s w (DestroyEmptyContributor k) (destroy_effect s k w).

(** * Well-formed stores *)

Definition in_u64 (x : Z) : Prop := 0 ≤ x ≤ u64_max.

Definition pool_wf (h : ID) (p : ValidatorPool) : Prop :=
  id p = h ∧
  in_u64 (required_stake p) ∧ in_u64 (total_stake p) ∧
  in_u64 (accumulated_reward p) ∧ in_u64 (reward_per_stake p) ∧
  in_u64 (value (balance p)) ∧
  0 ≤ operator_reward_pct p ≤ 100 ∧
  (status p = COLLECTING ∨ status p = READY ∨ status p = ACTIVE) ∧
  (status p = COLLECTING → total_stake p < required_stake p) ∧
  (status p ≠ COLLECTING → required_stake p ≤ total_stake p) ∧
  (status p ≠ ACTIVE → reward_per_stake p = 0 ∧ accumulated_reward p = 0).

Definition record_wf (ps : gmap ID ValidatorPool) (k : ID) (c : Contributor) : Prop :=
  contributor_id c = k ∧
  in_u64 (staked_amount c) ∧ in_u64 (reward_debt c) ∧
  is_Some (ps !! pool_id c).

Definition cap_wf (ps : gmap ID ValidatorPool) (k : ID) (r : OperatorCap) : Prop :=
  cap_id r = k ∧ cap_pool_id r = k - 1 ∧ is_Some (ps !! cap_pool_id r).

(** Every object is stored under its own ID, below the ID counter; a pool, a
    record and a cap never share an ID; the pool a record or a cap names is
    in the store; every field is within the range of its type. *)
Definition store_wf (w : World) : Prop :=
  let n := ids_created (ctx w) in
  (∀ h p, pools w !! h = Some p →
     0 ≤ h < n ∧ pool_wf h p ∧
     caps w !! (h + 1) = Some (mkOperatorCap (h + 1) h) ∧
     contributors w !! h = None ∧ caps w !! h = None) ∧
  (∀ k c, contributors w !! k = Some c →
     0 ≤ k < n ∧ record_wf (pools w) k c ∧ caps w !! k = None) ∧
  (∀ k r, caps w !! k = Some r → 0 ≤ k < n ∧ cap_wf (pools w) k r).

(** * Value held, paid out and taken in *)

(** What the pools of the store hold together. *)
Definition held (w : World) : Z :=
  map_fold (λ _ p acc, value (balance p) + acc) 0 (pools w).

(** The coins the module has handed to their recipients. *)
Definition paid_out (w : World) : Z :=
  foldr (λ ac acc, coin_value ac.2 + acc) 0 (coins w).

(** The coin a call brings in. *)
Definition taken_in (c : Call) : Z :=
  match c with
  | StakeToPool _ coin | RecordValidatorReward _ coin => coin_value coin
  | _ => 0
  end.

(** What the transactions of a history that return have brought in. *)
Fixpoint deposited (txs : list Transaction) (w : World) : Z :=
  match txs with
  | [] => 0
  | t :: rest =>
      match run_tx t w with
      | Ok _ _ => taken_in (tx_call t)
      | Abort _ _ => 0
      end + deposited rest (execute t w)
  end.

Definition all_typed (txs : list Transaction) : bool :=
  forallb (λ t, well_typed (tx_call t)) txs.

(** * Who is paid *)

(** The address a call pays when it returns: the owner of the record
    presented, or the operator of the pool presented. *)
Definition payee (c : Call) (w : World) : option address :=
  match c with
  | ClaimUserReward _ k | WithdrawUserStake _ k _ => owner <$> contributors w !! k
  | ClaimOperatorRewards h _ => operator <$> pools w !! h
  | _ => None
  end.

(** * What a pool and a record keep *)

(** [p'] is [p] later: the same pool, with the parameters it was created
    with, and a [reward_per_stake] that has not gone down. *)
Definition pool_kept (p p' : ValidatorPool) : Prop :=
  id p' = id p ∧
  required_stake p' = required_stake p ∧
  operator p' = operator p ∧
  operator_reward_pct p' = operator_reward_pct p ∧
  reward_per_stake p ≤ reward_per_stake p'.

(** [c'] is [c] later: the same record of the same owner in the same pool,
    with a stake that has not gone up and a debt that has not gone down. *)
Definition record_kept (c c' : Contributor) : Prop :=
  contributor_id c' = contributor_id c ∧
  pool_id c' = pool_id c ∧
  owner c' = owner c ∧
  staked_amount c' ≤ staked_amount c ∧
  reward_debt c ≤ reward_debt c'.

(** * The objects a call names *)

Definition pool_named (c : Call) : option ID :=
  match c with
  | StakeToPool h _ | ActivateValidatorPool h _ | RecordValidatorReward h _
  | ClaimUserReward h _ | ClaimOperatorRewards h _ | WithdrawUserStake h _ _ => Some h
  | CreateValidatorPool | CreateCustomValidatorPool _ _ | DestroyEmptyContributor _ => None
  end.

Definition record_named (c : Call) : option ID :=
  match c with
  | ClaimUserReward _ k | WithdrawUserStake _ k _ | DestroyEmptyContributor k => Some k
  | _ => None
  end.

(** * Histories and stores used below *)

(** A second pool beside the active one: created by 20, staked by 21 below
    its threshold. *)
Definition two_pools : list Transaction :=
  lifecycle ++
  [ mkTx 20 (CreateCustomValidatorPool 500 25);
    mkTx 21 (StakeToPool 3 (coin_of 200)) ].

Definition two_pools_store : World := execute_all two_pools genesis.

(** Pool 0 is active with a reward recorded, and its staker has claimed. *)
Definition claimed_store : World :=
  execute (mkTx 11 (ClaimUserReward 0 2)) active_store.

(** Two pools, and the first one ready: pool 0 of operator 10 with cap 1,
    pool 2 of operator 20 with cap 3, and a stake by 11 that brings pool 0 to
    its threshold. *)
Definition foreign_cap : list Transaction :=
  [ mkTx 10 (CreateCustomValidatorPool 1000 10);
    mkTx 20 (CreateCustomValidatorPool 500 25);
    mkTx 11 (StakeToPool 0 (coin_of 1000)) ].

Definition foreign_cap_store : World := execute_all foreign_cap genesis.

(** Pool 0 with a stake of 1000 and two rewards of 10^13 each: the stake
    times [reward_per_stake] is then 2 * 10^19, beyond [u64]. *)
Definition overflowing : list Transaction :=
  [ mkTx 10 (CreateCustomValidatorPool 1000 10);
    mkTx 11 (StakeToPool 0 (coin_of 1000));
    mkTx 10 (ActivateValidatorPool 0 1);
    mkTx 10 (RecordValidatorReward 0 (coin_of 10000000000000));
    mkTx 10 (RecordValidatorReward 0 (coin_of 10000000000000)) ].

Definition overflowing_store : World := execute_all overflowing genesis.

(** Pool 0, collecting, with a record 2 of owner 11 that has been emptied. *)
Definition emptied : list Transaction :=
  [ mkTx 10 (CreateCustomValidatorPool 1000 10);
    mkTx 11 (StakeToPool 0 (coin_of 400));
    mkTx 11 (WithdrawUserStake 0 2 400) ].

Definition emptied_store : World := execute_all emptied genesis.

(** * Symbolic execution *)

Ltac mred :=
  cbv beta iota zeta delta
    [bind ret abort assert when read_pool write_pool read_contributor
     write_contributor read_cap take_contributor tx_context_sender object_new
     object_delete event_emit coin_from_balance balance_join balance_split
     add64 sub64 mul64 div64
     with_pools with_contributors with_caps with_coins with_events with_ctx
     pools contributors caps coins events ctx sender ids_created bump
     transfer_pool transfer_cap transfer_contributor transfer_coin
     fst snd value coin_value coin_into_balance coin_id coin_balance balance_zero
     balance_value
     id required_stake total_stake operator operator_reward_pct status
     accumulated_reward reward_per_stake balance
     contributor_id pool_id owner staked_amount reward_debt cap_id cap_pool_id
     set_total_stake set_status set_accumulated_reward set_reward_per_stake
     set_balance set_staked_amount set_reward_debt
     stake_status record_rps settled pending user_share operator_share
     withdraw_status].

Ltac mlook := rewrite ?lookup_insert_eq, ?insert_insert_eq.

Ltac msplit :=
  match goal with
  | |- context [match (if ?c then _ else _) _ with _ => _ end] => destruct c eqn:?
  | |- context [(if ?c then _ else _) _] => destruct c eqn:?
  | |- context [if ?c then _ else _] => destruct c eqn:?
  end.

Ltac mrun := repeat (mred; mlook; try msplit).

Ltac zbool :=
  repeat match goal with
  | H : _ = true |- _ =>
      first [ rewrite Z.gtb_ltb in H | rewrite Z.geb_leb in H
            | rewrite Z.leb_le in H | rewrite Z.ltb_lt in H | rewrite Z.eqb_eq in H
            | rewrite andb_true_iff in H; destruct H
            | rewrite orb_true_iff in H
            | rewrite negb_true_iff in H ]
  | H : _ = false |- _ =>
      first [ rewrite Z.gtb_ltb in H | rewrite Z.geb_leb in H
            | rewrite Z.leb_gt in H | rewrite Z.ltb_ge in H | rewrite Z.eqb_neq in H
            | rewrite andb_false_iff in H
            | rewrite orb_false_iff in H; destruct H
            | rewrite negb_false_iff in H ]
  end.

Ltac mfinish := zbool; try (intuition (first [reflexivity | lia])).

(** Puts the store in the form the execution steps rewrite: the pool under
    [h] and the record under [k] at the head of their maps. *)
Ltac focus_pool w Hp :=
  destruct w as [?ps ?cs ?cp ?co ?ev [?snd ?n]]; cbn [pools] in Hp;
  match type of Hp with
  | ?m !! ?h = Some ?p => rewrite <- (insert_id m h p Hp); clear Hp
  end.

Ltac focus_both w Hp Hc :=
  destruct w as [?ps ?cs ?cp ?co ?ev [?snd ?n]]; cbn [pools contributors] in Hp, Hc;
  match type of Hp with
  | ?m !! ?h = Some ?p => rewrite <- (insert_id m h p Hp); clear Hp
  end;
  match type of Hc with
  | ?m !! ?k = Some ?c => rewrite <- (insert_id m k c Hc); clear Hc
  end.

Lemma create_pool_spec rs pct w : create_pool_post rs pct w (create_pool rs pct w).
Proof.
  destruct w as [ps cs cp co ev [snd n]].
  unfold create_pool, create_pool_post. mrun; mfinish.
Qed.

Lemma stake_spec h coin w p :
  pools w !! h = Some p → stake_post h coin w p (stake h coin w).
Proof.
  intros Hp. focus_pool w Hp.
  destruct p as [pid rs ts op pct st acc rps [bal]], coin as [cid [v]].
  unfold stake, stake_post. mrun; mfinish.
Qed.

Lemma activate_pool_spec h cap w p :
  pools w !! h = Some p → activate_pool_post h w p (activate_pool h cap w).
Proof.
  intros Hp. focus_pool w Hp.
  destruct p as [pid rs ts op pct st acc rps [bal]].
  unfold activate_pool, activate_pool_post. mrun; mfinish.
Qed.

Lemma record_reward_spec h coin w p :
  pools w !! h = Some p → record_reward_post h coin w p (record_reward h coin w).
Proof.
  intros Hp. focus_pool w Hp.
  destruct p as [pid rs ts op pct st acc rps [bal]], coin as [cid [v]].
  unfold record_reward, record_reward_post. mrun; mfinish.
Qed.

Lemma claim_reward_spec h k w p c :
  pools w !! h = Some p → contributors w !! k = Some c →
  claim_reward_post h k w p c (claim_reward h k w).
Proof.
  intros Hp Hc. focus_both w Hp Hc.
  destruct p as [pid rs ts op pct st acc rps [bal]], c as [cid cpid own stk debt].
  unfold claim_reward, claim_reward_post. mrun; mfinish.
Qed.

Lemma claim_operator_reward_spec h cap w p :
  pools w !! h = Some p →
  claim_operator_reward_post h w p (claim_operator_reward h cap w).
Proof.
  intros Hp. focus_pool w Hp.
  destruct p as [pid rs ts op pct st acc rps [bal]].
  unfold claim_operator_reward, claim_operator_reward_post. mrun; mfinish.
Qed.

Lemma withdraw_stake_spec h k amount w p c :
  pools w !! h = Some p → contributors w !! k = Some c →
  withdraw_stake_post h k amount w p c (withdraw_stake h k amount w).
Proof.
  intros Hp Hc. focus_both w Hp Hc.
  destruct p as [pid rs ts op pct st acc rps [bal]], c as [cid cpid own stk debt].
  unfold withdraw_stake, withdraw_stake_post. mrun; mfinish.
Qed.

Lemma calculate_pending_reward_spec h k w p c :
  pools w !! h = Some p → contributors w !! k = Some c →
  calculate_pending_reward_post w p c (calculate_pending_reward h k w).
Proof.
  intros Hp Hc. focus_both w Hp Hc.
  destruct p as [pid rs ts op pct st acc rps [bal]], c as [cid cpid own stk debt].
  unfold calculate_pending_reward, calculate_pending_reward_post. mrun; mfinish.
Qed.

(** * Sums over the records *)

Section sums.
Context (f : Contributor → Z) (h : ID).

Lemma sum_of_empty : sum_of f h ∅ = 0.
Proof. unfold sum_of. by rewrite map_fold_empty. Qed.

Lemma sum_of_insert_fresh k c (cs : gmap ID Contributor) :
  cs !! k = None → sum_of f h (<[k := c]> cs) = weight f h c + sum_of f h cs.
Proof.
  intros Hk. unfold sum_of. rewrite map_fold_insert_L; [done| |done].
  intros. lia.
Qed.

Lemma sum_of_delete k c (cs : gmap ID Contributor) :
  cs !! k = Some c → sum_of f h (delete k cs) = sum_of f h cs - weight f h c.
Proof.
  intros Hk. unfold sum_of.
  rewrite (map_fold_delete_L _ 0 k c cs); [lia| |done].
  intros. lia.
Qed.

Lemma sum_of_insert k c c' (cs : gmap ID Contributor) :
  cs !! k = Some c →
  sum_of f h (<[k := c']> cs) = sum_of f h cs - weight f h c + weight f h c'.
Proof.
  intros Hk. rewrite <- (insert_delete_eq cs k c').
  rewrite sum_of_insert_fresh by apply lookup_delete_eq.
  rewrite (sum_of_delete k c) by done. lia.
Qed.

Lemma sum_of_foreign (cs : gmap ID Contributor) :
  (∀ k c, cs !! k = Some c → pool_id c ≠ h) → sum_of f h cs = 0.
Proof.
  induction cs as [|k c cs Hk IH] using map_ind; intros Hall.
  - apply sum_of_empty.
  - rewrite sum_of_insert_fresh by done. rewrite IH.
    + unfold weight. specialize (Hall k c (lookup_insert_eq _ _ _)).
      destruct (pool_id c =? h) eqn:E; [|lia]. apply Z.eqb_eq in E. done.
    + intros k' c' Hk'. apply (Hall k'). rewrite lookup_insert_ne; [done|].
      intros ->. congruence.
Qed.

End sums.

Lemma sum_of_le f g h (cs : gmap ID Contributor) :
  (∀ k c, cs !! k = Some c → pool_id c = h → f c ≤ g c) →
  sum_of f h cs ≤ sum_of g h cs.
Proof.
  induction cs as [|k c cs Hk IH] using map_ind; intros Hall.
  - by rewrite !sum_of_empty.
  - rewrite !sum_of_insert_fresh by done.
    assert (sum_of f h cs ≤ sum_of g h cs) as Hrest.
    { apply IH. intros k' c' Hk'. apply (Hall k'). rewrite lookup_insert_ne; [done|].
      intros ->. congruence. }
    specialize (Hall k c (lookup_insert_eq _ _ _)). unfold weight.
    destruct (pool_id c =? h) eqn:E; [|lia]. apply Z.eqb_eq in E.
    specialize (Hall E). lia.
Qed.

Lemma sum_of_scale a f h (cs : gmap ID Contributor) :
  sum_of (λ c, a * f c) h cs = a * sum_of f h cs.
Proof.
  induction cs as [|k c cs Hk IH] using map_ind.
  - rewrite !sum_of_empty. lia.
  - rewrite !sum_of_insert_fresh by done. rewrite IH. unfold weight.
    destruct (pool_id c =? h); lia.
Qed.

Lemma weight_own f h c : pool_id c = h → weight f h c = f c.
Proof. intros <-. unfold weight. by rewrite Z.eqb_refl. Qed.

Lemma weight_foreign f h c : pool_id c ≠ h → weight f h c = 0.
Proof. intros Hne. unfold weight. apply Z.eqb_neq in Hne. by rewrite Hne. Qed.

(** The settled debt of a pool's records is at most the reward the pool has
    taken in. *)
Lemma debt_le_reward (w : World) h p R :
  world_inv w → pools w !! h = Some p →
  ledger p (debt_in h (contributors w)) R →
  debt_in h (contributors w) ≤ R.
Proof.
  intros [Hps Hcs] Hp (Hacc & Hrps & Hscaled & _).
  destruct (Hps h p Hp) as (_ & _ & _ & _ & _ & Htotal & _).
  assert (1000000 * debt_in h (contributors w)
          ≤ reward_per_stake p * staked_in h (contributors w)) as Hsum.
  { unfold debt_in, staked_in. rewrite <- !sum_of_scale. apply sum_of_le.
    intros k c Hk Hown. destruct (Hcs k c Hk) as (_ & _ & _ & _ & Hsettled).
    rewrite Hown in Hsettled. specialize (Hsettled p Hp). lia. }
  rewrite <- Htotal in Hsum. lia.
Qed.

(** * The invariant is preserved *)

Lemma bind_Ok_inv {A B} (m : M A) (k : A → M B) w b w' :
  bind m k w = Ok b w' → ∃ a w1, m w = Ok a w1 ∧ k a w1 = Ok b w'.
Proof. unfold bind. destruct (m w); [eauto|done]. Qed.

Lemma read_pool_Ok_inv {A} h (f : ValidatorPool → A) w a w' :
  read_pool h f w = Ok a w' → ∃ p, pools w !! h = Some p ∧ a = f p ∧ w' = w.
Proof. unfold read_pool. destruct (pools w !! h); [|done]. intros [= <- <-]. eauto. Qed.

Lemma read_contributor_Ok_inv {A} k (f : Contributor → A) w a w' :
  read_contributor k f w = Ok a w' →
  ∃ c, contributors w !! k = Some c ∧ a = f c ∧ w' = w.
Proof.
  unfold read_contributor. destruct (contributors w !! k); [|done].
  intros [= <- <-]. eauto.
Qed.

Lemma world_inv_genesis : world_inv genesis.
Proof. split; intros ? ? Hl; cbn in Hl; by rewrite lookup_empty in Hl. Qed.

Lemma world_inv_begin_tx s w : world_inv w → world_inv (begin_tx s w).
Proof. intros H. exact H. Qed.

Lemma contributor_inv_pool_update ps h p p' c :
  ps !! h = Some p → reward_per_stake p ≤ reward_per_stake p' →
  contributor_inv ps c → contributor_inv (<[h := p']> ps) c.
Proof.
  intros Hp Hle (Hs & Hd & Hsettled). repeat split; [done..|].
  intros q Hq. destruct (decide (pool_id c = h)) as [Heq|Hne].
  - rewrite Heq in *. rewrite lookup_insert_eq in Hq. injection Hq as <-.
    specialize (Hsettled p Hp). nia.
  - rewrite lookup_insert_ne in Hq by done. auto.
Qed.

(** One pool [h] goes from [p] to [p'] and the records from those of [w] to
    [cs']: what is left to show is the pool's own invariant, that the sums of
    the other pools are what they were, and the invariant of the records that
    are not those of [w]. *)
Lemma world_inv_update w h p p' cs' cp' co' ev' s' n' :
  world_inv w → pools w !! h = Some p →
  ids_created (ctx w) ≤ n' →
  reward_per_stake p ≤ reward_per_stake p' →
  pool_inv cs' h p' →
  (∀ h', h' ≠ h →
     staked_in h' cs' = staked_in h' (contributors w) ∧
     debt_in h' cs' = debt_in h' (contributors w)) →
  (∀ k c, cs' !! k = Some c →
     contributors w !! k = Some c ∨
     (k < n' ∧ pool_id c < n' ∧ contributor_inv (<[h := p']> (pools w)) c)) →
  world_inv (mkWorld (<[h := p']> (pools w)) cs' cp' co' ev' (mkTxContext s' n')).
Proof.
  intros [Hps Hcs] Hp Hn Hrps Hown Hsums Hrecs. split; cbn [pools contributors ctx ids_created].
  - intros h' q Hq. destruct (decide (h' = h)) as [->|Hne].
    + rewrite lookup_insert_eq in Hq. injection Hq as <-.
      split; [|done]. destruct (Hps h p Hp). lia.
    + rewrite lookup_insert_ne in Hq by done.
      destruct (Hps h' q Hq) as [Hlt Hinv]. split; [lia|].
      destruct (Hsums h' Hne) as [Hs Hd]. unfold pool_inv in *.
      rewrite Hs, Hd. exact Hinv.
  - intros k c Hk. destruct (Hrecs k c Hk) as [Hold|Hnew]; [|done].
    destruct (Hcs k c Hold) as (? & ? & ?).
    split; [lia|]. split; [lia|]. by eapply contributor_inv_pool_update.
Qed.

Lemma sum_of_insert_foreign f h k c c' (cs : gmap ID Contributor) :
  cs !! k = Some c → pool_id c ≠ h → pool_id c' ≠ h →
  sum_of f h (<[k := c']> cs) = sum_of f h cs.
Proof.
  intros Hk Hc Hc'. rewrite (sum_of_insert f h k c c' cs Hk).
  rewrite !weight_foreign by done. lia.
Qed.

Lemma sum_of_insert_fresh_foreign f h k c (cs : gmap ID Contributor) :
  cs !! k = None → pool_id c ≠ h → sum_of f h (<[k := c]> cs) = sum_of f h cs.
Proof.
  intros Hk Hc. rewrite sum_of_insert_fresh by done.
  rewrite weight_foreign by done. lia.
Qed.

Lemma fresh_contributor w : world_inv w → contributors w !! ids_created (ctx w) = None.
Proof.
  intros [_ Hcs]. destruct (contributors w !! ids_created (ctx w)) as [c|] eqn:E; [|done].
  destruct (Hcs _ _ E). lia.
Qed.

Lemma fresh_pool w : world_inv w → pools w !! ids_created (ctx w) = None.
Proof.
  intros [Hps _]. destruct (pools w !! ids_created (ctx w)) as [c|] eqn:E; [|done].
  destruct (Hps _ _ E). lia.
Qed.

(** [create_pool], then the two transfers. *)
Lemma world_inv_create w rs pct cp' co' ev' :
  world_inv w → 0 < rs → 0 ≤ pct ≤ 100 →
  let n := ids_created (ctx w) in
  world_inv
    (mkWorld (<[n := mkValidatorPool n rs 0 (sender (ctx w)) pct COLLECTING 0 0 (mkBalance 0)]>
                (pools w))
       (contributors w) cp' co' ev' (mkTxContext (sender (ctx w)) (n + 1 + 1))).
Proof.
  intros Hw Hrs Hpct n. pose proof Hw as [Hps Hcs].
  split; cbn [pools contributors ctx ids_created].
  - intros h q Hq. destruct (decide (h = n)) as [->|Hne].
    + rewrite lookup_insert_eq in Hq. injection Hq as <-. split; [lia|].
      assert (∀ f, sum_of f n (contributors w) = 0) as Hzero.
      { intros f. apply sum_of_foreign. intros k c Hk. destruct (Hcs k c Hk). unfold n. lia. }
      unfold pool_inv, ledger, staked_in, debt_in. rewrite !Hzero.
      cbn. unfold COLLECTING, ACTIVE. repeat split; try lia; try (left; lia).
      exists 0. lia.
    + rewrite lookup_insert_ne in Hq by done. destruct (Hps h q Hq). split; [lia|done].
  - intros k c Hk. destruct (Hcs k c Hk) as (? & ? & Hc). split; [lia|]. split; [lia|].
    destruct Hc as (? & ? & Hsettled). repeat split; [done..|].
    intros q Hq. rewrite lookup_insert_ne in Hq by (unfold n; lia). auto.
Qed.

(** [stake], then the transfer of the new record. *)
Lemma world_inv_stake w h p coin cp' co' ev' s' :
  world_inv w → pools w !! h = Some p →
  (status p = COLLECTING ∨ status p = READY) → 0 < coin_value coin →
  let v := coin_value coin in
  let n := ids_created (ctx w) in
  let c := mkContributor n (id p) (sender (ctx w)) v (reward_per_stake p * v / 1000000) in
  world_inv
    (mkWorld
       (<[h := set_status (stake_status p v)
                 (set_total_stake (total_stake p + v)
                    (set_balance (mkBalance (value (balance p) + v)) p))]> (pools w))
       (<[contributor_id c := c]> (contributors w)) cp' co' ev'
       (mkTxContext s' (n + 1))).
Proof.
  intros Hw Hp Hst Hv v n c. pose proof Hw as [Hps Hcs].
  destruct (Hps h p Hp) as (Hlt & Hid & Hstat & Hreq & Hpct & Htot & Hready & Hidle & R & HR).
  destruct Hidle as (Hrps & Hacc & Hbal); [unfold COLLECTING, READY, ACTIVE in *; lia|].
  assert (reward_debt c = 0) as Hdebt.
  { cbn. rewrite Hrps. done. }
  assert (pool_id c = h) as Hown by done.
  pose proof (fresh_contributor w Hw) as Hfresh. fold n in Hfresh.
  apply world_inv_update with (p := p); cbn [contributor_id c]; try done; try lia.
  - unfold pool_inv, ledger, staked_in, debt_in.
    rewrite !sum_of_insert_fresh by done. rewrite !weight_own by done.
    rewrite Hdebt. fold (staked_in h (contributors w)) (debt_in h (contributors w)).
    unfold ledger in HR. unfold stake_status.
    cbn [id status required_stake operator_reward_pct total_stake reward_per_stake
         accumulated_reward balance value set_status set_total_stake set_balance
         staked_amount c].
    destruct ((total_stake p + v >=? required_stake p) && (status p =? COLLECTING)) eqn:E;
      zbool; unfold COLLECTING, READY, ACTIVE in *.
    + repeat split; try lia. exists R. lia.
    + repeat split; try lia. exists R. lia.
  - intros h' Hne. unfold staked_in, debt_in.
    rewrite !sum_of_insert_fresh_foreign; try done; rewrite Hown; done.
  - intros k r Hk. destruct (decide (k = n)) as [->|Hne].
    + rewrite lookup_insert_eq in Hk. injection Hk as <-. right.
      split; [lia|]. split; [cbn; lia|].
      repeat split; [cbn; lia|lia|]. intros q Hq. rewrite Hown, lookup_insert_eq in Hq.
      injection Hq as <-. rewrite Hdebt. cbn. rewrite Hrps. lia.
    + rewrite lookup_insert_ne in Hk by done. by left.
Qed.

Ltac unfold_status := unfold COLLECTING, READY, ACTIVE in *.

Ltac pool_fields :=
  cbn [id status required_stake operator_reward_pct total_stake reward_per_stake
       accumulated_reward balance value operator
       set_status set_total_stake set_balance set_accumulated_reward
       set_reward_per_stake
       contributor_id pool_id owner staked_amount reward_debt
       set_staked_amount set_reward_debt] in *.

Lemma world_inv_activate w h p cp' co' ev' s' :
  world_inv w → pools w !! h = Some p → status p = READY →
  world_inv (mkWorld (<[h := set_status ACTIVE p]> (pools w)) (contributors w) cp' co' ev'
               (mkTxContext s' (ids_created (ctx w)))).
Proof.
  intros Hw Hp Hst. pose proof Hw as [Hps Hcs].
  destruct (Hps h p Hp) as (Hlt & Hid & Hstat & Hreq & Hpct & Htot & Hready & Hidle & R & HR).
  apply world_inv_update with (p := p); try done; try lia.
  - unfold pool_inv, ledger in *. pool_fields. unfold_status.
    repeat split; try lia. exists R. lia.
  - intros k c Hk. by left.
Qed.

Lemma record_rps_ge p v :
  0 < v → reward_per_stake p ≤ record_rps p v.
Proof.
  intros Hv. unfold record_rps. destruct (total_stake p >? 0) eqn:E; [|lia].
  zbool. assert (0 ≤ v * 1000000 / total_stake p) by (apply Z.div_pos; lia). lia.
Qed.

Lemma record_rps_scaled p v R :
  0 < v → reward_per_stake p * total_stake p ≤ 1000000 * R →
  record_rps p v * total_stake p ≤ 1000000 * (R + v).
Proof.
  intros Hv HR. unfold record_rps. destruct (total_stake p >? 0) eqn:E; zbool; [|lia].
  pose proof (Z.mul_div_le (v * 1000000) (total_stake p) ltac:(lia)). lia.
Qed.

Lemma world_inv_record_reward w h p v cp' co' ev' s' :
  world_inv w → pools w !! h = Some p → status p = ACTIVE → 0 < v →
  world_inv
    (mkWorld
       (<[h := set_reward_per_stake (record_rps p v)
                 (set_accumulated_reward (accumulated_reward p + v)
                    (set_balance (mkBalance (value (balance p) + v)) p))]> (pools w))
       (contributors w) cp' co' ev' (mkTxContext s' (ids_created (ctx w)))).
Proof.
  intros Hw Hp Hst Hv. pose proof Hw as [Hps Hcs].
  destruct (Hps h p Hp) as (Hlt & Hid & Hstat & Hreq & Hpct & Htot & Hready & Hidle & R & HR).
  pose proof (record_rps_ge p v Hv) as Hge.
  apply world_inv_update with (p := p); try done; try lia.
  - unfold pool_inv, ledger in *. pool_fields. unfold_status.
    repeat split; try lia. exists (R + v).
    pose proof (record_rps_scaled p v R Hv ltac:(lia)). lia.
  - intros k c Hk. by left.
Qed.

Lemma settled_bounds p c :
  0 ≤ staked_amount c → 0 ≤ reward_per_stake p →
  0 ≤ settled p c ∧ 1000000 * settled p c ≤ staked_amount c * reward_per_stake p.
Proof.
  intros Hs Hr. unfold settled. split.
  - apply Z.div_pos; [nia|lia].
  - apply Z.mul_div_le. lia.
Qed.

Lemma user_share_bounds p c :
  0 < pending p c → operator_reward_pct p ≤ 100 →
  0 ≤ user_share p c ∧
  100 * user_share p c ≤ (100 - operator_reward_pct p) * pending p c.
Proof.
  intros Hpen Hpct. unfold user_share. split.
  - apply Z.div_pos; [nia|lia].
  - pose proof (Z.mul_div_le (pending p c * (100 - operator_reward_pct p)) 100 ltac:(lia)).
    lia.
Qed.

Lemma world_inv_claim_reward w h k p c cp' co' ev' s' n' :
  world_inv w → pools w !! h = Some p → contributors w !! k = Some c →
  pool_id c = h → status p = ACTIVE → 0 < pending p c →
  user_share p c ≤ value (balance p) → ids_created (ctx w) ≤ n' →
  world_inv
    (mkWorld
       (<[h := set_balance (mkBalance (value (balance p) - user_share p c)) p]> (pools w))
       (<[k := set_reward_debt (settled p c) c]> (contributors w))
       cp' co' ev' (mkTxContext s' n')).
Proof.
  intros Hw Hp Hc Hown Hst Hpen Hbal Hn. pose proof Hw as [Hps Hcs].
  destruct (Hps h p Hp) as (Hlt & Hid & Hstat & Hreq & Hpct & Htot & Hready & Hidle & R & HR).
  destruct (Hcs k c Hc) as (Hk & Hcp & Hstk & Hdebt & Hsettled).
  destruct HR as (Hacc & Hrps & Hscaled & Hcover & Hpaid).
  destruct (settled_bounds p c Hstk Hrps) as [Hs0 Hs1].
  destruct (user_share_bounds p c Hpen ltac:(lia)) as [Hu0 Hu1].
  apply world_inv_update with (p := p); try done; try lia.
  - unfold pool_inv, ledger, staked_in, debt_in.
    rewrite !(sum_of_insert _ h k c) by done. rewrite !weight_own by done.
    fold (staked_in h (contributors w)) (debt_in h (contributors w)).
    pool_fields. unfold_status. repeat split; try lia.
    exists R. unfold pending in *. repeat split; lia.
  - intros h' Hne. unfold staked_in, debt_in.
    rewrite !(sum_of_insert_foreign _ h' k c); try done; pool_fields; congruence.
  - intros k' r Hk'. destruct (decide (k' = k)) as [->|Hne].
    + rewrite lookup_insert_eq in Hk'. injection Hk' as <-. right.
      split; [lia|]. split; [pool_fields; lia|].
      repeat split; pool_fields; try lia.
      intros q Hq. rewrite Hown, lookup_insert_eq in Hq. injection Hq as <-.
      pool_fields. lia.
    + rewrite lookup_insert_ne in Hk' by done. by left.
Qed.

Lemma operator_share_bounds p :
  0 ≤ accumulated_reward p → 0 ≤ operator_reward_pct p →
  0 ≤ operator_share p ∧
  100 * operator_share p ≤ operator_reward_pct p * accumulated_reward p.
Proof.
  intros Ha Hp. unfold operator_share. split.
  - apply Z.div_pos; [nia|lia].
  - pose proof (Z.mul_div_le (accumulated_reward p * operator_reward_pct p) 100 ltac:(lia)).
    lia.
Qed.

Lemma world_inv_claim_operator_reward w h p cp' co' ev' s' n' :
  world_inv w → pools w !! h = Some p → status p = ACTIVE →
  operator_share p ≤ value (balance p) → ids_created (ctx w) ≤ n' →
  world_inv
    (mkWorld
       (<[h := set_balance (mkBalance (value (balance p) - operator_share p))
                 (set_accumulated_reward 0 p)]> (pools w))
       (contributors w) cp' co' ev' (mkTxContext s' n')).
Proof.
  intros Hw Hp Hst Hbal Hn. pose proof Hw as [Hps Hcs].
  destruct (Hps h p Hp) as (Hlt & Hid & Hstat & Hreq & Hpct & Htot & Hready & Hidle & R & HR).
  destruct HR as (Hacc & Hrps & Hscaled & Hcover & Hpaid).
  destruct (operator_share_bounds p ltac:(lia) ltac:(lia)) as [Ho0 Ho1].
  apply world_inv_update with (p := p); try done; try lia.
  - unfold pool_inv, ledger. pool_fields. unfold_status. repeat split; try lia.
    exists R. repeat split; try lia.
  - intros k c Hk. by left.
Qed.

Lemma world_inv_withdraw w h k p c amount cp' co' ev' s' n' :
  world_inv w → pools w !! h = Some p → contributors w !! k = Some c →
  pool_id c = h → (status p = COLLECTING ∨ status p = READY) →
  0 < amount → amount ≤ staked_amount c → ids_created (ctx w) ≤ n' →
  world_inv
    (mkWorld
       (<[h := set_balance (mkBalance (value (balance p) - amount))
                 (set_status (withdraw_status p amount)
                    (set_total_stake (total_stake p - amount) p))]> (pools w))
       (<[k := set_staked_amount (staked_amount c - amount) c]> (contributors w))
       cp' co' ev' (mkTxContext s' n')).
Proof.
  intros Hw Hp Hc Hown Hst Hamt Hle Hn. pose proof Hw as [Hps Hcs].
  destruct (Hps h p Hp) as (Hlt & Hid & Hstat & Hreq & Hpct & Htot & Hready & Hidle & R & HR).
  destruct (Hcs k c Hc) as (Hk & Hcp & Hstk & Hdebt & Hsettled).
  destruct Hidle as (Hrps & Hacc & Hbal); [unfold_status; lia|].
  rewrite Hown in Hsettled. specialize (Hsettled p Hp). rewrite Hrps in Hsettled.
  apply world_inv_update with (p := p); try done; try lia.
  - unfold pool_inv, ledger, staked_in, debt_in in *.
    rewrite !(sum_of_insert _ h k c) by done. rewrite !weight_own by done.
    unfold withdraw_status. pool_fields.
    destruct ((total_stake p - amount <? required_stake p) && (status p =? READY)) eqn:E;
      zbool; unfold_status.
    + repeat split; try lia. exists R. lia.
    + repeat split; try lia. exists R. lia.
  - intros h' Hne. unfold staked_in, debt_in.
    rewrite !(sum_of_insert_foreign _ h' k c); try done; pool_fields; congruence.
  - intros k' r Hk'. destruct (decide (k' = k)) as [->|Hne].
    + rewrite lookup_insert_eq in Hk'. injection Hk' as <-. right.
      split; [lia|]. split; [pool_fields; lia|].
      repeat split; pool_fields; try lia.
      intros q Hq. rewrite Hown, lookup_insert_eq in Hq. injection Hq as <-.
      pool_fields. lia.
    + rewrite lookup_insert_ne in Hk' by done. by left.
Qed.

Lemma world_inv_bump w cp' co' ev' s' n' :
  world_inv w → ids_created (ctx w) ≤ n' →
  world_inv (mkWorld (pools w) (contributors w) cp' co' ev' (mkTxContext s' n')).
Proof.
  intros [Hps Hcs] Hn. split; cbn [pools contributors ctx ids_created].
  - intros h p Hp. destruct (Hps h p Hp). split; [lia|done].
  - intros k c Hk. destruct (Hcs k c Hk) as (? & ? & ?). split; [lia|]. split; [lia|done].
Qed.

Lemma world_inv_destroy w k c cp' co' ev' s' n' :
  world_inv w → contributors w !! k = Some c → staked_amount c = 0 →
  ids_created (ctx w) ≤ n' →
  world_inv (mkWorld (pools w) (delete k (contributors w)) cp' co' ev' (mkTxContext s' n')).
Proof.
  intros [Hps Hcs] Hc Hzero Hn. split; cbn [pools contributors ctx ids_created].
  - intros h p Hp. destruct (Hps h p Hp) as [Hlt Hinv]. split; [lia|].
    assert (weight staked_amount h c = 0 ∧ weight reward_debt h c = 0) as [Hw1 Hw2].
    { unfold weight. destruct (pool_id c =? h) eqn:E; [|done]. zbool.
      destruct (Hcs k c Hc) as (_ & _ & _ & Hdebt & Hsettled).
      rewrite E in Hsettled. specialize (Hsettled p Hp). lia. }
    unfold pool_inv, staked_in, debt_in in *.
    rewrite !(sum_of_delete _ h k c) by done. rewrite Hw1, Hw2, !Z.sub_0_r. exact Hinv.
  - intros k' r Hk'. apply lookup_delete_Some in Hk' as [_ Hk'].
    destruct (Hcs k' r Hk') as (? & ? & ?). split; [lia|]. split; [lia|done].
Qed.

(** * Transactions that return *)

Lemma run_create_inv s rs pct w w' :
  run_tx (mkTx s (CreateCustomValidatorPool rs pct)) w = Ok tt w' →
  ∃ created w1,
    create_pool rs pct (begin_tx s w) = Ok created w1 ∧
    w' = with_caps <[cap_id created.2 := created.2]>
           (with_pools <[id created.1 := created.1]> w1).
Proof.
  unfold run_tx; cbn [tx_call tx_sender resolve dispatch]. intros E.
  apply bind_Ok_inv in E as (? & w1 & [= <- <-] & E).
  unfold create_custom_validator_pool in E.
  apply bind_Ok_inv in E as (created & w2 & Hcr & E).
  cbv [bind tx_context_sender transfer_pool transfer_cap] in E. injection E as <-.
  by exists created, w2.
Qed.

Lemma run_create_default_inv s w w' :
  run_tx (mkTx s CreateValidatorPool) w = Ok tt w' →
  ∃ created w1,
    create_pool 1000000000 10 (begin_tx s w) = Ok created w1 ∧
    w' = with_caps <[cap_id created.2 := created.2]>
           (with_pools <[id created.1 := created.1]> w1).
Proof.
  unfold run_tx; cbn [tx_call tx_sender resolve dispatch]. intros E.
  apply bind_Ok_inv in E as (? & w1 & [= <- <-] & E).
  unfold create_validator_pool in E.
  apply bind_Ok_inv in E as (created & w2 & Hcr & E).
  cbv [bind tx_context_sender transfer_pool transfer_cap] in E. injection E as <-.
  by exists created, w2.
Qed.

Lemma run_stake_inv s h coin w w' :
  run_tx (mkTx s (StakeToPool h coin)) w = Ok tt w' →
  ∃ p c w1,
    pools w !! h = Some p ∧ stake h coin (begin_tx s w) = Ok c w1 ∧
    w' = with_contributors <[contributor_id c := c]> w1.
Proof.
  unfold run_tx; cbn [tx_call tx_sender resolve dispatch]. intros E.
  apply bind_Ok_inv in E as (? & w1 & Hres & E).
  apply read_pool_Ok_inv in Hres as (p & Hp & _ & ->).
  unfold stake_to_pool in E. apply bind_Ok_inv in E as (c & w2 & Hst & E).
  cbv [bind tx_context_sender transfer_contributor] in E. injection E as <-.
  by exists p, c, w2.
Qed.

Lemma run_activate_inv s h cap w w' :
  run_tx (mkTx s (ActivateValidatorPool h cap)) w = Ok tt w' →
  ∃ p, pools w !! h = Some p ∧ activate_pool h cap (begin_tx s w) = Ok tt w'.
Proof.
  unfold run_tx; cbn [tx_call tx_sender resolve dispatch]. intros E.
  apply bind_Ok_inv in E as (? & w1 & Hres & E).
  apply bind_Ok_inv in Hres as (? & w2 & Hres & Hcap).
  apply read_pool_Ok_inv in Hres as (p & Hp & _ & ->).
  unfold read_cap in Hcap. destruct (caps _ !! cap); [|done]. injection Hcap as _ <-.
  eauto.
Qed.

Lemma run_record_inv s h coin w w' :
  run_tx (mkTx s (RecordValidatorReward h coin)) w = Ok tt w' →
  ∃ p, pools w !! h = Some p ∧ record_reward h coin (begin_tx s w) = Ok tt w'.
Proof.
  unfold run_tx; cbn [tx_call tx_sender resolve dispatch]. intros E.
  apply bind_Ok_inv in E as (? & w1 & Hres & E).
  apply read_pool_Ok_inv in Hres as (p & Hp & _ & ->). eauto.
Qed.

Lemma run_claim_inv s h k w w' :
  run_tx (mkTx s (ClaimUserReward h k)) w = Ok tt w' →
  ∃ p c coin w1,
    pools w !! h = Some p ∧ contributors w !! k = Some c ∧
    claim_reward h k (begin_tx s w) = Ok coin w1 ∧
    w' = with_coins (λ l, l ++ [(s, coin)]) w1.
Proof.
  unfold run_tx; cbn [tx_call tx_sender resolve dispatch]. intros E.
  apply bind_Ok_inv in E as (? & w1 & Hres & E).
  apply bind_Ok_inv in Hres as (? & w2 & Hres & Hrec).
  apply read_pool_Ok_inv in Hres as (p & Hp & _ & ->).
  apply read_contributor_Ok_inv in Hrec as (c & Hc & _ & ->).
  unfold claim_user_reward in E. apply bind_Ok_inv in E as (coin & w2 & Hcl & E).
  cbv [bind tx_context_sender transfer_coin] in E. injection E as <-.
  exists p, c, coin, w2. repeat split; try done.
  assert (sender (ctx w2) = s) as ->; [|done].
  pose proof (claim_reward_spec h k _ p c Hp Hc) as Hspec. rewrite Hcl in Hspec.
  destruct Hspec as (_ & _ & _ & _ & [(_ & _ & _ & _ & _ & ->)|(_ & _ & ->)]); done.
Qed.

Lemma run_claim_operator_inv s h cap w w' :
  run_tx (mkTx s (ClaimOperatorRewards h cap)) w = Ok tt w' →
  ∃ p coin w1,
    pools w !! h = Some p ∧
    claim_operator_reward h cap (begin_tx s w) = Ok coin w1 ∧
    w' = with_coins (λ l, l ++ [(s, coin)]) w1.
Proof.
  unfold run_tx; cbn [tx_call tx_sender resolve dispatch]. intros E.
  apply bind_Ok_inv in E as (? & w1 & Hres & E).
  apply bind_Ok_inv in Hres as (? & w2 & Hres & Hcap).
  apply read_pool_Ok_inv in Hres as (p & Hp & _ & ->).
  unfold read_cap in Hcap. destruct (caps _ !! cap); [|done]. injection Hcap as _ <-.
  unfold claim_operator_rewards in E. apply bind_Ok_inv in E as (coin & w2 & Hcl & E).
  cbv [bind tx_context_sender transfer_coin] in E. injection E as <-.
  exists p, coin, w2. repeat split; try done.
  assert (sender (ctx w2) = s) as ->; [|done].
  pose proof (claim_operator_reward_spec h cap _ p Hp) as Hspec. rewrite Hcl in Hspec.
  destruct Hspec as (_ & _ & _ & [(_ & _ & _ & ->)|(_ & _ & ->)]); done.
Qed.

Lemma run_withdraw_inv s h k amount w w' :
  run_tx (mkTx s (WithdrawUserStake h k amount)) w = Ok tt w' →
  ∃ p c coin w1,
    pools w !! h = Some p ∧ contributors w !! k = Some c ∧
    withdraw_stake h k amount (begin_tx s w) = Ok coin w1 ∧
    w' = with_coins (λ l, l ++ [(s, coin)]) w1.
Proof.
  unfold run_tx; cbn [tx_call tx_sender resolve dispatch]. intros E.
  apply bind_Ok_inv in E as (? & w1 & Hres & E).
  apply bind_Ok_inv in Hres as (? & w2 & Hres & Hrec).
  apply read_pool_Ok_inv in Hres as (p & Hp & _ & ->).
  apply read_contributor_Ok_inv in Hrec as (c & Hc & _ & ->).
  unfold withdraw_user_stake in E. apply bind_Ok_inv in E as (coin & w2 & Hcl & E).
  cbv [bind tx_context_sender transfer_coin] in E. injection E as <-.
  exists p, c, coin, w2. repeat split; try done.
  assert (sender (ctx w2) = s) as ->; [|done].
  pose proof (withdraw_stake_spec h k amount _ p c Hp Hc) as Hspec. rewrite Hcl in Hspec.
  destruct Hspec as (_ & _ & _ & _ & _ & _ & _ & ->); done.
Qed.

Lemma run_destroy_inv s k w w' :
  run_tx (mkTx s (DestroyEmptyContributor k)) w = Ok tt w' →
  ∃ c, contributors w !! k = Some c ∧ staked_amount c = 0 ∧
       w' = with_contributors (delete k) (begin_tx s w).
Proof.
  unfold run_tx; cbn [tx_call tx_sender resolve dispatch]. intros E.
  apply bind_Ok_inv in E as (? & w1 & Hres & E).
  apply read_contributor_Ok_inv in Hres as (c & Hc & _ & ->).
  unfold destroy_empty_contributor, bind, take_contributor in E.
  rewrite Hc in E.
  unfold assert in E. destruct (staked_amount c =? 0) eqn:Hz; [|done].
  cbv [ret object_delete] in E. injection E as <-. zbool. eauto.
Qed.

(** * Every transaction of a scoped history preserves the invariant *)

(** A call is scoped exactly when [is_contributor_for_pool] holds of the
    record and the pool it presents. *)
Lemma scoped_is_contributor_for_pool w h k p c amount :
  pools w !! h = Some p → contributors w !! k = Some c → id p = h →
  is_contributor_for_pool k h w = Ok (scoped (ClaimUserReward h k) w) w ∧
  scoped (WithdrawUserStake h k amount) w = scoped (ClaimUserReward h k) w.
Proof.
  intros Hp Hc Hid. unfold is_contributor_for_pool, bind, read_contributor, read_pool.
  cbn [scoped]. by rewrite Hc, Hp, Hid.
Qed.

Lemma execute_preserves t w :
  world_inv w → well_typed (tx_call t) = true → scoped (tx_call t) w = true →
  world_inv (execute t w).
Proof.
  intros Hw Hty Hsc. unfold execute. destruct (run_tx t w) as [[] w'|] eqn:E; [|done].
  destruct t as [s call]. cbn [tx_call] in Hty, Hsc.
  pose proof (world_inv_begin_tx s w Hw) as Hw0.
  destruct call as [|rs pct|h coin|h cap|h coin|h k|h cap|h k amount|k].
  - apply run_create_default_inv in E as (created & w1 & Hcr & ->).
    pose proof (create_pool_spec 1000000000 10 (begin_tx s w)) as Hspec.
    rewrite Hcr in Hspec. destruct Hspec as (Hpct & Hrs & Hpool & Hcap & ->).
    rewrite Hpool, Hcap. apply (world_inv_create (begin_tx s w)); [done|lia..].
  - apply run_create_inv in E as (created & w1 & Hcr & ->).
    pose proof (create_pool_spec rs pct (begin_tx s w)) as Hspec.
    rewrite Hcr in Hspec. destruct Hspec as (Hpct & Hrs & Hpool & Hcap & ->).
    rewrite Hpool, Hcap. cbn [well_typed] in Hty. unfold is_u64, is_u8 in Hty. zbool.
    apply (world_inv_create (begin_tx s w)); [done|lia..].
  - apply run_stake_inv in E as (p & c & w1 & Hp & Hst & ->).
    pose proof (stake_spec h coin (begin_tx s w) p Hp) as Hspec.
    rewrite Hst in Hspec. destruct Hspec as (Hstat & Hv & _ & _ & _ & -> & ->).
    by apply (world_inv_stake (begin_tx s w)).
  - apply run_activate_inv in E as (p & Hp & Hact).
    pose proof (activate_pool_spec h cap (begin_tx s w) p Hp) as Hspec.
    rewrite Hact in Hspec. destruct Hspec as (Hstat & _ & ->).
    by apply (world_inv_activate (begin_tx s w)).
  - apply run_record_inv in E as (p & Hp & Hrec).
    pose proof (record_reward_spec h coin (begin_tx s w) p Hp) as Hspec.
    rewrite Hrec in Hspec. destruct Hspec as (Hstat & Hv & _ & _ & _ & ->).
    by apply (world_inv_record_reward (begin_tx s w)).
  - apply run_claim_inv in E as (p & c & coin & w1 & Hp & Hc & Hcl & ->).
    cbn [scoped] in Hsc. rewrite Hc in Hsc. zbool.
    pose proof (claim_reward_spec h k (begin_tx s w) p c Hp Hc) as Hspec.
    rewrite Hcl in Hspec.
    destruct Hspec as (Hstat & _ & _ & _ & [(Hpen & _ & _ & Hbal & _ & ->)|(_ & _ & ->)]).
    + apply (world_inv_claim_reward (begin_tx s w)); try done; cbn; lia.
    + apply (world_inv_bump (begin_tx s w)); [done|cbn; lia].
  - apply run_claim_operator_inv in E as (p & coin & w1 & Hp & Hcl & ->).
    pose proof (claim_operator_reward_spec h cap (begin_tx s w) p Hp) as Hspec.
    rewrite Hcl in Hspec.
    destruct Hspec as (Hstat & _ & _ & [(_ & Hbal & _ & ->)|(_ & _ & ->)]).
    + apply (world_inv_claim_operator_reward (begin_tx s w)); try done; cbn; lia.
    + apply (world_inv_bump (begin_tx s w)); [done|cbn; lia].
  - apply run_withdraw_inv in E as (p & c & coin & w1 & Hp & Hc & Hwd & ->).
    cbn [scoped] in Hsc. rewrite Hc in Hsc. zbool.
    pose proof (withdraw_stake_spec h k amount (begin_tx s w) p c Hp Hc) as Hspec.
    rewrite Hwd in Hspec. destruct Hspec as (Hstat & _ & Hamt & Hle & _ & _ & _ & ->).
    apply (world_inv_withdraw (begin_tx s w)); try done; cbn; lia.
  - apply run_destroy_inv in E as (c & Hc & Hz & ->).
    apply (world_inv_destroy (begin_tx s w) k c); try done; cbn; lia.
Qed.

Lemma reachable_scoped_inv w : reachable_scoped w → world_inv w.
Proof.
  induction 1 as [|t w Hr IH Hty Hsc]; [apply world_inv_genesis|].
  by apply execute_preserves.
Qed.

Lemma reachable_scoped_reachable w : reachable_scoped w → reachable w.
Proof. induction 1; [constructor|by constructor]. Qed.

(** * When the functions return

    The converse reading of the outcome predicates: under the conditions of
    the return case, the function returns, with the result and the store of
    that case. *)

Lemma create_pool_returns rs pct w :
  0 < rs → pct ≤ 100 →
  let n := ids_created (ctx w) in
  create_pool rs pct w =
  Ok (mkValidatorPool n rs 0 (sender (ctx w)) pct COLLECTING 0 0 (mkBalance 0),
      mkOperatorCap (n + 1) n)
     (mkWorld (pools w) (contributors w) (caps w) (coins w)
        (events w ++ [PoolCreated n (sender (ctx w)) rs pct])
        (mkTxContext (sender (ctx w)) (n + 1 + 1))).
Proof.
  intros Hrs Hpct n. pose proof (create_pool_spec rs pct w) as Hspec.
  destruct (create_pool rs pct w) as [[pool cap] w'|[code| | |] w'];
    cbv beta iota zeta delta [create_pool_post fst snd] in Hspec; try done; try lia.
  destruct Hspec as (_ & _ & -> & -> & ->). done.
Qed.

Lemma stake_returns h coin w p :
  pools w !! h = Some p →
  (status p = COLLECTING ∨ status p = READY) → 0 < coin_value coin →
  value (balance p) + coin_value coin ≤ u64_max →
  total_stake p + coin_value coin ≤ u64_max →
  reward_per_stake p * coin_value coin ≤ u64_max →
  let v := coin_value coin in
  stake h coin w =
  Ok (mkContributor (ids_created (ctx w)) (id p) (sender (ctx w)) v
        (reward_per_stake p * v / 1000000))
     (mkWorld
        (<[h := set_status (stake_status p v)
                  (set_total_stake (total_stake p + v)
                     (set_balance (mkBalance (value (balance p) + v)) p))]> (pools w))
        (contributors w) (caps w) (coins w)
        (events w ++ [StakeDeposited (id p) (sender (ctx w)) v (total_stake p + v)
                        (stake_status p v)])
        (bump w)).
Proof.
  intros Hp Hst Hv Hb Ht Hr v. pose proof (stake_spec h coin w p Hp) as Hspec.
  destruct (stake h coin w) as [c w'|[code| | |] w'];
    cbv beta iota zeta delta [stake_post] in Hspec; try done.
  - destruct Hspec as (_ & _ & _ & _ & _ & -> & ->). done.
  - unfold_status. lia.
  - lia.
Qed.

Lemma activate_pool_returns h cap w p :
  pools w !! h = Some p → status p = READY → sender (ctx w) = operator p →
  activate_pool h cap w =
  Ok tt (mkWorld (<[h := set_status ACTIVE p]> (pools w)) (contributors w) (caps w)
           (coins w) (events w ++ [PoolActivated (id p) (operator p) (total_stake p)])
           (ctx w)).
Proof.
  intros Hp Hst Hop. pose proof (activate_pool_spec h cap w p Hp) as Hspec.
  destruct (activate_pool h cap w) as [[] w'|[code| | |] w'];
    cbv beta iota zeta delta [activate_pool_post] in Hspec; try done.
  - destruct Hspec as (_ & _ & ->). done.
  - lia.
Qed.

Lemma record_reward_returns h coin w p :
  pools w !! h = Some p → status p = ACTIVE → 0 < coin_value coin →
  value (balance p) + coin_value coin ≤ u64_max →
  accumulated_reward p + coin_value coin ≤ u64_max →
  (0 < total_stake p →
     coin_value coin * 1000000 ≤ u64_max ∧ record_rps p (coin_value coin) ≤ u64_max) →
  let v := coin_value coin in
  record_reward h coin w =
  Ok tt (mkWorld
           (<[h := set_reward_per_stake (record_rps p v)
                     (set_accumulated_reward (accumulated_reward p + v)
                        (set_balance (mkBalance (value (balance p) + v)) p))]> (pools w))
           (contributors w) (caps w) (coins w)
           (events w ++ [RewardRecorded (id p) v (accumulated_reward p + v)])
           (ctx w)).
Proof.
  intros Hp Hst Hv Hb Ha Hr v. pose proof (record_reward_spec h coin w p Hp) as Hspec.
  destruct (record_reward h coin w) as [[] w'|[code| | |] w'];
    cbv beta iota zeta delta [record_reward_post] in Hspec; try done.
  - destruct Hspec as (_ & _ & _ & _ & _ & ->). done.
  - lia.
  - lia.
Qed.

Lemma claim_reward_pays h k w p c :
  pools w !! h = Some p → contributors w !! k = Some c →
  status p = ACTIVE → owner c = sender (ctx w) →
  staked_amount c * reward_per_stake p ≤ u64_max →
  0 < pending p c → operator_reward_pct p ≤ 100 →
  pending p c * (100 - operator_reward_pct p) ≤ u64_max →
  user_share p c ≤ value (balance p) →
  claim_reward h k w =
  Ok (mkCoin (ids_created (ctx w)) (mkBalance (user_share p c)))
     (mkWorld
        (<[h := set_balance (mkBalance (value (balance p) - user_share p c)) p]> (pools w))
        (<[k := set_reward_debt (settled p c) c]> (contributors w))
        (caps w) (coins w)
        (events w ++ [RewardClaimed (id p) (owner c) (user_share p c) false])
        (bump w)).
Proof.
  intros Hp Hc Hst Hown Hmul Hpen Hpct Hgross Hbal.
  pose proof (claim_reward_spec h k w p c Hp Hc) as Hspec.
  destruct (claim_reward h k w) as [coin w'|[code| | |] w'];
    cbv beta iota zeta delta [claim_reward_post] in Hspec; try done.
  - destruct Hspec as (_ & _ & _ & _ & [(_ & _ & _ & _ & -> & ->)|(? & _)]); [done|lia].
  - lia.
  - unfold pending in *. lia.
  - lia.
Qed.

Lemma claim_reward_nothing h k w p c :
  pools w !! h = Some p → contributors w !! k = Some c →
  status p = ACTIVE → owner c = sender (ctx w) →
  staked_amount c * reward_per_stake p ≤ u64_max →
  pending p c = 0 →
  claim_reward h k w =
  Ok (mkCoin (ids_created (ctx w)) (mkBalance 0))
     (mkWorld (pools w) (contributors w) (caps w) (coins w) (events w) (bump w)).
Proof.
  intros Hp Hc Hst Hown Hmul Hpen.
  pose proof (claim_reward_spec h k w p c Hp Hc) as Hspec.
  destruct (claim_reward h k w) as [coin w'|[code| | |] w'];
    cbv beta iota zeta delta [claim_reward_post] in Hspec; try done.
  - destruct Hspec as (_ & _ & _ & _ & [(? & _)|(_ & -> & ->)]); [lia|done].
  - lia.
  - unfold pending in *. lia.
  - lia.
Qed.

Lemma claim_operator_reward_pays h cap w p :
  pools w !! h = Some p → status p = ACTIVE → sender (ctx w) = operator p →
  accumulated_reward p * operator_reward_pct p ≤ u64_max →
  0 < operator_share p → operator_share p ≤ value (balance p) →
  claim_operator_reward h cap w =
  Ok (mkCoin (ids_created (ctx w)) (mkBalance (operator_share p)))
     (mkWorld
        (<[h := set_balance (mkBalance (value (balance p) - operator_share p))
                  (set_accumulated_reward 0 p)]> (pools w))
        (contributors w) (caps w) (coins w)
        (events w ++ [RewardClaimed (id p) (operator p) (operator_share p) true])
        (bump w)).
Proof.
  intros Hp Hst Hop Hmul Hpos Hbal.
  pose proof (claim_operator_reward_spec h cap w p Hp) as Hspec.
  destruct (claim_operator_reward h cap w) as [coin w'|[code| | |] w'];
    cbv beta iota zeta delta [claim_operator_reward_post] in Hspec; try done; try lia.
  destruct Hspec as (_ & _ & _ & [(_ & _ & -> & ->)|(? & _)]); [done|lia].
Qed.

Lemma claim_operator_reward_nothing h cap w p :
  pools w !! h = Some p → status p = ACTIVE → sender (ctx w) = operator p →
  accumulated_reward p * operator_reward_pct p ≤ u64_max →
  operator_share p ≤ 0 →
  claim_operator_reward h cap w =
  Ok (mkCoin (ids_created (ctx w)) (mkBalance 0))
     (mkWorld (pools w) (contributors w) (caps w) (coins w) (events w) (bump w)).
Proof.
  intros Hp Hst Hop Hmul Hpos.
  pose proof (claim_operator_reward_spec h cap w p Hp) as Hspec.
  destruct (claim_operator_reward h cap w) as [coin w'|[code| | |] w'];
    cbv beta iota zeta delta [claim_operator_reward_post] in Hspec; try done; try lia.
  destruct Hspec as (_ & _ & _ & [(? & _)|(_ & -> & ->)]); [lia|done].
Qed.

(** * Transactions that return, forwards *)

Lemma execute_create s rs pct w created w1 :
  create_pool rs pct (begin_tx s w) = Ok created w1 →
  execute (mkTx s (CreateCustomValidatorPool rs pct)) w =
  with_caps <[cap_id created.2 := created.2]>
    (with_pools <[id created.1 := created.1]> w1).
Proof.
  intros Hcr. unfold execute, run_tx. cbn [tx_call tx_sender resolve dispatch].
  unfold create_custom_validator_pool, bind. cbn [ret]. rewrite Hcr. done.
Qed.

Lemma execute_stake s h coin w p c w1 :
  pools w !! h = Some p → stake h coin (begin_tx s w) = Ok c w1 →
  execute (mkTx s (StakeToPool h coin)) w =
  with_contributors <[contributor_id c := c]> w1.
Proof.
  intros Hp Hst. unfold execute, run_tx. cbn [tx_call tx_sender resolve dispatch].
  unfold stake_to_pool, bind, read_pool. cbn [pools begin_tx with_ctx]. rewrite Hp, Hst. done.
Qed.

Lemma execute_activate s h cap w p r w1 :
  pools w !! h = Some p → caps w !! cap = Some r →
  activate_pool h cap (begin_tx s w) = Ok tt w1 →
  execute (mkTx s (ActivateValidatorPool h cap)) w = w1.
Proof.
  intros Hp Hr Hact. unfold execute, run_tx. cbn [tx_call tx_sender resolve dispatch].
  unfold activate_validator_pool, bind, read_pool, read_cap.
  cbn [pools begin_tx with_ctx]. rewrite Hp.
  change (caps (begin_tx s w)) with (caps w). rewrite Hr, Hact. done.
Qed.

Lemma execute_record s h coin w p w1 :
  pools w !! h = Some p → record_reward h coin (begin_tx s w) = Ok tt w1 →
  execute (mkTx s (RecordValidatorReward h coin)) w = w1.
Proof.
  intros Hp Hrec. unfold execute, run_tx. cbn [tx_call tx_sender resolve dispatch].
  unfold record_validator_reward, bind, read_pool.
  cbn [pools begin_tx with_ctx]. rewrite Hp, Hrec. done.
Qed.

(** * What holds in every reachable store *)

Lemma basic_inv_genesis : basic_inv genesis.
Proof. intros h p Hl. cbn in Hl. by rewrite lookup_empty in Hl. Qed.

Lemma basic_inv_update w h p p' cs' cp' co' ev' s' n' :
  basic_inv w → pools w !! h = Some p → ids_created (ctx w) ≤ n' → pool_basic p' →
  basic_inv (mkWorld (<[h := p']> (pools w)) cs' cp' co' ev' (mkTxContext s' n')).
Proof.
  intros Hw Hp Hn Hp' h' q Hq. cbn [pools ctx ids_created] in *.
  destruct (decide (h' = h)) as [->|Hne].
  - rewrite lookup_insert_eq in Hq. injection Hq as <-.
    destruct (Hw h p Hp). split; [lia|done].
  - rewrite lookup_insert_ne in Hq by done. destruct (Hw h' q Hq). split; [lia|done].
Qed.

Lemma basic_inv_bump w cs' cp' co' ev' s' n' :
  basic_inv w → ids_created (ctx w) ≤ n' →
  basic_inv (mkWorld (pools w) cs' cp' co' ev' (mkTxContext s' n')).
Proof.
  intros Hw Hn h p Hp. cbn [pools ctx ids_created] in *.
  destruct (Hw h p Hp). split; [lia|done].
Qed.

Lemma basic_inv_create w rs pct cs' cp' co' ev' s' :
  basic_inv w → 0 < rs → 0 ≤ pct ≤ 100 →
  let n := ids_created (ctx w) in
  basic_inv
    (mkWorld (<[n := mkValidatorPool n rs 0 (sender (ctx w)) pct COLLECTING 0 0 (mkBalance 0)]>
                (pools w)) cs' cp' co' ev' (mkTxContext s' (n + 1 + 1))).
Proof.
  intros Hw Hrs Hpct n h q Hq. cbn [pools ctx ids_created] in *.
  destruct (decide (h = n)) as [->|Hne].
  - rewrite lookup_insert_eq in Hq. injection Hq as <-. split; [lia|].
    unfold pool_basic. cbn. unfold_status. repeat split; lia.
  - rewrite lookup_insert_ne in Hq by done. destruct (Hw h q Hq). split; [lia|done].
Qed.

Lemma execute_preserves_basic t w :
  basic_inv w → well_typed (tx_call t) = true → basic_inv (execute t w).
Proof.
  intros Hw Hty. unfold execute. destruct (run_tx t w) as [[] w'|] eqn:E; [|done].
  destruct t as [s call]. cbn [tx_call] in Hty.
  destruct call as [|rs pct|h coin|h cap|h coin|h k|h cap|h k amount|k].
  - apply run_create_default_inv in E as (created & w1 & Hcr & ->).
    pose proof (create_pool_spec 1000000000 10 (begin_tx s w)) as Hspec.
    rewrite Hcr in Hspec. destruct Hspec as (Hpct & Hrs & Hpool & Hcap & ->).
    rewrite Hpool, Hcap. apply (basic_inv_create (begin_tx s w)); [done|lia..].
  - apply run_create_inv in E as (created & w1 & Hcr & ->).
    pose proof (create_pool_spec rs pct (begin_tx s w)) as Hspec.
    rewrite Hcr in Hspec. destruct Hspec as (Hpct & Hrs & Hpool & Hcap & ->).
    rewrite Hpool, Hcap. cbn [well_typed] in Hty. unfold is_u64, is_u8 in Hty. zbool.
    apply (basic_inv_create (begin_tx s w)); [done|lia..].
  - apply run_stake_inv in E as (p & c & w1 & Hp & Hst & ->).
    pose proof (stake_spec h coin (begin_tx s w) p Hp) as Hspec.
    rewrite Hst in Hspec. destruct Hspec as (Hstat & Hv & _ & _ & _ & -> & ->).
    destruct (Hw h p Hp) as (_ & Hb). unfold pool_basic in Hb.
    apply (basic_inv_update (begin_tx s w) h p); [done..|cbn; lia|].
    unfold pool_basic, stake_status. pool_fields.
    destruct ((_ >=? _) && _) eqn:E; zbool; unfold_status; repeat split; lia.
  - apply run_activate_inv in E as (p & Hp & Hact).
    pose proof (activate_pool_spec h cap (begin_tx s w) p Hp) as Hspec.
    rewrite Hact in Hspec. destruct Hspec as (Hstat & _ & ->).
    destruct (Hw h p Hp) as (_ & Hb). unfold pool_basic in Hb.
    apply (basic_inv_update (begin_tx s w) h p); [done..|cbn; lia|].
    unfold pool_basic. pool_fields. unfold_status. repeat split; lia.
  - apply run_record_inv in E as (p & Hp & Hrec).
    pose proof (record_reward_spec h coin (begin_tx s w) p Hp) as Hspec.
    rewrite Hrec in Hspec. destruct Hspec as (Hstat & Hv & _ & _ & _ & ->).
    destruct (Hw h p Hp) as (_ & Hb). unfold pool_basic in Hb.
    pose proof (record_rps_ge p (coin_value coin) Hv) as Hge.
    apply (basic_inv_update (begin_tx s w) h p); [done..|cbn; lia|].
    unfold pool_basic. pool_fields. unfold_status. repeat split; lia.
  - apply run_claim_inv in E as (p & c & coin & w1 & Hp & Hc & Hcl & ->).
    pose proof (claim_reward_spec h k (begin_tx s w) p c Hp Hc) as Hspec.
    rewrite Hcl in Hspec.
    destruct Hspec as (Hstat & _ & _ & _ & [(Hpen & _ & _ & Hbal & _ & ->)|(_ & _ & ->)]).
    + destruct (Hw h p Hp) as (_ & Hb). unfold pool_basic in Hb.
      apply (basic_inv_update (begin_tx s w) h p); [done..|cbn; lia|].
      unfold pool_basic. pool_fields. unfold_status. repeat split; lia.
    + apply (basic_inv_bump (begin_tx s w)); [done|cbn; lia].
  - apply run_claim_operator_inv in E as (p & coin & w1 & Hp & Hcl & ->).
    pose proof (claim_operator_reward_spec h cap (begin_tx s w) p Hp) as Hspec.
    rewrite Hcl in Hspec.
    destruct Hspec as (Hstat & _ & _ & [(_ & Hbal & _ & ->)|(_ & _ & ->)]).
    + destruct (Hw h p Hp) as (_ & Hb). unfold pool_basic in Hb.
      apply (basic_inv_update (begin_tx s w) h p); [done..|cbn; lia|].
      unfold pool_basic. pool_fields. unfold_status. repeat split; lia.
    + apply (basic_inv_bump (begin_tx s w)); [done|cbn; lia].
  - apply run_withdraw_inv in E as (p & c & coin & w1 & Hp & Hc & Hwd & ->).
    pose proof (withdraw_stake_spec h k amount (begin_tx s w) p c Hp Hc) as Hspec.
    rewrite Hwd in Hspec.
    destruct Hspec as (Hstat & _ & Hamt & _ & Htot & Hbal & _ & ->).
    destruct (Hw h p Hp) as (_ & Hb). unfold pool_basic in Hb.
    apply (basic_inv_update (begin_tx s w) h p); [done..|cbn; lia|].
    unfold pool_basic, withdraw_status. pool_fields.
    destruct ((_ <? _) && _) eqn:E; zbool; unfold_status; repeat split; lia.
  - apply run_destroy_inv in E as (c & Hc & Hz & ->).
    apply (basic_inv_bump (begin_tx s w)); [done|cbn; lia].
Qed.

Lemma reachable_basic w : reachable w → basic_inv w.
Proof.
  induction 1 as [|t w Hr IH Hty]; [apply basic_inv_genesis|].
  by apply execute_preserves_basic.
Qed.

Lemma future_basic w w' : basic_inv w → future w w' → basic_inv w'.
Proof.
  intros Hw. induction 1 as [|t w w' _ IH Hty]; [done|].
  apply execute_preserves_basic; auto.
Qed.

Lemma future_reachable w w' : reachable w → future w w' → reachable w'.
Proof.
  intros Hw. induction 1 as [|t w w' _ IH Hty]; [done|].
  constructor; auto.
Qed.

(** * Reachability *)

Lemma reachable_execute_all txs w :
  reachable w → Forall (λ t, well_typed (tx_call t) = true) txs →
  reachable (execute_all txs w).
Proof.
  intros Hw Htxs. revert w Hw. induction Htxs as [|t txs Ht _ IH]; intros w Hw; [done|].
  cbn. apply IH. by constructor.
Qed.

(** * Solvency *)

Lemma staked_in_nonneg w h : world_inv w → 0 ≤ staked_in h (contributors w).
Proof.
  intros [_ Hcs]. unfold staked_in.
  assert (sum_of (λ _, 0) h (contributors w) = 0) as <-.
  { change (λ _ : Contributor, 0) with (λ c : Contributor, 0 * staked_amount c).
    rewrite sum_of_scale. lia. }
  apply sum_of_le. intros k c Hk _. by destruct (Hcs k c Hk) as (_ & _ & ? & _).
Qed.

Lemma pool_solvent w h p :
  world_inv w → pools w !! h = Some p →
  0 ≤ total_stake p ≤ value (balance p) ∧
  operator_share p ≤ value (balance p) - total_stake p.
Proof.
  intros Hw Hp. pose proof Hw as [Hps _].
  destruct (Hps h p Hp) as (_ & _ & _ & _ & Hpct & Htot & _ & _ & R & HR).
  pose proof (debt_le_reward w h p R Hw Hp HR) as HD.
  pose proof (staked_in_nonneg w h Hw) as HT.
  destruct HR as (Hacc & Hrps & Hscaled & Hcover & Hpaid).
  destruct (operator_share_bounds p ltac:(lia) ltac:(lia)) as [Ho0 Ho1].
  assert ((100 - operator_reward_pct p) * debt_in h (contributors w)
          ≤ (100 - operator_reward_pct p) * R) by nia.
  lia.
Qed.

(** C1 (amended).  In every store reached by a history in which each
    Contributor Record is presented only with the pool it was staked into,
    every pool holds at least its total stake.  And in every reachable
    store, whatever records are presented, [claim_reward],
    [claim_operator_reward] and [withdraw_stake], when they return, have paid
    out no more than the pool's balance held and have deducted exactly what
    they paid. *)
Theorem solvency_of_scoped_histories :
  (∀ w, reachable_scoped w → solvent w) ∧
  (∀ w, reachable w →
     ∀ s h p, pools w !! h = Some p →
       (∀ k c coin w', contributors w !! k = Some c →
          claim_reward h k (begin_tx s w) = Ok coin w' →
          coin_value coin ≤ value (balance p) ∧
          ∃ p', pools w' !! h = Some p' ∧
                value (balance p') = value (balance p) - coin_value coin) ∧
       (∀ cap coin w',
          claim_operator_reward h cap (begin_tx s w) = Ok coin w' →
          coin_value coin ≤ value (balance p) ∧
          ∃ p', pools w' !! h = Some p' ∧
                value (balance p') = value (balance p) - coin_value coin) ∧
       (∀ k c amount coin w', contributors w !! k = Some c →
          withdraw_stake h k amount (begin_tx s w) = Ok coin w' →
          coin_value coin ≤ value (balance p) ∧
          ∃ p', pools w' !! h = Some p' ∧
                value (balance p') = value (balance p) - coin_value coin)).
Proof.
  split.
  { intros w Hr h p Hp. pose proof (reachable_scoped_inv w Hr) as Hw.
    by destruct (pool_solvent w h p Hw Hp) as [[_ ?] _]. }
  intros w Hr s h p Hp.
  destruct (reachable_basic w Hr h p Hp) as (_ & _ & _ & _ & _ & _ & _ & _ & _ & H0).
  split; [|split].
  - intros k c coin w' Hc Hcl.
    pose proof (claim_reward_spec h k (begin_tx s w) p c Hp Hc) as Hspec.
    rewrite Hcl in Hspec.
    destruct Hspec as (_ & _ & _ & _ & [(_ & _ & _ & Hbal & -> & ->)|(_ & -> & ->)]).
    + split; [done|]. eexists. cbn [pools]. rewrite lookup_insert_eq. done.
    + split; [cbn; lia|]. exists p. split; [done|]. cbn. lia.
  - intros cap coin w' Hcl.
    pose proof (claim_operator_reward_spec h cap (begin_tx s w) p Hp) as Hspec.
    rewrite Hcl in Hspec.
    destruct Hspec as (_ & _ & _ & [(_ & Hbal & -> & ->)|(_ & -> & ->)]).
    + split; [done|]. eexists. cbn [pools]. rewrite lookup_insert_eq. done.
    + split; [cbn; lia|]. exists p. split; [done|]. cbn. lia.
  - intros k c amount coin w' Hc Hwd.
    pose proof (withdraw_stake_spec h k amount (begin_tx s w) p c Hp Hc) as Hspec.
    rewrite Hwd in Hspec. destruct Hspec as (_ & _ & _ & _ & _ & Hbal & -> & ->).
    split; [done|]. eexists. cbn [pools]. rewrite lookup_insert_eq. done.
Qed.

Lemma cross_pool_claim_typed :
  Forall (λ t, well_typed (tx_call t) = true) cross_pool_claim.
Proof. repeat constructor. Qed.

(** C1 as stated fails: after [cross_pool_claim], pool 0 holds 200 against a
    total stake of 1000. *)
Lemma solvency_fails_across_pools : ¬ (∀ w, reachable w → solvent w).
Proof.
  intros Hall.
  assert (reachable (execute_all cross_pool_claim genesis)) as Hr.
  { apply reachable_execute_all; [constructor|apply cross_pool_claim_typed]. }
  specialize (Hall _ Hr 0
    (mkValidatorPool 0 1000 1000 10 10 ACTIVE 100 100000 (mkBalance 200))).
  assert (1000 ≤ 200) as Hbad; [|lia].
  apply Hall. vm_compute. reflexivity.
Qed.

Lemma reachable_scoped_execute_all txs w :
  reachable_scoped w → all_scoped txs w = true → reachable_scoped (execute_all txs w).
Proof.
  revert w. induction txs as [|t txs IH]; intros w Hw Hall; [done|].
  cbn in Hall. apply andb_true_iff in Hall as [Hall Hrest].
  apply andb_true_iff in Hall as [Hty Hsc].
  cbn. apply IH; [|done]. by constructor.
Qed.

Lemma solvency_of_scoped_histories_witness :
  reachable_scoped active_store ∧ solvent active_store ∧
  ∃ coin w', claim_operator_reward 0 1 (begin_tx 10 active_store) = Ok coin w' ∧
             coin_value coin ≤ 1100.
Proof.
  assert (reachable_scoped active_store) as Hr.
  { apply reachable_scoped_execute_all; [constructor|vm_compute; reflexivity]. }
  split; [exact Hr|]. split; [exact (proj1 solvency_of_scoped_histories _ Hr)|].
  eexists _, _. split; [vm_compute; reflexivity|].
  refine (proj1 (proj1 (proj2 (proj2 solvency_of_scoped_histories active_store
            (reachable_scoped_reachable _ Hr) 10 0
            (mkValidatorPool 0 1000 1000 10 10 ACTIVE 100 100000 (mkBalance 1100)) _))
            1 _ _ _)).
  - vm_compute. reflexivity.
  - vm_compute. reflexivity.
Defined.

(** * The round trip *)

Ltac tx_unfold :=
  unfold execute_all, execute, run_tx, begin_tx; cbn [foldl tx_call tx_sender resolve dispatch];
  unfold create_custom_validator_pool, stake_to_pool, activate_validator_pool,
    record_validator_reward, claim_user_reward, claim_operator_rewards,
    withdraw_user_stake, create_pool, stake, activate_pool, record_reward.

Ltac mprune := try solve [exfalso; zbool; unfold_status; lia].

Ltac mrun_det := repeat (mred; mlook; try (msplit; mprune)).

Lemma round_trip_created operator S p :
  0 < S → 0 ≤ p ≤ 100 →
  execute (mkTx operator (CreateCustomValidatorPool S p)) genesis =
  mkWorld (<[ 0 := mkValidatorPool 0 S 0 operator p COLLECTING 0 0 (mkBalance 0) ]> ∅)
    ∅ (<[ 1 := mkOperatorCap 1 0 ]> ∅) [] [PoolCreated 0 operator S p]
    (mkTxContext operator 2).
Proof.
  intros HS Hp. unfold genesis. tx_unfold. mrun_det. reflexivity.
Qed.

Lemma round_trip_staked operator user S p cp co ev s :
  0 < S → S ≤ u64_max →
  execute (mkTx user (StakeToPool 0 (coin_of S)))
    (mkWorld (<[ 0 := mkValidatorPool 0 S 0 operator p COLLECTING 0 0 (mkBalance 0) ]> ∅)
       ∅ cp co ev (mkTxContext s 2)) =
  mkWorld (<[ 0 := mkValidatorPool 0 S S operator p READY 0 0 (mkBalance S) ]> ∅)
    (<[ 2 := mkContributor 2 0 user S 0 ]> ∅) cp co
    (ev ++ [StakeDeposited 0 user S S READY]) (mkTxContext user 3).
Proof.
  intros HS Hmax. unfold coin_of. tx_unfold. mrun_det.
  rewrite ?Z.add_0_l, ?Z.mul_0_l, ?Zdiv_0_l. reflexivity.
Qed.

Lemma round_trip_activated operator S p cs co ev s n :
  execute (mkTx operator (ActivateValidatorPool 0 1))
    (mkWorld (<[ 0 := mkValidatorPool 0 S S operator p READY 0 0 (mkBalance S) ]> ∅)
       cs (<[ 1 := mkOperatorCap 1 0 ]> ∅) co ev (mkTxContext s n)) =
  mkWorld (<[ 0 := mkValidatorPool 0 S S operator p ACTIVE 0 0 (mkBalance S) ]> ∅)
    cs (<[ 1 := mkOperatorCap 1 0 ]> ∅) co
    (ev ++ [PoolActivated 0 operator S]) (mkTxContext operator n).
Proof.
  tx_unfold. mrun_det. reflexivity.
Qed.

Lemma round_trip_rewarded operator S R p cs cp co ev s n :
  0 < S → 0 < R → S + R ≤ u64_max → R * 1000000 ≤ u64_max →
  execute (mkTx operator (RecordValidatorReward 0 (coin_of R)))
    (mkWorld (<[ 0 := mkValidatorPool 0 S S operator p ACTIVE 0 0 (mkBalance S) ]> ∅)
       cs cp co ev (mkTxContext s n)) =
  mkWorld
    (<[ 0 := mkValidatorPool 0 S S operator p ACTIVE R (R * 1000000 / S) (mkBalance (S + R)) ]> ∅)
    cs cp co (ev ++ [RewardRecorded 0 R R]) (mkTxContext operator n).
Proof.
  intros HS HR Hsum Hmul.
  assert (0 + R * 1000000 / S ≤ u64_max) as Hq.
  { rewrite !Z.add_0_l. apply Z.div_le_upper_bound; nia. }
  unfold coin_of. tx_unfold. mrun_det.
  rewrite ?Z.add_0_l. reflexivity.
Qed.

Lemma round_trip_world operator user S R p :
  0 < S → 0 < R → 0 ≤ p ≤ 100 → S + R ≤ u64_max → R * 1000000 ≤ u64_max →
  execute_all (round_trip operator user S R p) genesis =
  mkWorld
    (<[ 0 := mkValidatorPool 0 S S operator p ACTIVE R (R * 1000000 / S) (mkBalance (S + R)) ]> ∅)
    (<[ 2 := mkContributor 2 0 user S 0 ]> ∅)
    (<[ 1 := mkOperatorCap 1 0 ]> ∅)
    []
    [PoolCreated 0 operator S p; StakeDeposited 0 user S S READY;
     PoolActivated 0 operator S; RewardRecorded 0 R R]
    (mkTxContext operator 3).
Proof.
  intros HS HR Hp Hsum Hmul. unfold round_trip, execute_all. cbn [foldl].
  rewrite round_trip_created by done.
  rewrite round_trip_staked by lia.
  rewrite round_trip_activated.
  rewrite round_trip_rewarded by done.
  reflexivity.
Qed.

(** Within [u64] the four transactions return and the claims are as the
    round trip says. *)
Lemma round_trip_within_u64 operator user S R p :
  0 < S → 0 < R → 0 ≤ p ≤ 100 → S + R ≤ u64_max → R * 1000000 ≤ u64_max →
  round_trip_holds operator user S R p.
Proof.
  intros HS HR Hp Hsum Hmul. unfold round_trip_holds.
  rewrite round_trip_world by done.
  set (P := mkValidatorPool 0 S S operator p ACTIVE R (R * 1000000 / S) (mkBalance (S + R))).
  set (C := mkContributor 2 0 user S 0).
  set (w := begin_tx user _).
  assert (pools w !! 0 = Some P) as HP by apply lookup_insert_eq.
  assert (contributors w !! 2 = Some C) as HC by apply lookup_insert_eq.
  assert (0 ≤ R * 1000000 / S) as Hq0 by (apply Z.div_pos; lia).
  assert (S * (R * 1000000 / S) ≤ R * 1000000) as Hq1 by (apply Z.mul_div_le; lia).
  assert (settled P C = R * 1000000 / S * S / 1000000) as Hset.
  { unfold settled, P, C. cbn. by rewrite (Z.mul_comm S). }
  assert (0 ≤ settled P C ≤ R) as Hsb.
  { unfold settled. cbn [P C staked_amount reward_per_stake]. split.
    - apply Z.div_pos; nia.
    - apply Z.div_le_upper_bound; lia. }
  assert (pending P C = settled P C) as Hpen by (unfold pending; cbn; lia).
  assert (round_trip_payout S R p = user_share P C) as Hpay.
  { unfold round_trip_payout, user_share. by rewrite Hpen, Hset. }
  destruct (decide (0 < settled P C)) as [Hpos|Hzero].
  - (* something to pay *)
    destruct (user_share_bounds P C ltac:(lia) ltac:(cbn; lia)) as [Hu0 Hu1].
    assert (user_share P C ≤ R) as HuR by (cbn in Hu1; nia).
    eexists _, _, _, _. split.
    { apply (claim_reward_pays 0 2 w P C); try done; cbn; lia. }
    split; [by rewrite Hpay|].
    split.
    { eapply (claim_reward_nothing 0 2 _ _ _).
      - cbn [pools]. apply lookup_insert_eq.
      - cbn [contributors]. apply lookup_insert_eq.
      - done.
      - done.
      - cbn. lia.
      - unfold pending. cbn. unfold settled. cbn. lia. }
    done.
  - (* the reward truncates to nothing *)
    assert (settled P C = 0) as Hz by lia.
    eexists _, _, _, _. split.
    { apply (claim_reward_nothing 0 2 w P C); try done; cbn; lia. }
    split.
    { rewrite Hpay. unfold user_share. rewrite Hpen, Hz. done. }
    split.
    { apply (claim_reward_nothing 0 2 _ P C); try done; cbn; lia. }
    done.
Qed.

Lemma all_return_cons t txs w :
  all_return (t :: txs) w = true →
  ∃ w', run_tx t w = Ok tt w' ∧ execute t w = w' ∧ all_return txs w' = true.
Proof.
  cbn [all_return]. unfold execute. destruct (run_tx t w) as [[] w'|]; [eauto|done].
Qed.

(** C3.  For S > 0, R > 0 and 0 <= p <= 100: once [create_pool(S, p)], a
    stake of S, the activation and [record_reward(R)] have returned,
    [claim_reward] by the staker returns and pays
    floor(floor(floor(R * 1000000 / S) * S / 1000000) * (100 - p) / 100), and
    a second [claim_reward] right after returns an empty coin and leaves
    every pool and every record as they were. *)
Theorem round_trip_claims operator user S R p :
  0 < S → 0 < R → 0 ≤ p ≤ 100 →
  all_return (round_trip operator user S R p) genesis = true →
  round_trip_holds operator user S R p.
Proof.
  intros HS HR Hp Hret. unfold round_trip in Hret.
  apply all_return_cons in Hret as (w1 & _ & E1 & Hret).
  rewrite round_trip_created in E1 by done. subst w1.
  apply all_return_cons in Hret as (w2 & Hrun2 & E2 & Hret).
  assert (S ≤ u64_max) as Hmax.
  { apply run_stake_inv in Hrun2 as (q & c & w' & Hq & Hstake & _).
    cbn [pools] in Hq. rewrite lookup_insert_eq in Hq. injection Hq as <-.
    match type of Hstake with
    | stake _ _ ?w = _ =>
        pose proof (stake_spec 0 (coin_of S) w _ (lookup_insert_eq _ _ _)) as Hspec
    end.
    rewrite Hstake in Hspec. destruct Hspec as (_ & _ & _ & Htot & _). cbn in Htot. lia. }
  rewrite round_trip_staked in E2 by done. subst w2.
  apply all_return_cons in Hret as (w3 & _ & E3 & Hret).
  rewrite round_trip_activated in E3. subst w3.
  apply all_return_cons in Hret as (w4 & Hrun4 & _ & _).
  apply run_record_inv in Hrun4 as (q & Hq & Hrec).
  cbn [pools] in Hq. rewrite lookup_insert_eq in Hq. injection Hq as <-.
  match type of Hrec with
  | record_reward _ _ ?w = _ =>
      pose proof (record_reward_spec 0 (coin_of R) w _ (lookup_insert_eq _ _ _)) as Hspec
  end.
  rewrite Hrec in Hspec. destruct Hspec as (_ & _ & Hbal & _ & Hmul & _).
  cbn in Hbal, Hmul. apply round_trip_within_u64; try done. by apply Hmul.
Qed.

Lemma round_trip_claims_witness : round_trip_holds 10 11 1000 100 10.
Proof.
  apply (round_trip_claims 10 11 1000 100 10); try lia. vm_compute. reflexivity.
Defined.

(** A reward of 18446744073710 (about 18447 IOTA) is beyond what
    [record_reward] takes: [R * 1000000] leaves [u64] and the call aborts. *)
Lemma record_reward_overflows :
  all_return (round_trip 10 11 1000 18446744073710 10) genesis = false.
Proof. vm_compute. reflexivity. Qed.

(** * Status after a stake *)

(** C4.  A stake that returns on a Collecting pool leaves the pool Ready
    exactly when the total stake with the new amount reaches the required
    stake, and Collecting exactly when it stays below; on a Ready pool it
    leaves the pool Ready. *)
Theorem stake_status_transition w h coin p c w' :
  pools w !! h = Some p → stake h coin w = Ok c w' →
  ∃ p', pools w' !! h = Some p' ∧
    total_stake p' = total_stake p + coin_value coin ∧
    required_stake p' = required_stake p ∧
    (status p = COLLECTING →
       (status p' = READY ↔ required_stake p ≤ total_stake p + coin_value coin) ∧
       (status p' = COLLECTING ↔ total_stake p + coin_value coin < required_stake p)) ∧
    (status p = READY → status p' = READY).
Proof.
  intros Hp Hst. pose proof (stake_spec h coin w p Hp) as Hspec. rewrite Hst in Hspec.
  destruct Hspec as (_ & _ & _ & _ & _ & _ & ->).
  eexists. split; [cbn [pools]; apply lookup_insert_eq|].
  cbn [total_stake required_stake status set_status set_total_stake set_balance].
  unfold stake_status.
  destruct ((_ >=? _) && _) eqn:E; zbool; unfold_status; repeat split; lia.
Qed.

Lemma stake_status_transition_witness :
  ∃ c w', stake 0 (coin_of 1000) (begin_tx 11 collecting_store) = Ok c w' ∧
  ∃ p', pools w' !! 0 = Some p' ∧ status p' = READY.
Proof.
  eexists _, _. split; [vm_compute; reflexivity|].
  destruct (stake_status_transition (begin_tx 11 collecting_store) 0 (coin_of 1000)
              (mkValidatorPool 0 1000 0 10 10 COLLECTING 0 0 (mkBalance 0)) _ _
              ltac:(vm_compute; reflexivity) ltac:(vm_compute; reflexivity))
    as (p' & Hp' & _ & _ & Hcollecting & _).
  exists p'. split; [exact Hp'|].
  apply (proj1 (Hcollecting eq_refl)). vm_compute. discriminate.
Defined.

(** * Withdrawals by status *)

(** C5.  On an Active pool [withdraw_stake] aborts with
    [E_WITHDRAWAL_NOT_ALLOWED] before anything else is looked at, whatever
    the amount, the caller, the record or the balance; a withdrawal that
    returns on a Ready pool leaves the pool Collecting exactly when the total
    stake left is below the required stake, and Ready otherwise. *)
Theorem withdraw_stake_by_status w h k amount p :
  pools w !! h = Some p →
  (status p = ACTIVE →
     withdraw_stake h k amount w = Abort (Assert E_WITHDRAWAL_NOT_ALLOWED) w) ∧
  (status p = READY →
     ∀ c coin w', contributors w !! k = Some c →
       withdraw_stake h k amount w = Ok coin w' →
       ∃ p', pools w' !! h = Some p' ∧
         total_stake p' = total_stake p - amount ∧
         required_stake p' = required_stake p ∧
         (status p' = COLLECTING ↔ total_stake p' < required_stake p') ∧
         (status p' = READY ↔ required_stake p' ≤ total_stake p')).
Proof.
  intros Hp. split.
  - intros Hst. unfold withdraw_stake, bind, read_pool. rewrite Hp, Hst. reflexivity.
  - intros Hst c coin w' Hc Hwd.
    pose proof (withdraw_stake_spec h k amount w p c Hp Hc) as Hspec.
    rewrite Hwd in Hspec. destruct Hspec as (_ & _ & _ & _ & _ & _ & _ & ->).
    eexists. split; [cbn [pools]; apply lookup_insert_eq|].
    cbn [total_stake required_stake status set_status set_total_stake set_balance].
    unfold withdraw_status. rewrite Hst.
    destruct ((_ <? _) && _) eqn:E; zbool; unfold_status; repeat split; lia.
Qed.

Lemma withdraw_stake_by_status_witness :
  withdraw_stake 0 2 400 (begin_tx 11 active_store)
    = Abort (Assert E_WITHDRAWAL_NOT_ALLOWED) (begin_tx 11 active_store) ∧
  ∃ coin w' p',
    withdraw_stake 0 2 400 (begin_tx 11 ready_store) = Ok coin w' ∧
    pools w' !! 0 = Some p' ∧ status p' = COLLECTING.
Proof.
  split.
  - apply (withdraw_stake_by_status (begin_tx 11 active_store) 0 2 400
             (mkValidatorPool 0 1000 1000 10 10 ACTIVE 100 100000 (mkBalance 1100))).
    + vm_compute. reflexivity.
    + reflexivity.
  - eexists _, _.
    destruct (proj2 (withdraw_stake_by_status (begin_tx 11 ready_store) 0 2 400
                (mkValidatorPool 0 1000 1000 10 10 READY 0 0 (mkBalance 1000))
                ltac:(vm_compute; reflexivity))
              eq_refl (mkContributor 2 0 11 1000 0) _ _
              ltac:(vm_compute; reflexivity) ltac:(vm_compute; reflexivity))
      as (p' & Hp' & Htot & Hreq & Hcollecting & _).
    exists p'. split; [vm_compute; reflexivity|]. split; [exact Hp'|].
    apply Hcollecting. rewrite Htot, Hreq. vm_compute. reflexivity.
Defined.

(** * The operator's claim *)

(** C6.  On an Active pool, called by the operator, with the product
    [accumulated_reward * operator_reward_pct] within [u64] and the share
    covered by the balance, [claim_operator_reward] returns.  The share is
    [accumulated_reward * operator_reward_pct / 100].  When it is positive the
    coin returned carries it, [accumulated_reward] becomes 0, the balance
    drops by the share, and no other field of the pool changes; otherwise the
    coin is empty and neither a pool nor a record changes. *)
Theorem claim_operator_reward_effect w h cap p :
  pools w !! h = Some p → status p = ACTIVE → sender (ctx w) = operator p →
  accumulated_reward p * operator_reward_pct p ≤ u64_max →
  operator_share p ≤ value (balance p) →
  operator_share p = accumulated_reward p * operator_reward_pct p / 100 ∧
  ∃ coin w', claim_operator_reward h cap w = Ok coin w' ∧
    contributors w' = contributors w ∧
    (0 < operator_share p →
       coin_value coin = operator_share p ∧
       pools w' = <[h := mkValidatorPool (id p) (required_stake p) (total_stake p)
                           (operator p) (operator_reward_pct p) (status p) 0
                           (reward_per_stake p)
                           (mkBalance (value (balance p) - operator_share p))]> (pools w)) ∧
    (operator_share p ≤ 0 →
       coin_value coin = 0 ∧ pools w' = pools w ∧ events w' = events w).
Proof.
  intros Hp Hst Hop Hmul Hbal. split; [reflexivity|].
  destruct (decide (0 < operator_share p)) as [Hpos|Hzero].
  - eexists _, _. split; [by apply (claim_operator_reward_pays h cap w p)|].
    split; [reflexivity|]. split; [|lia]. intros _. split; reflexivity.
  - eexists _, _. split; [apply (claim_operator_reward_nothing h cap w p); try done; lia|].
    split; [reflexivity|]. split; [lia|]. intros _. repeat split; reflexivity.
Qed.

Lemma claim_operator_reward_effect_witness :
  ∃ coin w' p',
    claim_operator_reward 0 1 (begin_tx 10 active_store) = Ok coin w' ∧
    coin_value coin = 10 ∧ pools w' !! 0 = Some p' ∧
    accumulated_reward p' = 0 ∧ value (balance p') = 1090.
Proof.
  destruct (claim_operator_reward_effect (begin_tx 10 active_store) 0 1
              (mkValidatorPool 0 1000 1000 10 10 ACTIVE 100 100000 (mkBalance 1100))
              ltac:(vm_compute; reflexivity) eq_refl eq_refl
              ltac:(vm_compute; discriminate) ltac:(vm_compute; discriminate))
    as (_ & coin & w' & Hcl & _ & Hpos & _).
  destruct (Hpos ltac:(vm_compute; reflexivity)) as [Hcoin Hpools].
  exists coin, w'. eexists. split; [exact Hcl|]. split; [exact Hcoin|].
  rewrite Hpools. split; [apply lookup_insert_eq|]. split; reflexivity.
Defined.

(** * Aborts *)

Lemma bind_Abort_inv {A B} (m : M A) (k : A → M B) w e w' :
  bind m k w = Abort e w' →
  m w = Abort e w' ∨ ∃ a w1, m w = Ok a w1 ∧ k a w1 = Abort e w'.
Proof. unfold bind. destruct (m w) as [a w1|e1 w1]; [eauto|]. intros [= <- <-]. by left. Qed.

Ltac in_codes :=
  unfold error_codes; rewrite !elem_of_cons; intuition congruence.

Lemma create_pool_assert rs pct w code w' :
  create_pool rs pct w = Abort (Assert code) w' → w' = w ∧ code ∈ error_codes.
Proof.
  intros H. pose proof (create_pool_spec rs pct w) as Hspec. rewrite H in Hspec.
  destruct Hspec as (-> & -> & _). split; [done|in_codes].
Qed.

Lemma stake_assert h coin w code w' :
  stake h coin w = Abort (Assert code) w' → w' = w ∧ code ∈ error_codes.
Proof.
  intros H. destruct (pools w !! h) as [p|] eqn:Hp.
  - pose proof (stake_spec h coin w p Hp) as Hspec. rewrite H in Hspec.
    destruct Hspec as (-> & [(-> & _)|(-> & _)]); (split; [done|in_codes]).
  - unfold stake, bind, read_pool in H. by rewrite Hp in H.
Qed.

Lemma activate_pool_assert h cap w code w' :
  activate_pool h cap w = Abort (Assert code) w' → w' = w ∧ code ∈ error_codes.
Proof.
  intros H. destruct (pools w !! h) as [p|] eqn:Hp.
  - pose proof (activate_pool_spec h cap w p Hp) as Hspec. rewrite H in Hspec.
    destruct Hspec as (-> & [(-> & _)|(-> & _)]); (split; [done|in_codes]).
  - unfold activate_pool, bind, read_pool in H. by rewrite Hp in H.
Qed.

Lemma record_reward_assert h coin w code w' :
  record_reward h coin w = Abort (Assert code) w' → w' = w ∧ code ∈ error_codes.
Proof.
  intros H. destruct (pools w !! h) as [p|] eqn:Hp.
  - pose proof (record_reward_spec h coin w p Hp) as Hspec. rewrite H in Hspec.
    destruct Hspec as (-> & [(-> & _)|(-> & _)]); (split; [done|in_codes]).
  - unfold record_reward, bind, read_pool in H. by rewrite Hp in H.
Qed.

Lemma claim_reward_assert h k w code w' :
  claim_reward h k w = Abort (Assert code) w' → w' = w ∧ code ∈ error_codes.
Proof.
  intros H. destruct (pools w !! h) as [p|] eqn:Hp.
  - destruct (contributors w !! k) as [c|] eqn:Hc.
    + pose proof (claim_reward_spec h k w p c Hp Hc) as Hspec. rewrite H in Hspec.
      destruct Hspec as (-> & [(-> & _)|(-> & _)]); (split; [done|in_codes]).
    + unfold claim_reward, bind, read_pool, read_contributor, assert, ret, abort in H.
      rewrite Hp in H. destruct (status p =? ACTIVE); cbv beta iota in H.
      * by rewrite Hc in H.
      * injection H as <- <-. split; [done|in_codes].
  - unfold claim_reward, bind, read_pool in H. by rewrite Hp in H.
Qed.

Lemma claim_operator_reward_assert h cap w code w' :
  claim_operator_reward h cap w = Abort (Assert code) w' → w' = w ∧ code ∈ error_codes.
Proof.
  intros H. destruct (pools w !! h) as [p|] eqn:Hp.
  - pose proof (claim_operator_reward_spec h cap w p Hp) as Hspec. rewrite H in Hspec.
    destruct Hspec as (-> & [(-> & _)|(-> & _)]); (split; [done|in_codes]).
  - unfold claim_operator_reward, bind, read_pool in H. by rewrite Hp in H.
Qed.

Lemma withdraw_stake_assert h k amount w code w' :
  withdraw_stake h k amount w = Abort (Assert code) w' → w' = w ∧ code ∈ error_codes.
Proof.
  intros H. destruct (pools w !! h) as [p|] eqn:Hp.
  - destruct (contributors w !! k) as [c|] eqn:Hc.
    + pose proof (withdraw_stake_spec h k amount w p c Hp Hc) as Hspec. rewrite H in Hspec.
      destruct Hspec as (-> & [(-> & _)|(_ & [(-> & _)|[(-> & _)|(-> & _)]])]);
        (split; [done|in_codes]).
    + unfold withdraw_stake, bind, read_pool, read_contributor, assert, ret, abort in H.
      rewrite Hp in H.
      destruct ((status p =? COLLECTING) || (status p =? READY)); cbv beta iota in H.
      * by rewrite Hc in H.
      * injection H as <- <-. split; [done|in_codes].
  - unfold withdraw_stake, bind, read_pool in H. by rewrite Hp in H.
Qed.

Lemma resolve_outcome c w :
  resolve c w = Ok tt w ∨ resolve c w = Abort OBJECT_NOT_FOUND w.
Proof.
  destruct c; cbn [resolve]; unfold bind, read_pool, read_cap, read_contributor, ret;
    repeat match goal with
           | |- context [match ?m !! ?i with _ => _ end] => destruct (m !! i)
           end; auto.
Qed.

(** The entry functions add transfers after the call, and a transfer does
    not abort. *)
Lemma dispatch_assert c w code w' :
  core_call c = true →
  dispatch c w = Abort (Assert code) w' → w' = w ∧ code ∈ error_codes.
Proof.
  intros Hcore H. destruct c; try done; cbn [dispatch] in H;
    unfold create_validator_pool, create_custom_validator_pool, stake_to_pool,
      activate_validator_pool, record_validator_reward, claim_user_reward,
      claim_operator_rewards, withdraw_user_stake in H;
    try (apply bind_Abort_inv in H as [H|(a & w1 & _ & H)];
         [|cbv [bind tx_context_sender transfer_pool transfer_cap transfer_contributor
                transfer_coin] in H; done]);
    eauto using create_pool_assert, stake_assert, activate_pool_assert,
      record_reward_assert, claim_reward_assert, claim_operator_reward_assert,
      withdraw_stake_assert.
Qed.

(** C7.  A transaction that aborts leaves the store as it was: no field of
    a pool or of a record changes and no coin is handed out.  For the
    operations of the core, an abort with one of the module's error codes
    happens before anything has been written: the store at the abort is the
    store the call started in.  In particular [record_reward] on a pool that
    is not Active aborts with [E_INVALID_STATE] and leaves
    [accumulated_reward], [reward_per_stake] and [balance] as they were. *)
Theorem failure_atomicity :
  (∀ t w e w', run_tx t w = Abort e w' → execute t w = w) ∧
  (∀ t w code w',
     core_call (tx_call t) = true → run_tx t w = Abort (Assert code) w' →
     w' = begin_tx (tx_sender t) w ∧ code ∈ error_codes) ∧
  (∀ s h coin w p,
     pools w !! h = Some p → status p ≠ ACTIVE →
     run_tx (mkTx s (RecordValidatorReward h coin)) w
       = Abort (Assert E_INVALID_STATE) (begin_tx s w) ∧
     execute (mkTx s (RecordValidatorReward h coin)) w = w).
Proof.
  split; [|split].
  - intros t w e w' H. unfold execute. by rewrite H.
  - intros t w code w' Hcore H. unfold run_tx in H.
    apply bind_Abort_inv in H as [H|([] & w1 & Hres & H)].
    + destruct (resolve_outcome (tx_call t) (begin_tx (tx_sender t) w)) as [E|E];
        rewrite E in H; done.
    + destruct (resolve_outcome (tx_call t) (begin_tx (tx_sender t) w)) as [E|E];
        rewrite E in Hres; [|done]. injection Hres as <-.
      by apply dispatch_assert in H.
  - intros s h coin w p Hp Hst.
    assert (run_tx (mkTx s (RecordValidatorReward h coin)) w
            = Abort (Assert E_INVALID_STATE) (begin_tx s w)) as Hrun.
    { unfold run_tx. cbn [tx_call tx_sender resolve dispatch].
      unfold bind, read_pool. cbn [pools begin_tx with_ctx]. rewrite Hp.
      unfold record_validator_reward.
      pose proof (record_reward_spec h coin (begin_tx s w) p Hp) as Hspec.
      destruct (record_reward h coin (begin_tx s w)) as [[] w'|[code| | |] w'];
        cbv beta iota zeta delta [record_reward_post] in Hspec; try done.
      - by destruct Hspec as (? & _).
      - destruct Hspec as (-> & [(-> & _)|(_ & ? & _)]); done.
      - by destruct Hspec as (? & _). }
    split; [done|]. unfold execute. by rewrite Hrun.
Qed.

Lemma failure_atomicity_witness :
  execute (mkTx 11 (WithdrawUserStake 0 2 400)) active_store = active_store ∧
  E_WITHDRAWAL_NOT_ALLOWED ∈ error_codes ∧
  execute (mkTx 12 (RecordValidatorReward 0 (coin_of 100))) ready_store = ready_store.
Proof.
  destruct failure_atomicity as (Hrollback & Hassert & Hrecord).
  assert (run_tx (mkTx 11 (WithdrawUserStake 0 2 400)) active_store
          = Abort (Assert E_WITHDRAWAL_NOT_ALLOWED) (begin_tx 11 active_store)) as Hrun
    by (vm_compute; reflexivity).
  split; [exact (Hrollback _ _ _ _ Hrun)|].
  split; [exact (proj2 (Hassert (mkTx 11 (WithdrawUserStake 0 2 400)) _ _ _ eq_refl Hrun))|].
  refine (proj2 (Hrecord 12 0 (coin_of 100) ready_store
                   (mkValidatorPool 0 1000 1000 10 10 READY 0 0 (mkBalance 1000)) _ _)).
  - vm_compute. reflexivity.
  - vm_compute. discriminate.
Defined.

(** * Pool creation *)

(** C8 (amended).  [create_pool] aborts with [E_ZERO_AMOUNT] (1004), the one
    code the module has for a zero amount, whenever [required_stake] is 0 or
    [operator_reward_pct] is above 100, and nothing has been written at that
    abort.  Otherwise it returns a pool with [total_stake],
    [accumulated_reward], [reward_per_stake] and [balance] 0, status
    Collecting and the sender as operator, together with an OperatorCap
    whose [pool_id] is the pool's ID. *)
Theorem create_pool_outcome rs pct w :
  ((rs = 0 ∨ 100 < pct) → create_pool rs pct w = Abort (Assert E_ZERO_AMOUNT) w) ∧
  (0 < rs → pct ≤ 100 →
     ∃ pool cap w', create_pool rs pct w = Ok (pool, cap) w' ∧
       required_stake pool = rs ∧ operator_reward_pct pool = pct ∧
       total_stake pool = 0 ∧ accumulated_reward pool = 0 ∧
       reward_per_stake pool = 0 ∧ value (balance pool) = 0 ∧
       status pool = COLLECTING ∧ operator pool = sender (ctx w) ∧
       cap_pool_id cap = id pool ∧
       pools w' = pools w ∧ contributors w' = contributors w).
Proof.
  split.
  - intros Hbad. pose proof (create_pool_spec rs pct w) as Hspec.
    destruct (create_pool rs pct w) as [created w'|[code| | |] w'];
      cbv beta iota zeta delta [create_pool_post] in Hspec; try done.
    + lia.
    + by destruct Hspec as (-> & -> & _).
  - intros Hrs Hpct. eexists _, _, _. split; [by apply create_pool_returns|].
    repeat split.
Qed.

Lemma create_pool_outcome_witness :
  create_pool 0 10 (begin_tx 10 genesis) = Abort (Assert E_ZERO_AMOUNT) (begin_tx 10 genesis) ∧
  create_pool 1000 101 (begin_tx 10 genesis)
    = Abort (Assert E_ZERO_AMOUNT) (begin_tx 10 genesis) ∧
  ∃ pool cap w', create_pool 1000 10 (begin_tx 10 genesis) = Ok (pool, cap) w' ∧
                 status pool = COLLECTING ∧ operator pool = 10 ∧ cap_pool_id cap = id pool.
Proof.
  split; [|split].
  - apply (proj1 (create_pool_outcome 0 10 (begin_tx 10 genesis))). by left.
  - apply (proj1 (create_pool_outcome 1000 101 (begin_tx 10 genesis))). right. lia.
  - destruct (proj2 (create_pool_outcome 1000 10 (begin_tx 10 genesis))
                ltac:(lia) ltac:(lia))
      as (pool & cap & w' & Hcr & _ & _ & _ & _ & _ & _ & Hst & Hop & Hcap & _).
    exists pool, cap, w'. repeat split; assumption.
Defined.

(** C8 as stated fails: the code [create_pool] aborts with is the zero-amount
    code itself, the one [stake] aborts with on an empty coin, not a code
    distinct from it. *)
Lemma create_pool_error_is_zero_amount :
  ¬ (∀ rs pct w, rs = 0 ∨ 100 < pct →
       ∃ code w', create_pool rs pct w = Abort (Assert code) w' ∧ code ≠ E_ZERO_AMOUNT) ∧
  create_pool 1000 101 (begin_tx 10 genesis)
    = Abort (Assert E_ZERO_AMOUNT) (begin_tx 10 genesis) ∧
  stake 0 (coin_of 0) (begin_tx 11 collecting_store)
    = Abort (Assert E_ZERO_AMOUNT) (begin_tx 11 collecting_store).
Proof.
  split; [|split].
  - intros Hall. destruct (Hall 0 10 genesis ltac:(by left)) as (code & w' & Hcr & Hne).
    vm_compute in Hcr. injection Hcr as <- _. by apply Hne.
  - vm_compute. reflexivity.
  - vm_compute. reflexivity.
Qed.

(** * Pools that are not active carry no reward *)

Lemma idle_pool w h p :
  world_inv w → pools w !! h = Some p → status p ≠ ACTIVE →
  reward_per_stake p = 0 ∧
  ∀ k c, contributors w !! k = Some c → pool_id c = h → reward_debt c = 0.
Proof.
  intros [Hps Hcs] Hp Hst.
  destruct (Hps h p Hp) as (_ & _ & _ & _ & _ & _ & _ & Hidle & _).
  destruct (Hidle Hst) as (Hrps & _). split; [done|].
  intros k c Hk Hown. destruct (Hcs k c Hk) as (_ & _ & _ & Hdebt & Hsettled).
  rewrite Hown in Hsettled. specialize (Hsettled p Hp). rewrite Hrps in Hsettled. lia.
Qed.

Lemma stake_Ok_pool h coin w c w' :
  stake h coin w = Ok c w' → ∃ p, pools w !! h = Some p.
Proof.
  intros H. destruct (pools w !! h) as [p|] eqn:Hp; [eauto|].
  unfold stake, bind, read_pool in H. by rewrite Hp in H.
Qed.

Lemma withdraw_stake_Ok_pool h k amount w coin w' :
  withdraw_stake h k amount w = Ok coin w' → ∃ p, pools w !! h = Some p.
Proof.
  intros H. destruct (pools w !! h) as [p|] eqn:Hp; [eauto|].
  unfold withdraw_stake, bind, read_pool in H. by rewrite Hp in H.
Qed.

(** C9 (amended).  In every reachable store a pool that is not Active has
    [reward_per_stake] 0, and [stake], when it returns, has created a record
    with [reward_debt] 0, the product [reward_per_stake * amount] being 0.
    In every store reached by a history in which each Contributor Record is
    presented only with the pool it was staked into, each live record of a
    pool that is not Active has [reward_debt] 0, and [withdraw_stake], when
    it returns on a record of the pool presented, has acted on a record with
    [reward_debt] 0. *)
Theorem idle_pools_have_no_debt :
  (∀ w, reachable w →
     (∀ h p, pools w !! h = Some p → status p ≠ ACTIVE → reward_per_stake p = 0) ∧
     (∀ s h coin c w', stake h coin (begin_tx s w) = Ok c w' →
        reward_debt c = 0 ∧
        ∃ p, pools w !! h = Some p ∧ reward_per_stake p * coin_value coin = 0)) ∧
  (∀ w, reachable_scoped w →
     (∀ h p k c, pools w !! h = Some p → status p ≠ ACTIVE →
        contributors w !! k = Some c → pool_id c = h → reward_debt c = 0) ∧
     (∀ s h k amount c coin w',
        contributors w !! k = Some c → pool_id c = h →
        withdraw_stake h k amount (begin_tx s w) = Ok coin w' → reward_debt c = 0)).
Proof.
  split.
  - intros w Hr. pose proof (reachable_basic w Hr) as Hw.
    assert (∀ h p, pools w !! h = Some p → status p ≠ ACTIVE → reward_per_stake p = 0)
      as Hidle.
    { intros h p Hp Hst.
      destruct (Hw h p Hp) as (_ & _ & _ & _ & _ & _ & Hzero & _). by destruct (Hzero Hst). }
    split; [done|]. intros s h coin c w' Hstake.
    destruct (stake_Ok_pool _ _ _ _ _ Hstake) as [p Hp].
    pose proof (stake_spec h coin (begin_tx s w) p Hp) as Hspec. rewrite Hstake in Hspec.
    destruct Hspec as (Hst & _ & _ & _ & _ & -> & _).
    assert (reward_per_stake p = 0) as Hrps by (apply (Hidle h); [done|unfold_status; lia]).
    cbn [reward_debt]. rewrite Hrps. split; [done|]. exists p. split; [done|lia].
  - intros w Hr. pose proof (reachable_scoped_inv w Hr) as Hw. split.
    + intros h p k c Hp Hst Hc Hown. destruct (idle_pool w h p Hw Hp Hst) as [_ Hdebt].
      by apply (Hdebt k).
    + intros s h k amount c coin w' Hc Hown Hwd.
      destruct (withdraw_stake_Ok_pool _ _ _ _ _ _ Hwd) as [p Hp].
      pose proof (withdraw_stake_spec h k amount (begin_tx s w) p c Hp Hc) as Hspec.
      rewrite Hwd in Hspec. destruct Hspec as (Hst & _).
      destruct (idle_pool w h p Hw Hp) as [_ Hdebt]; [unfold_status; lia|].
      by apply (Hdebt k).
Qed.

Lemma idle_pools_have_no_debt_witness :
  reachable_scoped ready_store ∧
  (∃ c w', stake 0 (coin_of 5) (begin_tx 12 ready_store) = Ok c w' ∧ reward_debt c = 0) ∧
  ∀ k c, contributors ready_store !! k = Some c → pool_id c = 0 → reward_debt c = 0.
Proof.
  assert (reachable_scoped ready_store) as Hr.
  { apply reachable_scoped_execute_all; [constructor|vm_compute; reflexivity]. }
  split; [exact Hr|]. split.
  - eexists _, _. split; [vm_compute; reflexivity|].
    refine (proj1 (proj2 (proj1 idle_pools_have_no_debt ready_store
              (reachable_scoped_reachable _ Hr)) 12 0 (coin_of 5) _ _ _)).
    vm_compute. reflexivity.
  - intros k c Hk Hown.
    refine (proj1 (proj2 idle_pools_have_no_debt ready_store Hr) 0
              (mkValidatorPool 0 1000 1000 10 10 READY 0 0 (mkBalance 1000)) k c _ _ Hk Hown).
    + vm_compute. reflexivity.
    + vm_compute. discriminate.
Defined.

Lemma cross_pool_debt_typed :
  Forall (λ t, well_typed (tx_call t) = true) cross_pool_debt.
Proof. repeat constructor. Qed.

(** C9 as stated fails: after [cross_pool_debt], pool 3 is Collecting and its
    record 5 carries a [reward_debt] of 1, and [withdraw_stake] on pool 3
    then acts on that record. *)
Lemma idle_pool_record_with_debt :
  ¬ (∀ w, reachable w →
       ∀ h p k c, pools w !! h = Some p → status p ≠ ACTIVE →
                  contributors w !! k = Some c → pool_id c = h → reward_debt c = 0) ∧
  ∃ coin w', withdraw_stake 3 5 10 (begin_tx 10 (execute_all cross_pool_debt genesis))
             = Ok coin w'.
Proof.
  split.
  - intros Hall.
    assert (reachable (execute_all cross_pool_debt genesis)) as Hr.
    { apply reachable_execute_all; [constructor|apply cross_pool_debt_typed]. }
    specialize (Hall _ Hr 3 (mkValidatorPool 3 1000 10 10 0 COLLECTING 0 0 (mkBalance 10))
                  5 (mkContributor 5 3 10 10 1)).
    assert (1 = 0) as Hbad; [|lia].
    apply Hall; vm_compute; (reflexivity || discriminate).
  - eexists _, _. vm_compute. reflexivity.
Qed.

(** * Active pools *)

(** No transaction changes the status or the total stake of an Active pool. *)
Lemma active_pool_step w h p t :
  basic_inv w → pools w !! h = Some p → status p = ACTIVE →
  ∃ p', pools (execute t w) !! h = Some p' ∧ status p' = ACTIVE ∧
        total_stake p' = total_stake p.
Proof.
  intros Hw Hp Hst. unfold execute.
  destruct (run_tx t w) as [[] w'|] eqn:E; [|by exists p].
  destruct t as [s call].
  assert (∀ h' (q q' : ValidatorPool) (ps : gmap ID ValidatorPool),
            ps !! h = Some p → ps !! h' = Some q →
            (h' = h → status q' = ACTIVE ∧ total_stake q' = total_stake p) →
            ∃ p', <[h' := q']> ps !! h = Some p' ∧ status p' = ACTIVE ∧
                  total_stake p' = total_stake p) as Hupd.
  { intros h' q q' ps Hh Hh' Hsame. destruct (decide (h' = h)) as [->|Hne].
    - exists q'. rewrite lookup_insert_eq. by destruct (Hsame eq_refl).
    - exists p. by rewrite lookup_insert_ne. }
  destruct call as [|rs pct|h' coin|h' cap|h' coin|h' k|h' cap|h' k amount|k].
  - apply run_create_default_inv in E as (created & w1 & Hcr & ->).
    pose proof (create_pool_spec 1000000000 10 (begin_tx s w)) as Hspec.
    rewrite Hcr in Hspec. destruct Hspec as (_ & _ & Hpool & _ & ->).
    rewrite Hpool. exists p. cbn. destruct (Hw h p Hp) as [Hlt _].
    rewrite lookup_insert_ne by lia. done.
  - apply run_create_inv in E as (created & w1 & Hcr & ->).
    pose proof (create_pool_spec rs pct (begin_tx s w)) as Hspec.
    rewrite Hcr in Hspec. destruct Hspec as (_ & _ & Hpool & _ & ->).
    rewrite Hpool. exists p. cbn. destruct (Hw h p Hp) as [Hlt _].
    rewrite lookup_insert_ne by lia. done.
  - apply run_stake_inv in E as (q & c & w1 & Hq & Hstake & ->).
    pose proof (stake_spec h' coin (begin_tx s w) q Hq) as Hspec.
    rewrite Hstake in Hspec. destruct Hspec as (Hstq & _ & _ & _ & _ & _ & ->).
    cbn [pools with_contributors]. apply (Hupd h' q); try done.
    intros ->. rewrite Hp in Hq. injection Hq as <-. unfold_status. lia.
  - apply run_activate_inv in E as (q & Hq & Hact).
    pose proof (activate_pool_spec h' cap (begin_tx s w) q Hq) as Hspec.
    rewrite Hact in Hspec. destruct Hspec as (Hstq & _ & ->).
    cbn [pools]. apply (Hupd h' q); try done.
    intros ->. rewrite Hp in Hq. injection Hq as <-. unfold_status. lia.
  - apply run_record_inv in E as (q & Hq & Hrec).
    pose proof (record_reward_spec h' coin (begin_tx s w) q Hq) as Hspec.
    rewrite Hrec in Hspec. destruct Hspec as (Hstq & _ & _ & _ & _ & ->).
    cbn [pools]. apply (Hupd h' q); try done.
    intros ->. rewrite Hp in Hq. injection Hq as <-. done.
  - apply run_claim_inv in E as (q & c & coin & w1 & Hq & Hc & Hcl & ->).
    pose proof (claim_reward_spec h' k (begin_tx s w) q c Hq Hc) as Hspec.
    rewrite Hcl in Hspec.
    destruct Hspec as (Hstq & _ & _ & _ & [(_ & _ & _ & _ & _ & ->)|(_ & _ & ->)]).
    + cbn [pools with_coins]. apply (Hupd h' q); try done.
      intros ->. rewrite Hp in Hq. injection Hq as <-. done.
    + by exists p.
  - apply run_claim_operator_inv in E as (q & coin & w1 & Hq & Hcl & ->).
    pose proof (claim_operator_reward_spec h' cap (begin_tx s w) q Hq) as Hspec.
    rewrite Hcl in Hspec.
    destruct Hspec as (Hstq & _ & _ & [(_ & _ & _ & ->)|(_ & _ & ->)]).
    + cbn [pools with_coins]. apply (Hupd h' q); try done.
      intros ->. rewrite Hp in Hq. injection Hq as <-. done.
    + by exists p.
  - apply run_withdraw_inv in E as (q & c & coin & w1 & Hq & Hc & Hwd & ->).
    pose proof (withdraw_stake_spec h' k amount (begin_tx s w) q c Hq Hc) as Hspec.
    rewrite Hwd in Hspec. destruct Hspec as (Hstq & _ & _ & _ & _ & _ & _ & ->).
    cbn [pools with_coins]. apply (Hupd h' q); try done.
    intros ->. rewrite Hp in Hq. injection Hq as <-. unfold_status. lia.
  - apply run_destroy_inv in E as (c & _ & _ & ->). by exists p.
Qed.

Lemma active_pool_future w w' h p :
  basic_inv w → pools w !! h = Some p → status p = ACTIVE → future w w' →
  ∃ p', pools w' !! h = Some p' ∧ status p' = ACTIVE ∧ total_stake p' = total_stake p.
Proof.
  intros Hw Hp Hst Hfut. induction Hfut as [|t w w' Hfut IH Hty]; [by exists p|].
  destruct (IH Hw Hp) as (p1 & Hp1 & Hst1 & Htot1).
  destruct (active_pool_step w' h p1 t (future_basic w w' Hw Hfut) Hp1 Hst1)
    as (p2 & Hp2 & Hst2 & Htot2).
  exists p2. repeat split; [done..|lia].
Qed.

(** C10 (amended).  In every reachable store an Active pool has
    [total_stake >= required_stake > 0], and keeps its status and its
    [total_stake] in every store reached from there; a [record_reward] that
    returns on it has taken the [total_stake > 0] branch: it adds
    floor(amount * 1000000 / total_stake), which can be 0, to
    [reward_per_stake].  In every store reached by a history in which each
    Contributor Record is presented only with the pool it was staked into,
    for each live record of an Active pool [reward_debt] is at most
    floor(staked_amount * reward_per_stake / 1000000): the subtraction in
    [claim_reward] and [calculate_pending_reward] does not underflow, and an
    arithmetic abort of either on such a record is the overflow of one of the
    two products. *)
Theorem active_pool_is_settled :
  (∀ w h p, reachable w → pools w !! h = Some p → status p = ACTIVE →
     0 < required_stake p ≤ total_stake p ∧
     (∀ w', future w w' →
        ∃ p', pools w' !! h = Some p' ∧ status p' = ACTIVE ∧
              total_stake p' = total_stake p) ∧
     (∀ s coin w', record_reward h coin (begin_tx s w) = Ok tt w' →
        ∃ p', pools w' !! h = Some p' ∧
          reward_per_stake p' =
            reward_per_stake p + coin_value coin * 1000000 / total_stake p ∧
          reward_per_stake p ≤ reward_per_stake p')) ∧
  (∀ w h p, reachable_scoped w → pools w !! h = Some p → status p = ACTIVE →
     ∀ k c, contributors w !! k = Some c → pool_id c = h →
       reward_debt c ≤ settled p c ∧
       ∀ s w',
         (claim_reward h k (begin_tx s w) = Abort ARITHMETIC_ERROR w' ∨
          calculate_pending_reward h k (begin_tx s w) = Abort ARITHMETIC_ERROR w') →
         u64_max < staked_amount c * reward_per_stake p ∨
         u64_max < pending p c * (100 - operator_reward_pct p)).
Proof.
  split.
  - intros w h p Hr Hp Hst. pose proof (reachable_basic w Hr) as Hw.
    destruct (Hw h p Hp) as (_ & _ & Hreq & _ & _ & Hready & _).
    assert (required_stake p ≤ total_stake p) as Hge by (apply Hready; unfold_status; lia).
    split; [lia|]. split.
    + intros w' Hfut. by apply (active_pool_future w w' h p).
    + intros s coin w' Hrec.
      pose proof (record_reward_spec h coin (begin_tx s w) p Hp) as Hspec.
      rewrite Hrec in Hspec. destruct Hspec as (_ & Hv & _ & _ & _ & ->).
      eexists. split; [cbn [pools]; apply lookup_insert_eq|].
      cbn [reward_per_stake set_reward_per_stake].
      pose proof (record_rps_ge p (coin_value coin) Hv) as Hmono.
      split; [|done]. unfold record_rps.
      destruct (total_stake p >? 0) eqn:E; [done|]. zbool. lia.
  - intros w h p Hr Hp Hst k c Hk Hown. pose proof (reachable_scoped_inv w Hr) as Hw.
    pose proof Hw as [Hps Hcs].
    destruct (Hps h p Hp) as (_ & _ & _ & _ & Hpct & _).
    destruct (Hcs k c Hk) as (_ & _ & _ & _ & Hsettled).
    rewrite Hown in Hsettled. specialize (Hsettled p Hp).
    assert (reward_debt c ≤ settled p c) as Hle.
    { unfold settled. apply Z.div_le_lower_bound; lia. }
    split; [done|]. intros s w' [Habort|Habort].
    + pose proof (claim_reward_spec h k (begin_tx s w) p c Hp Hk) as Hspec.
      rewrite Habort in Hspec. destruct Hspec as (_ & _ & [?|[?|(_ & [?|?])]]); lia.
    + pose proof (calculate_pending_reward_spec h k (begin_tx s w) p c Hp Hk) as Hspec.
      rewrite Habort in Hspec. destruct Hspec as (_ & _ & _ & [?|[?|[?|?]]]); lia.
Qed.

Lemma active_pool_is_settled_witness :
  reachable_scoped active_store ∧
  (∀ w', future active_store w' →
     ∃ p', pools w' !! 0 = Some p' ∧ status p' = ACTIVE ∧ total_stake p' = 1000) ∧
  ∀ k c, contributors active_store !! k = Some c → pool_id c = 0 →
         reward_debt c ≤ settled (mkValidatorPool 0 1000 1000 10 10 ACTIVE 100 100000
                                     (mkBalance 1100)) c.
Proof.
  assert (reachable_scoped active_store) as Hr.
  { apply reachable_scoped_execute_all; [constructor|vm_compute; reflexivity]. }
  split; [exact Hr|]. split.
  - refine (proj1 (proj2 (proj1 active_pool_is_settled active_store 0
              (mkValidatorPool 0 1000 1000 10 10 ACTIVE 100 100000 (mkBalance 1100))
              (reachable_scoped_reachable _ Hr) _ _))).
    + vm_compute. reflexivity.
    + reflexivity.
  - intros k c Hk Hown.
    refine (proj1 (proj2 active_pool_is_settled active_store 0 _ Hr _ _ k c Hk Hown)).
    + vm_compute. reflexivity.
    + reflexivity.
Defined.

Lemma before_small_reward_typed :
  Forall (λ t, well_typed (tx_call t) = true) before_small_reward.
Proof. repeat constructor. Qed.

Lemma two_active_pools_typed :
  Forall (λ t, well_typed (tx_call t) = true) two_active_pools.
Proof. repeat constructor. Qed.

(** C10 as stated fails twice.  On an active pool of 2000000 a
    [record_reward] of 1 returns and leaves [reward_per_stake] at 0.  And
    after [two_active_pools], record 2 (debt 100) presented with pool 4
    ([reward_per_stake] 0) makes the subtraction of [claim_reward]
    underflow. *)
Lemma active_pool_claims_fail :
  ¬ (∀ w, reachable w →
       ∀ s h coin p w' p',
         pools w !! h = Some p → record_reward h coin (begin_tx s w) = Ok tt w' →
         pools w' !! h = Some p' → reward_per_stake p < reward_per_stake p') ∧
  ¬ (∀ w, reachable w →
       ∀ h p k c, pools w !! h = Some p → status p = ACTIVE →
                  contributors w !! k = Some c → reward_debt c ≤ settled p c) ∧
  ∃ w', claim_reward 4 2 (begin_tx 10 (execute_all two_active_pools genesis))
        = Abort ARITHMETIC_ERROR w'.
Proof.
  split; [|split].
  - intros Hall.
    assert (reachable (execute_all before_small_reward genesis)) as Hr.
    { apply reachable_execute_all; [constructor|apply before_small_reward_typed]. }
    specialize (Hall _ Hr 10 0 (coin_of 1)
      (mkValidatorPool 0 2000000 2000000 10 10 ACTIVE 0 0 (mkBalance 2000000))).
    assert (0 < 0) as Hbad; [|lia].
    eapply (Hall _ (mkValidatorPool 0 2000000 2000000 10 10 ACTIVE 1 0 (mkBalance 2000001)));
      vm_compute; reflexivity.
  - intros Hall.
    assert (reachable (execute_all two_active_pools genesis)) as Hr.
    { apply reachable_execute_all; [constructor|apply two_active_pools_typed]. }
    specialize (Hall _ Hr 4 (mkValidatorPool 4 10 10 10 0 ACTIVE 0 0 (mkBalance 10))
                  2 (mkContributor 2 0 10 1000 100)).
    assert (100 ≤ 0) as Hbad; [|lia].
    apply Hall; vm_compute; reflexivity.
  - eexists. vm_compute. reflexivity.
Qed.
(** * Every transaction that returns has one of the effects *)

Lemma run_tx_effect s call w w' :
  run_tx (mkTx s call) w = Ok tt w' → effect s w call w'.
Proof.
  intros E.
  destruct call as [|rs pct|h coin|h cap|h coin|h k|h cap|h k amount|k].
  - apply run_create_default_inv in E as (created & w1 & Hcr & ->).
    pose proof (create_pool_spec 1000000000 10 (begin_tx s w)) as Hspec.
    rewrite Hcr in Hspec. destruct Hspec as (_ & _ & Hpool & Hcap & ->).
    rewrite Hpool, Hcap. exact (effect_create_default s w).
  - apply run_create_inv in E as (created & w1 & Hcr & ->).
    pose proof (create_pool_spec rs pct (begin_tx s w)) as Hspec.
    rewrite Hcr in Hspec. destruct Hspec as (Hpct & Hrs & Hpool & Hcap & ->).
    rewrite Hpool, Hcap. exact (effect_create s w rs pct Hrs Hpct).
  - apply run_stake_inv in E as (p & c & w1 & Hp & Hst & ->).
    pose proof (stake_spec h coin (begin_tx s w) p Hp) as Hspec.
    rewrite Hst in Hspec. destruct Hspec as (? & ? & ? & ? & ? & -> & ->).
    by refine (effect_stake s w h coin p _ _ _ _ _ _).
  - pose proof E as E'. apply run_activate_inv in E as (p & Hp & Hact).
    assert (∃ r, caps w !! cap = Some r) as [r Hr].
    { unfold run_tx in E'. cbn [tx_call tx_sender resolve] in E'.
      apply bind_Ok_inv in E' as (? & w1 & Hres & _).
      apply bind_Ok_inv in Hres as (? & w2 & Hres & Hcap).
      apply read_pool_Ok_inv in Hres as (? & _ & _ & ->).
      unfold read_cap in Hcap. cbn [caps begin_tx with_ctx] in Hcap.
      destruct (caps w !! cap); [eauto|done]. }
    pose proof (activate_pool_spec h cap (begin_tx s w) p Hp) as Hspec.
    rewrite Hact in Hspec. destruct Hspec as (? & ? & ->).
    by refine (effect_activate s w h cap p r _ _ _ _).
  - apply run_record_inv in E as (p & Hp & Hrec).
    pose proof (record_reward_spec h coin (begin_tx s w) p Hp) as Hspec.
    rewrite Hrec in Hspec. destruct Hspec as (? & ? & ? & ? & ? & ->).
    by refine (effect_record s w h coin p _ _ _ _ _ _).
  - apply run_claim_inv in E as (p & c & coin & w1 & Hp & Hc & Hcl & ->).
    pose proof (claim_reward_spec h k (begin_tx s w) p c Hp Hc) as Hspec.
    rewrite Hcl in Hspec.
    destruct Hspec as (? & ? & ? & ? & [(? & ? & ? & ? & -> & ->)|(? & -> & ->)]).
    + by refine (effect_claim s w h k p c _ _ _ _ _ _ _ _ _).
    + refine (effect_claim_nothing s w h k p c _ _ _ _ _ _); try done.
      unfold pending in *. lia.
  - pose proof E as E'.
    apply run_claim_operator_inv in E as (p & coin & w1 & Hp & Hcl & ->).
    assert (∃ r, caps w !! cap = Some r) as [r Hr].
    { unfold run_tx in E'. cbn [tx_call tx_sender resolve] in E'.
      apply bind_Ok_inv in E' as (? & w2 & Hres & _).
      apply bind_Ok_inv in Hres as (? & w3 & Hres & Hcap).
      apply read_pool_Ok_inv in Hres as (? & _ & _ & ->).
      unfold read_cap in Hcap. cbn [caps begin_tx with_ctx] in Hcap.
      destruct (caps w !! cap); [eauto|done]. }
    pose proof (claim_operator_reward_spec h cap (begin_tx s w) p Hp) as Hspec.
    rewrite Hcl in Hspec.
    destruct Hspec as (? & ? & ? & [(? & ? & -> & ->)|(? & -> & ->)]).
    + by refine (effect_claim_operator s w h cap p r _ _ _ _ _ _ _).
    + by refine (effect_claim_operator_nothing s w h cap p r _ _ _ _ _ _).
  - apply run_withdraw_inv in E as (p & c & coin & w1 & Hp & Hc & Hwd & ->).
    pose proof (withdraw_stake_spec h k amount (begin_tx s w) p c Hp Hc) as Hspec.
    rewrite Hwd in Hspec. destruct Hspec as (? & ? & ? & ? & ? & ? & -> & ->).
    by refine (effect_withdraw s w h k amount p c _ _ _ _ _ _ _ _).
  - apply run_destroy_inv in E as (c & Hc & Hz & ->).
    by refine (effect_destroy s w k c _ _).
Qed.

(** A transaction either returns, with one of the effects, or aborts and
    leaves the store as it was. *)
Lemma execute_effect t w :
  effect (tx_sender t) w (tx_call t) (execute t w) ∨
  (execute t w = w ∧ ∃ e w', run_tx t w = Abort e w').
Proof.
  unfold execute. destruct (run_tx t w) as [[] w'|e w'] eqn:E.
  - left. destruct t as [s call]. by apply run_tx_effect.
  - right. eauto.
Qed.
(** * Every reachable store is well formed *)

Lemma store_wf_genesis : store_wf genesis.
Proof.
  unfold store_wf. cbn. split; [|split]; intros ? ? Hl; by rewrite lookup_empty in Hl.
Qed.

(** The store after a call that creates no pool and no cap. *)
Lemma store_wf_intro w ps' cs' co' ev' s' n' :
  store_wf w → ids_created (ctx w) ≤ n' →
  (∀ h p', ps' !! h = Some p' → pool_wf h p' ∧ is_Some (pools w !! h)) →
  (∀ h, is_Some (pools w !! h) → is_Some (ps' !! h)) →
  (∀ k c, cs' !! k = Some c →
     0 ≤ k < n' ∧ record_wf (pools w) k c ∧ caps w !! k = None ∧ pools w !! k = None) →
  store_wf (mkWorld ps' cs' (caps w) co' ev' (mkTxContext s' n')).
Proof.
  intros (Hps & Hcs & Hcp) Hn Hps' Hkeep Hcs'.
  split; [|split]; cbn [pools contributors caps ctx ids_created].
  - intros h p' H. destruct (Hps' h p' H) as [Hwf [q Hq]].
    destruct (Hps h q Hq) as (? & _ & ? & _ & ?).
    split; [lia|]. split; [done|]. split; [done|]. split; [|done].
    destruct (cs' !! h) as [c|] eqn:E; [|done].
    destruct (Hcs' h c E) as (_ & _ & _ & Hnone).
    pose proof (eq_trans (eq_sym Hq) Hnone). discriminate.
  - intros k c H. destruct (Hcs' k c H) as (? & (? & ? & ? & ?) & ? & _).
    split; [lia|]. split; [|done]. split; [done|]. split; [done|]. split; [done|]. auto.
  - intros k r H. destruct (Hcp k r H) as (? & ? & ? & ?).
    split; [lia|]. split; [done|]. split; [done|]. auto.
Qed.

Lemma pools_update_wf w h p p' :
  store_wf w → pools w !! h = Some p → pool_wf h p' →
  (∀ h' q, <[h := p']> (pools w) !! h' = Some q → pool_wf h' q ∧ is_Some (pools w !! h')) ∧
  (∀ h', is_Some (pools w !! h') → is_Some (<[h := p']> (pools w) !! h')).
Proof.
  intros (Hps & _) Hp Hwf. split.
  - intros h' q Hq. apply lookup_insert_Some in Hq as [[<- <-]|[Hne Hq]].
    + split; [done|eauto].
    + split; [|eauto]. by destruct (Hps h' q Hq) as (_ & ? & _).
  - intros h' Hsome. apply lookup_insert_is_Some'. by right.
Qed.

Lemma pools_same_wf w :
  store_wf w →
  (∀ h' q, pools w !! h' = Some q → pool_wf h' q ∧ is_Some (pools w !! h')) ∧
  (∀ h', is_Some (pools w !! h') → is_Some (pools w !! h')).
Proof.
  intros (Hps & _). split; [|done].
  intros h' q Hq. split; [|eauto]. by destruct (Hps h' q Hq) as (_ & ? & _).
Qed.

Lemma records_wf_of w k c :
  store_wf w → contributors w !! k = Some c →
  0 ≤ k < ids_created (ctx w) ∧ record_wf (pools w) k c ∧ caps w !! k = None ∧
  pools w !! k = None.
Proof.
  intros (Hps & Hcs & _) Hc. destruct (Hcs k c Hc) as (? & ? & ?).
  split; [lia|]. split; [done|]. split; [done|].
  destruct (pools w !! k) as [q|] eqn:E; [|done].
  destruct (Hps k q E) as (_ & _ & _ & Hnone & _).
  pose proof (eq_trans (eq_sym Hc) Hnone). discriminate.
Qed.

Lemma records_same_wf w n' :
  store_wf w → ids_created (ctx w) ≤ n' →
  ∀ k c, contributors w !! k = Some c →
    0 ≤ k < n' ∧ record_wf (pools w) k c ∧ caps w !! k = None ∧ pools w !! k = None.
Proof.
  intros Hw Hn k c Hc. destruct (records_wf_of w k c Hw Hc) as (? & ? & ? & ?).
  split; [lia|done].
Qed.

Lemma records_update_wf w k c c' n' :
  store_wf w → ids_created (ctx w) ≤ n' →
  contributors w !! k = Some c → record_wf (pools w) k c' →
  ∀ k' d, <[k := c']> (contributors w) !! k' = Some d →
    0 ≤ k' < n' ∧ record_wf (pools w) k' d ∧ caps w !! k' = None ∧ pools w !! k' = None.
Proof.
  intros Hw Hn Hc Hwf k' d Hd. apply lookup_insert_Some in Hd as [[<- <-]|[Hne Hd]].
  - destruct (records_wf_of w k c Hw Hc) as (? & ? & ? & ?). split; [lia|done].
  - by apply records_same_wf.
Qed.

Lemma fresh_ids w :
  store_wf w →
  let n := ids_created (ctx w) in
  ∀ k, n ≤ k → pools w !! k = None ∧ contributors w !! k = None ∧ caps w !! k = None.
Proof.
  intros (Hps & Hcs & Hcp) n k Hk. repeat split.
  - destruct (pools w !! k) as [q|] eqn:E; [|done]. destruct (Hps k q E) as (? & _). lia.
  - destruct (contributors w !! k) as [q|] eqn:E; [|done].
    destruct (Hcs k q E) as (? & _). lia.
  - destruct (caps w !! k) as [q|] eqn:E; [|done]. destruct (Hcp k q E) as (? & _). lia.
Qed.

Lemma store_wf_create s rs pct w :
  store_wf w → 0 ≤ ids_created (ctx w) → 0 < rs ≤ u64_max → 0 ≤ pct ≤ 100 →
  store_wf (create_effect s rs pct w).
Proof.
  intros Hw Hn0 Hrs Hpct. pose proof (fresh_ids w Hw) as Hfresh. cbv zeta in Hfresh.
  destruct Hw as (Hps & Hcs & Hcp). unfold create_effect.
  set (n := ids_created (ctx w)) in *.
  split; [|split]; cbn [pools contributors caps ctx ids_created].
  - intros h p Hp. apply lookup_insert_Some in Hp as [[<- <-]|[Hne Hp]].
    + split; [lia|]. split.
      { unfold pool_wf, in_u64. cbn. unfold_status. unfold u64_max in *.
        repeat split; try lia. }
      rewrite lookup_insert_eq. split; [done|]. split; [apply Hfresh; lia|].
      rewrite lookup_insert_ne by lia. apply Hfresh. lia.
    + destruct (Hps h p Hp) as (? & ? & Hcap & ? & ?).
      split; [lia|]. split; [done|].
      rewrite !lookup_insert_ne by lia. done.
  - intros k c Hc. destruct (Hcs k c Hc) as (? & (? & ? & ? & Hsome) & ?).
    split; [lia|]. split.
    + split; [done|]. split; [done|]. split; [done|].
      apply lookup_insert_is_Some'. by right.
    + rewrite lookup_insert_ne by lia. done.
  - intros k r Hr. apply lookup_insert_Some in Hr as [[<- <-]|[Hne Hr]].
    + split; [lia|]. unfold cap_wf. cbn. split; [done|]. split; [lia|].
      replace (n + 1 - 1) with n by lia. rewrite lookup_insert_eq. eauto.
    + destruct (Hcp k r Hr) as (? & ? & ? & Hsome). split; [lia|].
      split; [done|]. split; [done|]. apply lookup_insert_is_Some'. by right.
Qed.

Lemma settled_in_u64 p c :
  0 ≤ staked_amount c → 0 ≤ reward_per_stake p →
  staked_amount c * reward_per_stake p ≤ u64_max → in_u64 (settled p c).
Proof.
  intros Hs Hr Hle. destruct (settled_bounds p c Hs Hr) as [H0 H1].
  unfold in_u64. split; [done|]. nia.
Qed.

Lemma effect_store_wf s w call w' :
  store_wf w → 0 ≤ ids_created (ctx w) → well_typed call = true →
  effect s w call w' → store_wf w'.
Proof.
  intros Hw Hn0 Hty Heff. pose proof Hw as (Hps & Hcs & Hcp).
  destruct Heff as [|rs pct Hrs Hpct|h coin p Hp Hst Hv Hbal Htot Hmul
    |h cap p r Hp Hr Hst Hop|h coin p Hp Hst Hv Hbal Hacc Hrps
    |h k p c Hp Hc Hst Hown Hmul Hpen Hpct Hgross Hbal
    |h k p c Hp Hc Hst Hown Hmul Hpen
    |h cap p r Hp Hr Hst Hop Hmul Hshare Hbal
    |h cap p r Hp Hr Hst Hop Hmul Hshare
    |h k amount p c Hp Hc Hst Hown Hamt Hle Htot Hbal
    |k c Hc Hz].
  - apply store_wf_create; try done; unfold u64_max; lia.
  - cbn [well_typed] in Hty. unfold is_u64, is_u8 in Hty. zbool.
    apply store_wf_create; try done; lia.
  - destruct (Hps h p Hp) as (Hh & Hwf & _). unfold stake_effect.
    assert (pool_wf h (set_status (stake_status p (coin_value coin))
              (set_total_stake (total_stake p + coin_value coin)
                 (set_balance (mkBalance (value (balance p) + coin_value coin)) p))))
      as Hwf'.
    { unfold pool_wf, in_u64, stake_status in *. pool_fields.
      destruct ((_ >=? _) && _) eqn:E; zbool; unfold_status; repeat split; lia. }
    destruct (pools_update_wf w h p _ Hw Hp Hwf') as [H3 H4].
    pose proof (fresh_ids w Hw) as Hfresh. cbv zeta in Hfresh.
    apply (store_wf_intro w); try done; try lia.
    intros k' d Hd. apply lookup_insert_Some in Hd as [[<- <-]|[Hne Hd]].
    + split; [lia|]. split; [|split; apply Hfresh; lia].
      destruct Hwf as (Hid & _ & Hts & _ & Hr & _). unfold record_wf, in_u64 in *. cbn.
      split; [done|]. split; [lia|]. split.
      * split; [apply Z.div_pos; [nia|lia]|].
        assert (reward_per_stake p * coin_value coin / 1000000
                ≤ reward_per_stake p * coin_value coin); [|lia].
        apply Z.div_le_upper_bound; [lia|nia].
      * rewrite Hid. eauto.
    + apply records_same_wf; [done|lia|done].
  - destruct (Hps h p Hp) as (Hh & Hwf & _). unfold activate_effect.
    assert (pool_wf h (set_status ACTIVE p)) as Hwf'.
    { unfold pool_wf, in_u64 in *. pool_fields. unfold_status. repeat split; lia. }
    destruct (pools_update_wf w h p _ Hw Hp Hwf') as [H3 H4].
    apply (store_wf_intro w); try done; try lia. apply records_same_wf; [done|lia].
  - destruct (Hps h p Hp) as (Hh & Hwf & _). unfold record_effect.
    pose proof (record_rps_ge p (coin_value coin) Hv) as Hge.
    assert (pool_wf h (set_reward_per_stake (record_rps p (coin_value coin))
              (set_accumulated_reward (accumulated_reward p + coin_value coin)
                 (set_balance (mkBalance (value (balance p) + coin_value coin)) p))))
      as Hwf'.
    { assert (record_rps p (coin_value coin) ≤ u64_max) as Hle.
      { destruct (decide (0 < total_stake p)) as [Hpos|Hzero]; [by apply Hrps|].
        unfold record_rps. destruct (total_stake p >? 0) eqn:E; zbool; [lia|].
        unfold pool_wf, in_u64 in Hwf. lia. }
      unfold pool_wf, in_u64 in *. pool_fields. unfold_status. repeat split; lia. }
    destruct (pools_update_wf w h p _ Hw Hp Hwf') as [H3 H4].
    apply (store_wf_intro w); try done; try lia. apply records_same_wf; [done|lia].
  - destruct (Hps h p Hp) as (Hh & Hwf & _). unfold claim_effect.
    destruct (user_share_bounds p c Hpen Hpct) as [Hu0 Hu1].
    assert (pool_wf h (set_balance (mkBalance (value (balance p) - user_share p c)) p))
      as Hwf'.
    { unfold pool_wf, in_u64 in *. pool_fields. unfold_status. repeat split; lia. }
    destruct (pools_update_wf w h p _ Hw Hp Hwf') as [H3 H4].
    apply (store_wf_intro w); try done; try lia.
    apply (records_update_wf w k c); [done|lia|done|].
    destruct (Hcs k c Hc) as (_ & (? & ? & ? & ?) & _).
    unfold record_wf. pool_fields. split; [done|]. split; [done|]. split; [|done].
    apply settled_in_u64; unfold pool_wf, in_u64 in *; lia.
  - unfold empty_effect. destruct (pools_same_wf w Hw) as [H3 H4].
    apply (store_wf_intro w); try done; try lia. apply records_same_wf; [done|lia].
  - destruct (Hps h p Hp) as (Hh & Hwf & _). unfold claim_operator_effect.
    assert (pool_wf h (set_balance (mkBalance (value (balance p) - operator_share p))
                         (set_accumulated_reward 0 p))) as Hwf'.
    { unfold pool_wf, in_u64 in *. pool_fields. unfold_status. unfold u64_max in *.
      repeat split; lia. }
    destruct (pools_update_wf w h p _ Hw Hp Hwf') as [H3 H4].
    apply (store_wf_intro w); try done; try lia. apply records_same_wf; [done|lia].
  - unfold empty_effect. destruct (pools_same_wf w Hw) as [H3 H4].
    apply (store_wf_intro w); try done; try lia. apply records_same_wf; [done|lia].
  - destruct (Hps h p Hp) as (Hh & Hwf & _). unfold withdraw_effect.
    assert (pool_wf h (set_balance (mkBalance (value (balance p) - amount))
              (set_status (withdraw_status p amount)
                 (set_total_stake (total_stake p - amount) p)))) as Hwf'.
    { unfold pool_wf, in_u64, withdraw_status in *. pool_fields.
      destruct ((_ <? _) && _) eqn:E; zbool; unfold_status; repeat split; lia. }
    destruct (pools_update_wf w h p _ Hw Hp Hwf') as [H3 H4].
    apply (store_wf_intro w); try done; try lia.
    apply (records_update_wf w k c); [done|lia|done|].
    destruct (Hcs k c Hc) as (_ & (? & ? & ? & ?) & _).
    unfold record_wf. pool_fields. split; [done|]. split; [unfold in_u64 in *; lia|].
    split; done.
  - unfold destroy_effect. destruct (pools_same_wf w Hw) as [H3 H4].
    apply (store_wf_intro w); try done; try lia.
    intros k' d Hd. apply lookup_delete_Some in Hd as [_ Hd].
    apply records_same_wf; [done|lia|done].
Qed.

Lemma execute_store_wf t w :
  store_wf w ∧ 0 ≤ ids_created (ctx w) → well_typed (tx_call t) = true →
  store_wf (execute t w) ∧ 0 ≤ ids_created (ctx (execute t w)).
Proof.
  intros [Hw Hn] Hty. destruct (execute_effect t w) as [Heff|[-> _]]; [|done].
  split; [by apply (effect_store_wf (tx_sender t) w (tx_call t))|].
  destruct Heff; cbn; lia.
Qed.

Lemma reachable_wf w : reachable w → store_wf w ∧ 0 ≤ ids_created (ctx w).
Proof.
  induction 1 as [|t w Hr IH Hty]; [split; [apply store_wf_genesis|done]|].
  by apply execute_store_wf.
Qed.

Lemma future_wf w w' :
  store_wf w ∧ 0 ≤ ids_created (ctx w) → future w w' →
  store_wf w' ∧ 0 ≤ ids_created (ctx w').
Proof.
  intros Hw. induction 1 as [|t w w' _ IH Hty]; [done|].
  apply execute_store_wf; auto.
Qed.

(** * Typed histories *)

Lemma all_typed_Forall txs :
  all_typed txs = true → Forall (λ t, well_typed (tx_call t) = true) txs.
Proof.
  induction txs as [|t txs IH]; [constructor|].
  cbn. intros [Ht Hrest]%andb_true_iff. constructor; auto.
Qed.

Lemma reachable_typed txs : all_typed txs = true → reachable (execute_all txs genesis).
Proof.
  intros Hty. apply reachable_execute_all; [constructor|by apply all_typed_Forall].
Qed.

Lemma future_typed txs w : all_typed txs = true → future w (execute_all txs w).
Proof.
  induction txs as [|t txs IH] using rev_ind; intros Hty; [constructor|].
  unfold all_typed in Hty. rewrite forallb_app in Hty.
  apply andb_true_iff in Hty as [Hrest Ht]. cbn in Ht. rewrite andb_true_r in Ht.
  unfold execute_all. rewrite foldl_app. cbn [foldl].
  apply future_execute; [by apply IH|done].
Qed.
(** * Conservation of value *)

Lemma held_update w h p p' cs cp co ev c :
  pools w !! h = Some p →
  held (mkWorld (<[h := p']> (pools w)) cs cp co ev c)
  = held w - value (balance p) + value (balance p').
Proof.
  intros Hp. unfold held. cbn [pools].
  rewrite <- (insert_delete_eq (pools w) h p').
  rewrite map_fold_insert_L; [|intros; lia|apply lookup_delete_eq].
  rewrite (map_fold_delete_L _ 0 h p (pools w)); [lia|intros; lia|done].
Qed.

Lemma held_insert_fresh w h p cs cp co ev c :
  pools w !! h = None →
  held (mkWorld (<[h := p]> (pools w)) cs cp co ev c) = held w + value (balance p).
Proof.
  intros Hp. unfold held. cbn [pools].
  rewrite map_fold_insert_L; [lia|intros; lia|done].
Qed.

Lemma paid_out_snoc ps cs cp co ev c a coin :
  paid_out (mkWorld ps cs cp (co ++ [(a, coin)]) ev c)
  = paid_out (mkWorld ps cs cp co ev c) + coin_value coin.
Proof.
  unfold paid_out. cbn [coins]. induction co as [|x co IH]; cbn; [lia|].
  cbn in IH. rewrite IH. lia.
Qed.

Lemma effect_conserves s w call w' :
  store_wf w → effect s w call w' →
  held w' + paid_out w' = held w + paid_out w + taken_in call.
Proof.
  intros Hw Heff. pose proof (fresh_ids w Hw) as Hfresh. cbv zeta in Hfresh.
  destruct w as [ps cs cp co ev [snd n]].
  destruct Heff; cbn [taken_in];
    unfold create_effect, stake_effect, activate_effect, record_effect, claim_effect,
      empty_effect, claim_operator_effect, withdraw_effect, destroy_effect;
    cbn [pools contributors caps coins events ctx ids_created sender] in *;
    rewrite ?paid_out_snoc;
    try (erewrite (held_update (mkWorld ps cs cp co ev (mkTxContext snd n))) by eassumption);
    try (rewrite (held_insert_fresh (mkWorld ps cs cp co ev (mkTxContext snd n)))
           by (apply Hfresh; lia));
    unfold held, paid_out; pool_fields; cbn [pools coins coin_value coin_balance value];
    lia.
Qed.

Lemma conservation_from txs w :
  store_wf w ∧ 0 ≤ ids_created (ctx w) → all_typed txs = true →
  held (execute_all txs w) + paid_out (execute_all txs w)
  = held w + paid_out w + deposited txs w.
Proof.
  revert w. induction txs as [|t txs IH]; intros w Hw Hty; [cbn; lia|].
  cbn in Hty. apply andb_true_iff in Hty as [Ht Hty].
  cbn [execute_all foldl deposited].
  change (foldl (λ w t, execute t w) (execute t w) txs) with (execute_all txs (execute t w)).
  rewrite (IH (execute t w)); [|by apply execute_store_wf|done].
  unfold execute. destruct (run_tx t w) as [[] w'|e w'] eqn:E; [|lia].
  destruct t as [s call]. apply run_tx_effect in E.
  rewrite (effect_conserves s w call w') by (done || apply Hw). cbn [tx_call]. lia.
Qed.

(** X1.  Value is conserved: after any history of well-typed transactions
    from the empty store, what the pools hold together plus the coins paid
    out to callers is exactly what the stakes and rewards that returned have
    brought in.  Nothing is minted and nothing is lost, whichever records and
    caps the calls present. *)
Theorem value_is_conserved txs :
  all_typed txs = true →
  held (execute_all txs genesis) + paid_out (execute_all txs genesis)
  = deposited txs genesis.
Proof.
  intros Hty. rewrite conservation_from; [|split; [apply store_wf_genesis|done]|done].
  unfold held, paid_out. cbn [pools coins genesis]. rewrite map_fold_empty. cbn. lia.
Qed.

Lemma value_is_conserved_witness :
  all_typed cross_pool_claim = true ∧
  held (execute_all cross_pool_claim genesis)
  + paid_out (execute_all cross_pool_claim genesis)
  = deposited cross_pool_claim genesis.
Proof.
  split; [vm_compute; reflexivity|].
  apply (value_is_conserved cross_pool_claim). vm_compute; reflexivity.
Defined.
(** * What transactions keep *)

Lemma execute_cases t w :
  ∃ w', execute t w = w' ∧ (effect (tx_sender t) w (tx_call t) w' ∨ w' = w).
Proof.
  exists (execute t w). split; [done|].
  destruct (execute_effect t w) as [?|[? _]]; auto.
Qed.

(** Case analysis on what [execute_cases] gives for the transaction [t]: one
    goal for a return, where [Heff] is the effect, and one for an abort. *)
Ltac exec_cases H t Heff :=
  let w' := fresh "w'" in
  let Hex := fresh "Hex" in
  destruct H as (w' & Hex & [Heff|Heff]);
  rewrite ?Hex in *; clear Hex;
  [destruct t as [?s ?call]; cbn [tx_sender tx_call] in *|subst w'].

Ltac unfold_effects :=
  unfold create_effect, stake_effect, activate_effect, record_effect, claim_effect,
    empty_effect, claim_operator_effect, withdraw_effect, destroy_effect in *;
  cbn [pools contributors caps coins events ctx ids_created sender] in *.

Lemma pool_kept_refl p : pool_kept p p.
Proof. unfold pool_kept. repeat split; lia. Qed.

Lemma pool_kept_trans p1 p2 p3 : pool_kept p1 p2 → pool_kept p2 p3 → pool_kept p1 p3.
Proof.
  unfold pool_kept. intros (? & ? & ? & ? & ?) (? & ? & ? & ? & ?).
  repeat split; congruence || lia.
Qed.

Lemma pool_kept_insert (ps : gmap ID ValidatorPool) h p h0 q q' :
  ps !! h = Some p → ps !! h0 = Some q → pool_kept q q' →
  ∃ p', <[h0 := q']> ps !! h = Some p' ∧ pool_kept p p'.
Proof.
  intros Hp Hq Hkept. destruct (decide (h0 = h)) as [->|Hne].
  - exists q'. rewrite lookup_insert_eq. split; [done|].
    pose proof (eq_trans (eq_sym Hp) Hq) as [= ->]. done.
  - exists p. rewrite lookup_insert_ne by done. split; [done|apply pool_kept_refl].
Qed.

Lemma pool_kept_step w h p t :
  store_wf w → pools w !! h = Some p →
  ∃ p', pools (execute t w) !! h = Some p' ∧ pool_kept p p'.
Proof.
  intros Hw Hp. pose proof (fresh_ids w Hw) as Hfresh. cbv zeta in Hfresh.
  exec_cases (execute_cases t w) t Heff;
    [|exists p; split; [done|apply pool_kept_refl]].
  assert (h < ids_created (ctx w)) as Hlt.
  { destruct Hw as (Hps & _). destruct (Hps h p Hp) as (? & _). lia. }
  destruct Heff as [|rs pct Hrs Hpct|h0 coin q Hq Hst Hv Hbal Htot Hmul
    |h0 cap q r Hq Hr Hst Hop|h0 coin q Hq Hst Hv Hbal Hacc Hrps
    |h0 k q c Hq Hc Hst Hown Hmul Hpen Hpct Hgross Hbal
    |h0 k q c Hq Hc Hst Hown Hmul Hpen
    |h0 cap q r Hq Hr Hst Hop Hmul Hshare Hbal
    |h0 cap q r Hq Hr Hst Hop Hmul Hshare
    |h0 k amount q c Hq Hc Hst Hown Hamt Hle Htot Hbal
    |k c Hc Hz]; unfold_effects;
    try (exists p; split; [done|apply pool_kept_refl]);
    try (exists p; rewrite lookup_insert_ne by lia; split; [done|apply pool_kept_refl]);
    apply (pool_kept_insert _ h p h0 q); try done;
    unfold pool_kept; pool_fields; repeat split; try lia.
  apply (record_rps_ge q (coin_value coin) Hv).
Qed.

Lemma pool_kept_future w w' h p :
  store_wf w ∧ 0 ≤ ids_created (ctx w) → pools w !! h = Some p → future w w' →
  ∃ p', pools w' !! h = Some p' ∧ pool_kept p p'.
Proof.
  intros Hw Hp Hfut. induction Hfut as [|t w w' Hfut IH Hty].
  - exists p. split; [done|apply pool_kept_refl].
  - destruct (IH Hw Hp) as (p1 & Hp1 & Hk1).
    destruct (future_wf w w' Hw Hfut) as [Hw' _].
    destruct (pool_kept_step w' h p1 t Hw' Hp1) as (p2 & Hp2 & Hk2).
    exists p2. split; [done|]. by apply (pool_kept_trans p p1 p2).
Qed.

(** X2.  A pool is never removed and its parameters are fixed at creation:
    in every store reached from a reachable store, the pool is still there
    with the same id, [required_stake], [operator] and [operator_reward_pct];
    its [reward_per_stake] has not gone down. *)
Theorem pool_parameters_are_fixed w w' h p :
  reachable w → pools w !! h = Some p → future w w' →
  ∃ p', pools w' !! h = Some p' ∧
        id p' = id p ∧
        required_stake p' = required_stake p ∧
        operator p' = operator p ∧
        operator_reward_pct p' = operator_reward_pct p ∧
        reward_per_stake p ≤ reward_per_stake p'.
Proof.
  intros Hr Hp Hfut.
  destruct (pool_kept_future w w' h p (reachable_wf w Hr) Hp Hfut) as (p' & Hp' & Hk).
  exists p'. split; [done|]. exact Hk.
Qed.

Lemma pool_parameters_are_fixed_witness :
  ∃ p', pools (execute_all (drop 1 lifecycle) collecting_store) !! 0 = Some p' ∧
        id p' = 0 ∧ required_stake p' = 1000 ∧ operator p' = 10 ∧
        operator_reward_pct p' = 10 ∧ 0 ≤ reward_per_stake p'.
Proof.
  refine (pool_parameters_are_fixed collecting_store
            (execute_all (drop 1 lifecycle) collecting_store) 0
            (mkValidatorPool 0 1000 0 10 10 COLLECTING 0 0 (mkBalance 0)) _ _ _).
  - apply (reachable_typed (take 1 lifecycle)). vm_compute; reflexivity.
  - vm_compute; reflexivity.
  - apply future_typed. vm_compute; reflexivity.
Defined.

Lemma record_kept_refl c : record_kept c c.
Proof. unfold record_kept. repeat split; lia. Qed.

Lemma record_kept_trans c1 c2 c3 :
  record_kept c1 c2 → record_kept c2 c3 → record_kept c1 c3.
Proof.
  unfold record_kept. intros (? & ? & ? & ? & ?) (? & ? & ? & ? & ?).
  repeat split; congruence || lia.
Qed.

Lemma record_kept_insert (cs : gmap ID Contributor) k c k0 d d' :
  cs !! k = Some c → cs !! k0 = Some d → record_kept d d' →
  ∃ c', <[k0 := d']> cs !! k = Some c' ∧ record_kept c c'.
Proof.
  intros Hc Hd Hkept. destruct (decide (k0 = k)) as [->|Hne].
  - exists d'. rewrite lookup_insert_eq. split; [done|].
    pose proof (eq_trans (eq_sym Hc) Hd) as [= ->]. done.
  - exists c. rewrite lookup_insert_ne by done. split; [done|apply record_kept_refl].
Qed.

(** A live record is kept by a transaction, or removed by it. *)
Lemma record_kept_step w k c t :
  store_wf w → contributors w !! k = Some c →
  contributors (execute t w) !! k = None ∨
  ∃ c', contributors (execute t w) !! k = Some c' ∧ record_kept c c'.
Proof.
  intros Hw Hc. pose proof (fresh_ids w Hw) as Hfresh. cbv zeta in Hfresh.
  exec_cases (execute_cases t w) t Heff;
    [|right; exists c; split; [done|apply record_kept_refl]].
  assert (k < ids_created (ctx w)) as Hlt.
  { destruct Hw as (_ & Hcs & _). destruct (Hcs k c Hc) as (? & _). lia. }
  destruct Heff as [|rs pct Hrs Hpct|h0 coin q Hq Hst Hv Hbal Htot Hmul
    |h0 cap q r Hq Hr Hst Hop|h0 coin q Hq Hst Hv Hbal Hacc Hrps
    |h0 k0 q d Hq Hd Hst Hown Hmul Hpen Hpct Hgross Hbal
    |h0 k0 q d Hq Hd Hst Hown Hmul Hpen
    |h0 cap q r Hq Hr Hst Hop Hmul Hshare Hbal
    |h0 cap q r Hq Hr Hst Hop Hmul Hshare
    |h0 k0 amount q d Hq Hd Hst Hown Hamt Hle Htot Hbal
    |k0 d Hd Hz]; unfold_effects;
    try (right; exists c; split; [done|apply record_kept_refl]).
  - right. exists c. rewrite lookup_insert_ne by lia. split; [done|apply record_kept_refl].
  - right. apply (record_kept_insert _ k c k0 d); try done.
    unfold record_kept, pending in *. pool_fields. repeat split; lia.
  - right. apply (record_kept_insert _ k c k0 d); try done.
    unfold record_kept. pool_fields. repeat split; lia.
  - destruct (decide (k0 = k)) as [->|Hne].
    + left. apply lookup_delete_eq.
    + right. exists c. rewrite lookup_delete_ne by done.
      split; [done|apply record_kept_refl].
Qed.

(** A record that has been removed does not come back: IDs are not reused. *)
Lemma record_gone_step w k t :
  store_wf w → k < ids_created (ctx w) → contributors w !! k = None →
  contributors (execute t w) !! k = None ∧ k < ids_created (ctx (execute t w)).
Proof.
  intros Hw Hlt Hc.
  exec_cases (execute_cases t w) t Heff; [|done].
  destruct Heff as [|rs pct Hrs Hpct|h0 coin q Hq Hst Hv Hbal Htot Hmul
    |h0 cap q r Hq Hr Hst Hop|h0 coin q Hq Hst Hv Hbal Hacc Hrps
    |h0 k0 q d Hq Hd Hst Hown Hmul Hpen Hpct Hgross Hbal
    |h0 k0 q d Hq Hd Hst Hown Hmul Hpen
    |h0 cap q r Hq Hr Hst Hop Hmul Hshare Hbal
    |h0 cap q r Hq Hr Hst Hop Hmul Hshare
    |h0 k0 amount q d Hq Hd Hst Hown Hamt Hle Htot Hbal
    |k0 d Hd Hz]; unfold_effects; try (split; [done|lia]).
  - split; [|lia]. rewrite lookup_insert_ne by lia. done.
  - split; [|lia]. rewrite lookup_insert_ne; [done|]. intros ->.
    pose proof (eq_trans (eq_sym Hc) Hd). discriminate.
  - split; [|lia]. rewrite lookup_insert_ne; [done|]. intros ->.
    pose proof (eq_trans (eq_sym Hc) Hd). discriminate.
  - split; [|lia]. apply lookup_delete_None. by right.
Qed.

Lemma ids_created_step w t : ids_created (ctx w) ≤ ids_created (ctx (execute t w)).
Proof.
  exec_cases (execute_cases t w) t Heff; [|done]. destruct Heff; unfold_effects; lia.
Qed.

(** X3.  A Contributor Record never changes hands or pools and never grows:
    in every store reached from a reachable store the record is either gone
    (destroyed) or still has its [owner] and [pool_id], a [staked_amount] no
    larger than before and a [reward_debt] no smaller than before.  A later
    stake by the same owner makes a new record. *)
Theorem records_only_shrink w w' k c :
  reachable w → contributors w !! k = Some c → future w w' →
  contributors w' !! k = None ∨
  ∃ c', contributors w' !! k = Some c' ∧
        pool_id c' = pool_id c ∧ owner c' = owner c ∧
        staked_amount c' ≤ staked_amount c ∧
        reward_debt c ≤ reward_debt c'.
Proof.
  intros Hr Hc Hfut. pose proof (reachable_wf w Hr) as Hw.
  assert (k < ids_created (ctx w')
          ∧ (contributors w' !! k = None
             ∨ ∃ c', contributors w' !! k = Some c' ∧ record_kept c c')) as [_ Hgoal].
  { induction Hfut as [|t w w' Hfut IH Hty].
    - split.
      + destruct Hw as ((_ & Hcs & _) & _). destruct (Hcs k c Hc) as (? & _). lia.
      + right. exists c. split; [done|apply record_kept_refl].
    - destruct (IH Hr Hc Hw) as [Hlt Hcase].
      destruct (future_wf w w' Hw Hfut) as [Hw' _].
      destruct Hcase as [Hnone|(c1 & Hc1 & Hk1)].
      + destruct (record_gone_step w' k t Hw' Hlt Hnone). auto.
      + split; [pose proof (ids_created_step w' t); lia|].
        destruct (record_kept_step w' k c1 t Hw' Hc1) as [Hnone|(c2 & Hc2 & Hk2)]; [by left|].
        right. exists c2. split; [done|]. by apply (record_kept_trans c c1 c2). }
  destruct Hgoal as [?|(c' & Hc' & _ & ? & ? & ? & ?)]; [by left|].
  right. by exists c'.
Qed.

Lemma records_only_shrink_witness :
  contributors (execute_all [mkTx 11 (WithdrawUserStake 0 2 300)] ready_store) !! 2 = None ∨
  ∃ c', contributors (execute_all [mkTx 11 (WithdrawUserStake 0 2 300)] ready_store) !! 2
        = Some c' ∧
        pool_id c' = 0 ∧ owner c' = 11 ∧ staked_amount c' ≤ 1000 ∧ 0 ≤ reward_debt c'.
Proof.
  refine (records_only_shrink ready_store
            (execute_all [mkTx 11 (WithdrawUserStake 0 2 300)] ready_store) 2
            (mkContributor 2 0 11 1000 0) _ _ _).
  - apply (reachable_typed (take 2 lifecycle)). vm_compute; reflexivity.
  - vm_compute; reflexivity.
  - apply future_typed. vm_compute; reflexivity.
Defined.

(** X4.  The status of a pool changes in three ways only: from Collecting
    to Ready by a stake into it that brings [total_stake] to
    [required_stake]; from Ready back to Collecting by a withdrawal from it
    that brings [total_stake] below [required_stake]; from Ready to Active by
    an activation sent by its operator.  No transaction changes the status
    of a pool it does not name, and none leaves Active. *)
Theorem status_changes w t h p p' :
  reachable w → pools w !! h = Some p → pools (execute t w) !! h = Some p' →
  status p' ≠ status p →
  (status p = COLLECTING ∧ status p' = READY ∧
   required_stake p' ≤ total_stake p' ∧
   ∃ coin, tx_call t = StakeToPool h coin) ∨
  (status p = READY ∧ status p' = COLLECTING ∧
   total_stake p' < required_stake p' ∧
   ∃ k amount, tx_call t = WithdrawUserStake h k amount) ∨
  (status p = READY ∧ status p' = ACTIVE ∧
   ∃ cap, tx_call t = ActivateValidatorPool h cap ∧ tx_sender t = operator p).
Proof.
  intros Hr Hp Hp' Hne. destruct (reachable_wf w Hr) as [Hw _].
  pose proof (fresh_ids w Hw) as Hfresh. cbv zeta in Hfresh.
  assert (h < ids_created (ctx w)) as Hlt.
  { destruct Hw as (Hps & _). destruct (Hps h p Hp) as (? & _). lia. }
  exec_cases (execute_cases t w) t Heff;
    [|pose proof (eq_trans (eq_sym Hp) Hp') as [= ->]; done].
  assert (∀ h0 (q q' : ValidatorPool),
            pools w !! h0 = Some q → <[h0 := q']> (pools w) !! h = Some p' →
            h0 = h ∧ q = p ∧ q' = p') as Hsame.
  { intros h0 q q' Hq Hins. destruct (decide (h0 = h)) as [->|Hneq].
    - rewrite lookup_insert_eq in Hins. injection Hins as ->.
      pose proof (eq_trans (eq_sym Hp) Hq) as [= ->]. done.
    - rewrite lookup_insert_ne in Hins by done.
      pose proof (eq_trans (eq_sym Hp) Hins) as [= ->]. done. }
  destruct Heff as [|rs pct Hrs Hpct|h0 coin q Hq Hst Hv Hbal Htot Hmul
    |h0 cap q r Hq Hr' Hst Hop|h0 coin q Hq Hst Hv Hbal Hacc Hrps
    |h0 k q c Hq Hc Hst Hown Hmul Hpen Hpct Hgross Hbal
    |h0 k q c Hq Hc Hst Hown Hmul Hpen
    |h0 cap q r Hq Hr' Hst Hop Hmul Hshare Hbal
    |h0 cap q r Hq Hr' Hst Hop Hmul Hshare
    |h0 k amount q c Hq Hc Hst Hown Hamt Hle Htot Hbal
    |k c Hc Hz]; unfold_effects;
    try (pose proof (eq_trans (eq_sym Hp) Hp') as [= ->]; done);
    try (rewrite lookup_insert_ne in Hp' by lia;
         pose proof (eq_trans (eq_sym Hp) Hp') as [= ->]; done);
    destruct (Hsame _ _ _ Hq Hp') as (-> & -> & <-); pool_fields; try done.
  - left. unfold stake_status in *.
    destruct ((_ >=? _) && _) eqn:E; [|done]. zbool. repeat split; try done; try lia. eauto.
  - right. right. repeat split; try done. eauto.
  - right. left. unfold withdraw_status in *.
    destruct ((_ <? _) && _) eqn:E; [|done]. zbool. repeat split; try done; try lia. eauto.
Qed.

Lemma status_changes_witness :
  ∃ coin, tx_call (mkTx 11 (StakeToPool 0 (coin_of 1000))) = StakeToPool 0 coin.
Proof.
  destruct (status_changes collecting_store (mkTx 11 (StakeToPool 0 (coin_of 1000))) 0
              (mkValidatorPool 0 1000 0 10 10 COLLECTING 0 0 (mkBalance 0))
              (mkValidatorPool 0 1000 1000 10 10 READY 0 0 (mkBalance 1000)))
    as [(_ & _ & _ & H)|[(H & _)|(H & _)]].
  - apply (reachable_typed (take 1 lifecycle)). vm_compute; reflexivity.
  - vm_compute; reflexivity.
  - vm_compute; reflexivity.
  - discriminate.
  - exact H.
  - discriminate H.
  - discriminate H.
Defined.
(** * The total stake is the sum of the stakes *)

Lemma reachable_own_reachable w : reachable_own_withdrawals w → reachable w.
Proof. induction 1; [constructor|by constructor]. Qed.

Lemma reachable_own_execute_all txs w :
  reachable_own_withdrawals w → all_own_withdrawals txs w = true →
  reachable_own_withdrawals (execute_all txs w).
Proof.
  revert w. induction txs as [|t txs IH]; intros w Hw Hall; [done|].
  cbn in Hall. apply andb_true_iff in Hall as [Hall Hrest].
  apply andb_true_iff in Hall as [Hty Hown].
  cbn. apply IH; [|done]. by constructor.
Qed.

(** A record whose stake and pool are kept counts as before. *)
Lemma staked_in_keep h k c c' (cs : gmap ID Contributor) :
  cs !! k = Some c → pool_id c' = pool_id c → staked_amount c' = staked_amount c →
  staked_in h (<[k := c']> cs) = staked_in h cs.
Proof.
  intros Hc Hpool Hstake. unfold staked_in.
  rewrite (sum_of_insert staked_amount h k c c' cs Hc).
  unfold weight. rewrite Hpool, Hstake. lia.
Qed.

(** The records of a well-formed store name pools below the ID counter: a
    pool that is being created has no record yet. *)
Lemma staked_in_fresh w :
  store_wf w → staked_in (ids_created (ctx w)) (contributors w) = 0.
Proof.
  intros (Hps & Hcs & _). unfold staked_in. apply sum_of_foreign.
  intros k c Hc Heq. destruct (Hcs k c Hc) as (_ & (_ & _ & _ & [q Hq]) & _).
  destruct (Hps _ q Hq) as (? & _). lia.
Qed.

Lemma effect_stakes_add_up s w call w' :
  store_wf w → stakes_add_up w → own_withdrawal call w = true →
  effect s w call w' → stakes_add_up w'.
Proof.
  intros Hw Hsum Hown Heff. pose proof (fresh_ids w Hw) as Hfresh. cbv zeta in Hfresh.
  pose proof (staked_in_fresh w Hw) as Hnew. pose proof Hw as (Hps & Hcs & _).
  assert (∀ h0 (q q' : ValidatorPool) cs',
            pools w !! h0 = Some q →
            total_stake q' = staked_in h0 cs' →
            (∀ h, h ≠ h0 → staked_in h cs' = staked_in h (contributors w)) →
            ∀ h p', <[h0 := q']> (pools w) !! h = Some p' →
                    total_stake p' = staked_in h cs') as Hupd.
  { intros h0 q q' cs' Hq Hhere Hothers h p' Hp'.
    apply lookup_insert_Some in Hp' as [[<- <-]|[Hne Hp']]; [done|].
    rewrite Hothers by done. by apply Hsum. }
  destruct Heff as [|rs pct Hrs Hpct|h0 coin q Hq Hst Hv Hbal Htot Hmul
    |h0 cap q r Hq Hr Hst Hop|h0 coin q Hq Hst Hv Hbal Hacc Hrps
    |h0 k q c Hq Hc Hst Hown' Hmul Hpen Hpct Hgross Hbal
    |h0 k q c Hq Hc Hst Hown' Hmul Hpen
    |h0 cap q r Hq Hr Hst Hop Hmul Hshare Hbal
    |h0 cap q r Hq Hr Hst Hop Hmul Hshare
    |h0 k amount q c Hq Hc Hst Hown' Hamt Hle Htot Hbal
    |k c Hc Hz]; unfold_effects; unfold stakes_add_up; cbn [pools contributors].
  - intros h p Hp. apply lookup_insert_Some in Hp as [[<- <-]|[_ Hp]]; [by cbn|].
    by apply Hsum.
  - intros h p Hp. apply lookup_insert_Some in Hp as [[<- <-]|[_ Hp]]; [by cbn|].
    by apply Hsum.
  - destruct (Hps h0 q Hq) as (_ & (Hid & _) & _).
    destruct (Hfresh (ids_created (ctx w))) as (_ & Hnone & _); [lia|].
    apply (Hupd h0 q); [done| |].
    + pool_fields. unfold staked_in. rewrite sum_of_insert_fresh by done.
      rewrite weight_own by (by cbn). cbn [staked_amount].
      specialize (Hsum h0 q Hq). unfold staked_in in Hsum. lia.
    + intros h Hne. unfold staked_in. apply sum_of_insert_fresh_foreign; [done|].
      cbn [pool_id]. lia.
  - apply (Hupd h0 q); [done| |done]. pool_fields. by apply Hsum.
  - apply (Hupd h0 q); [done| |done]. pool_fields. by apply Hsum.
  - apply (Hupd h0 q); [done| |].
    + pool_fields. rewrite (staked_in_keep h0 k c) by done. by apply Hsum.
    + intros h _. by apply (staked_in_keep h k c).
  - done.
  - apply (Hupd h0 q); [done| |done]. pool_fields. by apply Hsum.
  - done.
  - cbn [own_withdrawal] in Hown. rewrite Hc in Hown. apply Z.eqb_eq in Hown.
    apply (Hupd h0 q); [done| |].
    + pool_fields. unfold staked_in.
      rewrite (sum_of_insert staked_amount h0 k c _ _ Hc).
      rewrite !weight_own by done. cbn [staked_amount set_staked_amount].
      specialize (Hsum h0 q Hq). unfold staked_in in Hsum. lia.
    + intros h Hne. unfold staked_in.
      apply (sum_of_insert_foreign staked_amount h k c); [done|lia|cbn; lia].
  - intros h p Hp. unfold staked_in. rewrite (sum_of_delete staked_amount h k c) by done.
    assert (weight staked_amount h c = 0) as ->.
    { unfold weight. rewrite Hz. by destruct (pool_id c =? h). }
    specialize (Hsum h p Hp). unfold staked_in in Hsum. lia.
Qed.

Lemma reachable_own_stakes_add_up w : reachable_own_withdrawals w → stakes_add_up w.
Proof.
  induction 1 as [|t w Hr IH Hty Hown].
  - intros h p Hp. cbn in Hp. by rewrite lookup_empty in Hp.
  - destruct (reachable_wf w (reachable_own_reachable w Hr)) as [Hw _].
    destruct (execute_effect t w) as [Heff|[-> _]]; [|done].
    by apply (effect_stakes_add_up (tx_sender t) w (tx_call t)).
Qed.

(** C2 (amended).  In every store reached by a history in which each
    Contributor Record is presented to [withdraw_stake] only together with
    the pool it was staked into, whatever the other operations and however
    many pools, every pool's [total_stake] is the sum of [staked_amount]
    over the live Contributor Records of the pool.  And in any store, a
    [destroy_empty_contributor] that returns has removed a record with
    [staked_amount] 0: it leaves the pools and the sum of every pool as they
    were. *)
Theorem total_stake_is_sum_of_own_stakes :
  (∀ w, reachable_own_withdrawals w →
     ∀ h p, pools w !! h = Some p → total_stake p = staked_in h (contributors w)) ∧
  (∀ w s k w', run_tx (mkTx s (DestroyEmptyContributor k)) w = Ok tt w' →
     (∃ c, contributors w !! k = Some c ∧ staked_amount c = 0) ∧
     pools w' = pools w ∧
     ∀ h, staked_in h (contributors w') = staked_in h (contributors w)).
Proof.
  split.
  - intros w Hr. by apply reachable_own_stakes_add_up.
  - intros w s k w' Hrun. apply run_destroy_inv in Hrun as (c & Hc & Hz & ->).
    split; [eauto|]. split; [done|]. intros h. cbn [contributors with_contributors].
    change (contributors (begin_tx s w)) with (contributors w).
    unfold staked_in. rewrite (sum_of_delete staked_amount h k c) by done.
    unfold weight. rewrite Hz. destruct (pool_id c =? h); lia.
Qed.

Lemma total_stake_is_sum_of_own_stakes_witness :
  reachable_own_withdrawals
    (execute_all (mkTx 10 (CreateCustomValidatorPool 1000 10) :: deposits_and_withdrawals)
       genesis) ∧
  total_stake (mkValidatorPool 0 1000 300 10 10 COLLECTING 0 0 (mkBalance 300))
  = staked_in 0
      (contributors
         (execute_all (mkTx 10 (CreateCustomValidatorPool 1000 10) :: deposits_and_withdrawals)
            genesis)).
Proof.
  assert (reachable_own_withdrawals
            (execute_all
               (mkTx 10 (CreateCustomValidatorPool 1000 10) :: deposits_and_withdrawals)
               genesis)) as Hr.
  { apply reachable_own_execute_all; [constructor|vm_compute; reflexivity]. }
  split; [exact Hr|].
  refine (proj1 total_stake_is_sum_of_own_stakes _ Hr 0 _ _).
  vm_compute; reflexivity.
Defined.

Lemma foreign_withdrawal_typed :
  Forall (λ t, well_typed (tx_call t) = true ∧ stake_or_withdraw 3 (tx_call t) = true)
    foreign_withdrawal.
Proof. repeat constructor. Qed.

(** C2 as stated fails.  In the store left by [earlier_pool], a pool is
    created (pool 3) and staked with 400; [withdraw_stake] on pool 3 with
    record 2, which was staked into pool 0, then returns: pool 3 has a
    [total_stake] of 300 against 400 staked in its only record, and pool 0 a
    [total_stake] of 500 against the 400 left in record 2. *)
Lemma total_stake_differs_across_pools :
  ¬ (∀ w s rs pct txs,
       reachable w → well_typed (CreateCustomValidatorPool rs pct) = true →
       Forall (λ t, well_typed (tx_call t) = true
                    ∧ stake_or_withdraw (ids_created (ctx w)) (tx_call t) = true) txs →
       ∀ p, pools (execute_all txs
                     (execute (mkTx s (CreateCustomValidatorPool rs pct)) w))
              !! ids_created (ctx w) = Some p →
            total_stake p
            = staked_in (ids_created (ctx w))
                (contributors
                   (execute_all txs
                      (execute (mkTx s (CreateCustomValidatorPool rs pct)) w)))) ∧
  (let w := execute_all foreign_withdrawal
              (execute (mkTx 10 (CreateCustomValidatorPool 1000 10))
                 (execute_all earlier_pool genesis)) in
   pools w !! 3 = Some (mkValidatorPool 3 1000 300 10 10 COLLECTING 0 0 (mkBalance 300)) ∧
   staked_in 3 (contributors w) = 400 ∧
   pools w !! 0 = Some (mkValidatorPool 0 1000 500 10 10 COLLECTING 0 0 (mkBalance 500)) ∧
   staked_in 0 (contributors w) = 400).
Proof.
  split.
  - intros Hall.
    assert (reachable (execute_all earlier_pool genesis)) as Hr.
    { apply reachable_execute_all; [constructor|repeat constructor]. }
    specialize (Hall _ 10 1000 10 foreign_withdrawal Hr eq_refl).
    assert (ids_created (ctx (execute_all earlier_pool genesis)) = 3) as Hid
      by (vm_compute; reflexivity).
    rewrite Hid in Hall.
    specialize (Hall foreign_withdrawal_typed
                  (mkValidatorPool 3 1000 300 10 10 COLLECTING 0 0 (mkBalance 300))).
    assert (300 = 400) as Hbad; [|lia].
    etrans; [apply Hall; vm_compute; reflexivity|]. vm_compute; reflexivity.
  - cbv zeta. repeat split; vm_compute; reflexivity.
Qed.
(** * Outcomes read off the function specifications *)

Lemma claim_reward_Ok_inv h k w coin w' :
  claim_reward h k w = Ok coin w' →
  ∃ p c, pools w !! h = Some p ∧ contributors w !! k = Some c.
Proof.
  intros H. destruct (pools w !! h) as [p|] eqn:Hp.
  - destruct (contributors w !! k) as [c|] eqn:Hc; [eauto|].
    unfold claim_reward, bind, read_pool, read_contributor, assert in H.
    rewrite Hp in H. destruct (status p =? ACTIVE); [|done].
    cbv [ret] in H. by rewrite Hc in H.
  - unfold claim_reward, bind, read_pool in H. by rewrite Hp in H.
Qed.

Lemma claim_operator_reward_Ok_inv h cap w coin w' :
  claim_operator_reward h cap w = Ok coin w' → ∃ p, pools w !! h = Some p.
Proof.
  intros H. destruct (pools w !! h) as [p|] eqn:Hp; [eauto|].
  unfold claim_operator_reward, bind, read_pool in H. by rewrite Hp in H.
Qed.

Lemma calculate_pending_reward_returns h k w p c :
  pools w !! h = Some p → contributors w !! k = Some c →
  status p = ACTIVE → staked_amount c ≠ 0 →
  staked_amount c * reward_per_stake p ≤ u64_max →
  reward_debt c ≤ settled p c → operator_reward_pct p ≤ 100 →
  pending p c * (100 - operator_reward_pct p) ≤ u64_max →
  calculate_pending_reward h k w = Ok (user_share p c) w.
Proof.
  intros Hp Hc Hst Hs Hmul Hdebt Hpct Hgross.
  pose proof (calculate_pending_reward_spec h k w p c Hp Hc) as Hspec.
  destruct (calculate_pending_reward h k w) as [v w'|e w']; cbn in Hspec.
  - destruct Hspec as (-> & [([?|?] & _)|(_ & _ & _ & _ & _ & _ & ->)]); done.
  - destruct e; try done. destruct Hspec as (_ & _ & _ & [?|[?|[?|?]]]); lia.
Qed.

Lemma calculate_pending_reward_idle h k w p c :
  pools w !! h = Some p → contributors w !! k = Some c →
  status p ≠ ACTIVE ∨ staked_amount c = 0 →
  calculate_pending_reward h k w = Ok 0 w.
Proof.
  intros Hp Hc Hidle.
  pose proof (calculate_pending_reward_spec h k w p c Hp Hc) as Hspec.
  destruct (calculate_pending_reward h k w) as [v w'|e w']; cbn in Hspec.
  - destruct Hspec as (-> & [(_ & ->)|(? & ? & _)]); [done|]. destruct Hidle; done.
  - destruct e; try done. destruct Hspec as (_ & ? & ? & _). destruct Hidle; done.
Qed.

(** X5.  The operator is known by address, not by capability.  On a Ready
    pool [activate_validator_pool] returns exactly when the sender is the
    pool's [operator], whichever OperatorCap of the store is presented, the
    cap of another pool included; any other sender is refused with
    [E_UNAUTHORIZED] even with the pool's own cap.  On an Active pool
    [claim_operator_rewards] refuses any other sender in the same way and
    fails no assertion for the operator. *)
Theorem operator_is_checked_by_address w s h p cap r :
  pools w !! h = Some p → caps w !! cap = Some r →
  (status p = READY → s = operator p →
     ∃ w' p', run_tx (mkTx s (ActivateValidatorPool h cap)) w = Ok tt w' ∧
              pools w' !! h = Some p' ∧ status p' = ACTIVE) ∧
  (status p = READY → s ≠ operator p →
     run_tx (mkTx s (ActivateValidatorPool h cap)) w
     = Abort (Assert E_UNAUTHORIZED) (begin_tx s w)) ∧
  (status p = ACTIVE → s ≠ operator p →
     run_tx (mkTx s (ClaimOperatorRewards h cap)) w
     = Abort (Assert E_UNAUTHORIZED) (begin_tx s w)) ∧
  (status p = ACTIVE → s = operator p →
     ∀ code w', run_tx (mkTx s (ClaimOperatorRewards h cap)) w ≠ Abort (Assert code) w').
Proof.
  intros Hp Hr.
  assert (∀ call, resolve call = (read_pool h (λ _, tt);; read_cap cap (λ _, tt)) →
            ∀ body : M unit,
              (resolve call;; body) (begin_tx s w) = body (begin_tx s w)) as Hres.
  { intros call -> body. unfold bind, read_pool, read_cap.
    cbn [pools begin_tx with_ctx]. rewrite Hp.
    change (caps (begin_tx s w)) with (caps w). by rewrite Hr. }
  unfold run_tx. cbn [tx_call tx_sender]. rewrite !Hres by done.
  cbn [dispatch]. unfold activate_validator_pool, claim_operator_rewards.
  repeat split.
  - intros Hst Hop.
    rewrite (activate_pool_returns h cap (begin_tx s w) p); try done.
    eexists _, _. split; [done|]. cbn [pools]. rewrite lookup_insert_eq. done.
  - intros Hst Hop.
    pose proof (activate_pool_spec h cap (begin_tx s w) p Hp) as Hspec.
    destruct (activate_pool h cap (begin_tx s w)) as [[] w'|e w']; cbn in Hspec.
    + by destruct Hspec as (_ & ? & _).
    + destruct e; try done. destruct Hspec as (-> & [(_ & ?)|(-> & _)]); done.
  - intros Hst Hop.
    pose proof (claim_operator_reward_spec h cap (begin_tx s w) p Hp) as Hspec.
    unfold bind. destruct (claim_operator_reward h cap (begin_tx s w)) as [coin w'|e w'];
      cbn in Hspec.
    + by destruct Hspec as (_ & ? & _).
    + destruct e; try done; try (by destruct Hspec as (_ & ? & _)).
      destruct Hspec as (-> & [(_ & ?)|(-> & _)]); done.
  - intros Hst Hop code w' Habs.
    pose proof (claim_operator_reward_spec h cap (begin_tx s w) p Hp) as Hspec.
    unfold bind in Habs.
    destruct (claim_operator_reward h cap (begin_tx s w)) as [coin w1|e w1]; [done|].
    injection Habs as -> ->. cbn in Hspec.
    destruct Hspec as (_ & [(_ & ?)|(_ & _ & ?)]); done.
Qed.

Lemma operator_is_checked_by_address_witness :
  ∃ w' p', run_tx (mkTx 10 (ActivateValidatorPool 0 3)) foreign_cap_store = Ok tt w' ∧
           pools w' !! 0 = Some p' ∧ status p' = ACTIVE.
Proof.
  refine (proj1 (operator_is_checked_by_address foreign_cap_store 10 0
                   (mkValidatorPool 0 1000 1000 10 10 READY 0 0 (mkBalance 1000)) 3
                   (mkOperatorCap 3 2) _ _) eq_refl eq_refl).
  - vm_compute; reflexivity.
  - vm_compute; reflexivity.
Defined.

(** X6.  The view agrees with the claim.  In a reachable store, whenever
    [claim_reward] returns a coin, [calculate_pending_reward] on the same
    pool and record returns the value of that coin.  And when the view
    returns [v] for a record with a stake in an Active pool, the claim sent
    by the owner pays exactly [v], or fails because the pool holds less than
    [v]. *)
Theorem pending_reward_view_matches_claim w s h k :
  reachable w →
  (∀ coin w', claim_reward h k (begin_tx s w) = Ok coin w' →
     calculate_pending_reward h k (begin_tx s w) = Ok (coin_value coin) (begin_tx s w)) ∧
  (∀ p c v, pools w !! h = Some p → contributors w !! k = Some c →
     status p = ACTIVE → staked_amount c ≠ 0 → owner c = s →
     calculate_pending_reward h k (begin_tx s w) = Ok v (begin_tx s w) →
     (∃ coin w', claim_reward h k (begin_tx s w) = Ok coin w' ∧ coin_value coin = v) ∨
     (∃ w', claim_reward h k (begin_tx s w) = Abort ENotEnough w' ∧
            value (balance p) < v)).
Proof.
  intros Hr. destruct (reachable_wf w Hr) as [(Hps & Hcs & _) _]. split.
  - intros coin w' Hcl.
    destruct (claim_reward_Ok_inv _ _ _ _ _ Hcl) as (p & c & Hp & Hc).
    cbn [pools contributors begin_tx with_ctx] in Hp, Hc.
    pose proof (claim_reward_spec h k (begin_tx s w) p c Hp Hc) as Hspec.
    rewrite Hcl in Hspec.
    destruct (Hps h p Hp) as (_ & (_ & _ & _ & _ & _ & _ & Hpct & _) & _).
    destruct (Hcs k c Hc) as (_ & (_ & Hstk & Hdebt & _) & _). unfold in_u64 in *.
    destruct Hspec as (Hst & _ & Hmul & Hle &
      [(Hpen & _ & Hgross & _ & -> & _)|(Hpen & -> & _)]).
    + assert (staked_amount c ≠ 0) as Hnz.
      { intros Hz. unfold pending, settled in Hpen. rewrite Hz, Z.mul_0_l in Hpen.
        change (0 / 1000000) with 0 in Hpen. lia. }
      cbn [coin_value coin_balance value].
      apply (calculate_pending_reward_returns h k _ p c); try done; lia.
    + cbn [coin_value coin_balance value].
      destruct (decide (staked_amount c = 0)) as [Hz|Hnz].
      * apply (calculate_pending_reward_idle h k _ p c); auto.
      * assert (pending p c = 0) as Hzero by (unfold pending in *; lia).
        assert (user_share p c = 0) as Hshare by (unfold user_share; by rewrite Hzero).
        rewrite <- Hshare.
        apply (calculate_pending_reward_returns h k _ p c); try done; lia.
  - intros p c v Hp Hc Hst Hnz Hown Hview.
    pose proof (calculate_pending_reward_spec h k (begin_tx s w) p c Hp Hc) as Hv.
    rewrite Hview in Hv. destruct Hv as (_ & [([?|?] & _)|Hv]); try done.
    destruct Hv as (_ & _ & Hmul & Hle & Hpct & Hgross & ->).
    pose proof (claim_reward_spec h k (begin_tx s w) p c Hp Hc) as Hspec.
    destruct (claim_reward h k (begin_tx s w)) as [coin w'|e w']; cbn in Hspec.
    + left. exists coin, w'. split; [done|].
      destruct Hspec as (_ & _ & _ & _ & [(_ & _ & _ & _ & -> & _)|(Hpen & -> & _)]);
        [done|].
      assert (pending p c = 0) as Hzero by (unfold pending in *; lia).
      unfold user_share. rewrite Hzero. done.
    + right. destruct e; try done.
      * destruct Hspec as (_ & [(_ & ?)|(_ & _ & ?)]); done.
      * destruct Hspec as (_ & _ & [?|[?|(? & [?|?])]]); unfold pending in *; lia.
      * exists w'. split; [done|]. by destruct Hspec as (_ & _ & _ & ?).
Qed.

Lemma pending_reward_view_matches_claim_witness :
  ∃ coin w',
    claim_reward 0 2 (begin_tx 11 active_store) = Ok coin w' ∧
    calculate_pending_reward 0 2 (begin_tx 11 active_store)
    = Ok (coin_value coin) (begin_tx 11 active_store).
Proof.
  assert (∃ coin w', claim_reward 0 2 (begin_tx 11 active_store) = Ok coin w')
    as (coin & w' & Hcl) by (eexists _, _; vm_compute; reflexivity).
  exists coin, w'. split; [exact Hcl|].
  refine (proj1 (pending_reward_view_matches_claim active_store 11 0 2 _) coin w' Hcl).
  apply (reachable_typed lifecycle). vm_compute; reflexivity.
Defined.

(** X7.  [is_ready_for_activation] holds of a pool exactly when the pool has
    reached its threshold and has not been activated yet: in a reachable
    store it returns [true] iff [total_stake >= required_stake] and the
    status is not Active. *)
Theorem readiness_reflects_threshold w h p :
  reachable w → pools w !! h = Some p →
  is_ready_for_activation h w
  = Ok (negb (status p =? ACTIVE) && (required_stake p <=? total_stake p)) w.
Proof.
  intros Hr Hp. destruct (reachable_wf w Hr) as [(Hps & _) _].
  destruct (Hps h p Hp) as (_ & (_ & _ & _ & _ & _ & _ & _ & Hst & Hcoll & Hready & _) & _).
  unfold is_ready_for_activation, bind, read_pool. rewrite Hp. cbv [ret]. f_equal.
  destruct (status p =? READY) eqn:E1, (status p =? ACTIVE) eqn:E2,
    (required_stake p <=? total_stake p) eqn:E3; zbool; try done; unfold_status; lia.
Qed.

Lemma readiness_reflects_threshold_witness :
  is_ready_for_activation 0 ready_store = Ok true ready_store.
Proof.
  refine (readiness_reflects_threshold ready_store 0
            (mkValidatorPool 0 1000 1000 10 10 READY 0 0 (mkBalance 1000)) _ _).
  - apply (reachable_typed (take 2 lifecycle)). vm_compute; reflexivity.
  - vm_compute; reflexivity.
Defined.

(** X8.  A claim cannot be repeated.  Whenever [claim_reward] returns, an
    immediate second [claim_reward] on the same pool and record returns an
    empty coin and leaves every object, coin and event as the first claim
    left them; the same holds of [claim_operator_reward], whichever cap the
    second call presents. *)
Theorem claims_cannot_be_repeated h w :
  (∀ k coin w1, claim_reward h k w = Ok coin w1 →
     ∃ coin' w2, claim_reward h k w1 = Ok coin' w2 ∧ coin_value coin' = 0 ∧
       pools w2 = pools w1 ∧ contributors w2 = contributors w1 ∧
       caps w2 = caps w1 ∧ coins w2 = coins w1 ∧ events w2 = events w1) ∧
  (∀ cap cap' coin w1, claim_operator_reward h cap w = Ok coin w1 →
     ∃ coin' w2, claim_operator_reward h cap' w1 = Ok coin' w2 ∧ coin_value coin' = 0 ∧
       pools w2 = pools w1 ∧ contributors w2 = contributors w1 ∧
       caps w2 = caps w1 ∧ coins w2 = coins w1 ∧ events w2 = events w1).
Proof.
  split.
  - intros k coin w1 Hcl.
    destruct (claim_reward_Ok_inv _ _ _ _ _ Hcl) as (p & c & Hp & Hc).
    pose proof (claim_reward_spec h k w p c Hp Hc) as Hspec. rewrite Hcl in Hspec.
    destruct Hspec as (Hst & Hown & Hmul & Hle &
      [(Hpen & _ & _ & _ & _ & ->)|(Hpen & _ & ->)]).
    + eexists _, _. split.
      { apply (claim_reward_nothing h k _
                 (set_balance (mkBalance (value (balance p) - user_share p c)) p)
                 (set_reward_debt (settled p c) c));
          cbn [pools contributors ctx]; rewrite ?lookup_insert_eq; try done.
        unfold pending, settled. pool_fields. lia. }
      done.
    + eexists _, _. split.
      { apply (claim_reward_nothing h k _ p c); try done. unfold pending in *. lia. }
      done.
  - intros cap cap' coin w1 Hcl.
    destruct (claim_operator_reward_Ok_inv _ _ _ _ _ Hcl) as (p & Hp).
    pose proof (claim_operator_reward_spec h cap w p Hp) as Hspec. rewrite Hcl in Hspec.
    destruct Hspec as (Hst & Hop & Hmul & [(Hsh & _ & _ & ->)|(Hsh & _ & ->)]).
    + eexists _, _. split.
      { apply (claim_operator_reward_nothing h cap' _
                 (set_balance (mkBalance (value (balance p) - operator_share p))
                    (set_accumulated_reward 0 p)));
          cbn [pools ctx]; rewrite ?lookup_insert_eq; try done;
          unfold operator_share; pool_fields; unfold u64_max; try done; lia. }
      done.
    + eexists _, _. split.
      { by apply (claim_operator_reward_nothing h cap' _ p). }
      done.
Qed.

Lemma claims_cannot_be_repeated_witness :
  ∃ coin w1 coin' w2,
    claim_reward 0 2 (begin_tx 11 active_store) = Ok coin w1 ∧
    claim_reward 0 2 w1 = Ok coin' w2 ∧ coin_value coin' = 0.
Proof.
  assert (∃ coin w1, claim_reward 0 2 (begin_tx 11 active_store) = Ok coin w1)
    as (coin & w1 & Hcl) by (eexists _, _; vm_compute; reflexivity).
  destruct (proj1 (claims_cannot_be_repeated 0 (begin_tx 11 active_store)) 2 coin w1 Hcl)
    as (coin' & w2 & Hagain & Hzero & _).
  exists coin, w1, coin', w2. split; [exact Hcl|]. split; [exact Hagain|exact Hzero].
Defined.

(** X9.  Who is paid.  A transaction that returns hands out at most one
    coin, and hands it to its sender: for [claim_user_reward] and
    [withdraw_user_stake] the sender is the [owner] of the Contributor
    Record presented, for [claim_operator_rewards] the [operator] of the
    pool presented.  Every other entry function hands out nothing. *)
Theorem payouts_go_to_the_owner t w w' :
  run_tx t w = Ok tt w' →
  match payee (tx_call t) w with
  | Some a => a = tx_sender t ∧ ∃ coin, coins w' = coins w ++ [(a, coin)]
  | None => coins w' = coins w
  end.
Proof.
  intros E. destruct t as [s call]. apply run_tx_effect in E.
  destruct E; unfold_effects; cbn [payee tx_call tx_sender];
    repeat match goal with
    | H : pools _ !! _ = Some _ |- _ => rewrite H; clear H
    | H : contributors _ !! _ = Some _ |- _ => rewrite H; clear H
    end; cbn [fmap option_fmap option_map]; try done; subst; split; eauto.
Qed.

Lemma payouts_go_to_the_owner_witness :
  match payee (tx_call (mkTx 11 (ClaimUserReward 0 2))) active_store with
  | Some a =>
      a = tx_sender (mkTx 11 (ClaimUserReward 0 2)) ∧
      ∃ coin, coins claimed_store = coins active_store ++ [(a, coin)]
  | None => coins claimed_store = coins active_store
  end.
Proof.
  refine (payouts_go_to_the_owner (mkTx 11 (ClaimUserReward 0 2)) active_store
            claimed_store _).
  vm_compute; reflexivity.
Defined.
(** * The effects, forwards: when a transaction returns *)

Lemma withdraw_stake_returns h k amount w p c :
  pools w !! h = Some p → contributors w !! k = Some c →
  (status p = COLLECTING ∨ status p = READY) → owner c = sender (ctx w) →
  0 < amount → amount ≤ staked_amount c → amount ≤ total_stake p →
  amount ≤ value (balance p) →
  withdraw_stake h k amount w =
  Ok (mkCoin (ids_created (ctx w)) (mkBalance amount))
     (mkWorld
        (<[h := set_balance (mkBalance (value (balance p) - amount))
                  (set_status (withdraw_status p amount)
                     (set_total_stake (total_stake p - amount) p))]> (pools w))
        (<[k := set_staked_amount (staked_amount c - amount) c]> (contributors w))
        (caps w) (coins w)
        (events w ++ [StakeWithdrawn (id p) (owner c) amount (total_stake p - amount)])
        (bump w)).
Proof.
  intros Hp Hc Hst Hown Hamt Hle Htot Hbal.
  pose proof (withdraw_stake_spec h k amount w p c Hp Hc) as Hspec.
  destruct (withdraw_stake h k amount w) as [coin w'|[code| | |] w'];
    cbv beta iota zeta delta [withdraw_stake_post] in Hspec; try done.
  - destruct Hspec as (_ & _ & _ & _ & _ & _ & -> & ->). done.
  - destruct Hspec as (_ & [(_ & ? & ?)|(_ & [(_ & ?)|[(_ & _ & ?)|(_ & _ & _ & ?)]])]);
      unfold_status; (done || lia).
  - lia.
  - lia.
Qed.

Section resolve.
Context (s : address) (w : World).

Lemma resolve_pool h p (body : M unit) :
  pools w !! h = Some p →
  (read_pool h (λ _, tt);; body) (begin_tx s w) = body (begin_tx s w).
Proof.
  intros Hp. unfold bind, read_pool. cbn [pools begin_tx with_ctx]. by rewrite Hp.
Qed.

Lemma resolve_pool_cap h p cap r (body : M unit) :
  pools w !! h = Some p → caps w !! cap = Some r →
  ((read_pool h (λ _, tt);; read_cap cap (λ _, tt));; body) (begin_tx s w)
  = body (begin_tx s w).
Proof.
  intros Hp Hr. unfold bind, read_pool, read_cap. cbn [pools begin_tx with_ctx].
  rewrite Hp. change (caps (begin_tx s w)) with (caps w). by rewrite Hr.
Qed.

Lemma resolve_pool_record h p k c (body : M unit) :
  pools w !! h = Some p → contributors w !! k = Some c →
  ((read_pool h (λ _, tt);; read_contributor k (λ _, tt));; body) (begin_tx s w)
  = body (begin_tx s w).
Proof.
  intros Hp Hc. unfold bind, read_pool, read_contributor. cbn [pools begin_tx with_ctx].
  rewrite Hp. change (contributors (begin_tx s w)) with (contributors w). by rewrite Hc.
Qed.

Lemma resolve_record k c (body : M unit) :
  contributors w !! k = Some c →
  (read_contributor k (λ _, tt);; body) (begin_tx s w) = body (begin_tx s w).
Proof.
  intros Hc. unfold bind, read_contributor.
  change (contributors (begin_tx s w)) with (contributors w). by rewrite Hc.
Qed.

End resolve.

Lemma effect_run_tx s w call w' :
  effect s w call w' → run_tx (mkTx s call) w = Ok tt w'.
Proof.
  intros Heff. unfold run_tx. cbn [tx_call tx_sender].
  destruct Heff as [|rs pct Hrs Hpct|h coin p Hp Hst Hv Hbal Htot Hmul
    |h cap p r Hp Hr Hst Hop|h coin p Hp Hst Hv Hbal Hacc Hrps
    |h k p c Hp Hc Hst Hown Hmul Hpen Hpct Hgross Hbal
    |h k p c Hp Hc Hst Hown Hmul Hpen
    |h cap p r Hp Hr Hst Hop Hmul Hshare Hbal
    |h cap p r Hp Hr Hst Hop Hmul Hshare
    |h k amount p c Hp Hc Hst Hown Hamt Hle Htot Hbal
    |k c Hc Hz]; cbn [resolve dispatch].
  - unfold create_validator_pool, bind at 1 2. cbv [ret].
    rewrite (create_pool_returns 1000000000 10 (begin_tx s w)) by lia. done.
  - unfold create_custom_validator_pool, bind at 1 2. cbv [ret].
    rewrite (create_pool_returns rs pct (begin_tx s w)) by lia. done.
  - rewrite (resolve_pool s w h p) by done. unfold stake_to_pool, bind at 1.
    rewrite (stake_returns h coin (begin_tx s w) p) by done. done.
  - rewrite (resolve_pool_cap s w h p cap r) by done. unfold activate_validator_pool.
    rewrite (activate_pool_returns h cap (begin_tx s w) p) by done. done.
  - rewrite (resolve_pool s w h p) by done. unfold record_validator_reward.
    rewrite (record_reward_returns h coin (begin_tx s w) p) by done. done.
  - rewrite (resolve_pool_record s w h p k c) by done. unfold claim_user_reward, bind at 1.
    rewrite (claim_reward_pays h k (begin_tx s w) p c) by done. done.
  - rewrite (resolve_pool_record s w h p k c) by done. unfold claim_user_reward, bind at 1.
    rewrite (claim_reward_nothing h k (begin_tx s w) p c) by done. done.
  - rewrite (resolve_pool_cap s w h p cap r) by done.
    unfold claim_operator_rewards, bind at 1.
    rewrite (claim_operator_reward_pays h cap (begin_tx s w) p) by done. done.
  - rewrite (resolve_pool_cap s w h p cap r) by done.
    unfold claim_operator_rewards, bind at 1.
    rewrite (claim_operator_reward_nothing h cap (begin_tx s w) p) by done. done.
  - rewrite (resolve_pool_record s w h p k c) by done.
    unfold withdraw_user_stake, bind at 1.
    rewrite (withdraw_stake_returns h k amount (begin_tx s w) p c) by done. done.
  - rewrite (resolve_record s w k c) by done.
    unfold destroy_empty_contributor, bind, take_contributor, assert.
    change (contributors (begin_tx s w)) with (contributors w). rewrite Hc, Hz. done.
Qed.
(** * Round trips and what the views show *)

Lemma stake_effect_inv s w h coin w1 :
  effect s w (StakeToPool h coin) w1 →
  ∃ p, pools w !! h = Some p ∧
       (status p = COLLECTING ∨ status p = READY) ∧ 0 < coin_value coin ∧
       w1 = stake_effect s h p (coin_value coin) w.
Proof. inversion 1; subst. eauto 10. Qed.

(** X10.  Stake, withdraw, destroy is a round trip.  In a reachable store,
    after a [stake_to_pool] that returns, the same sender can withdraw the
    whole amount from the record just created and then destroy the record:
    both calls return, the coin handed back is worth the amount staked, and
    the pools (status included), the records and the caps are exactly as
    before the stake. *)
Theorem stake_withdraw_destroy_round_trip w s h coin w1 :
  reachable w → run_tx (mkTx s (StakeToPool h coin)) w = Ok tt w1 →
  let k := ids_created (ctx w) in
  ∃ w2 w3,
    run_tx (mkTx s (WithdrawUserStake h k (coin_value coin))) w1 = Ok tt w2 ∧
    run_tx (mkTx s (DestroyEmptyContributor k)) w2 = Ok tt w3 ∧
    pools w3 = pools w ∧ contributors w3 = contributors w ∧ caps w3 = caps w ∧
    coins w3 = coins w ++ [(s, mkCoin (k + 1) (mkBalance (coin_value coin)))].
Proof.
  intros Hr Hstake k. destruct (reachable_wf w Hr) as [Hw _].
  pose proof (fresh_ids w Hw) as Hfresh. cbv zeta in Hfresh.
  apply run_tx_effect, stake_effect_inv in Hstake as (p & Hp & Hst & Hv & ->).
  destruct Hw as (Hps & _).
  destruct (Hps h p Hp) as (_ & (_ & _ & Hts & _ & _ & Hbal & _ & _ & Hcoll & Hready & _) & _).
  unfold in_u64 in *. set (v := coin_value coin) in *.
  set (p1 := set_status (stake_status p v)
               (set_total_stake (total_stake p + v)
                  (set_balance (mkBalance (value (balance p) + v)) p))).
  set (c1 := mkContributor k (id p) s v (reward_per_stake p * v / 1000000)).
  assert (status p1 = COLLECTING ∨ status p1 = READY) as Hst1.
  { subst p1. unfold stake_status. pool_fields.
    destruct ((_ >=? _) && _); [by right|done]. }
  assert (effect s (stake_effect s h p v w) (WithdrawUserStake h k v)
            (withdraw_effect s h k p1 c1 v (stake_effect s h p v w))) as Hwd.
  { apply effect_withdraw; unfold stake_effect; cbn [pools contributors];
      rewrite ?lookup_insert_eq; subst p1 c1; pool_fields; try done; lia. }
  set (w2 := withdraw_effect s h k p1 c1 v (stake_effect s h p v w)) in *.
  assert (effect s w2 (DestroyEmptyContributor k) (destroy_effect s k w2)) as Hde.
  { apply (effect_destroy s w2 k (set_staked_amount (staked_amount c1 - v) c1)).
    - subst w2. unfold withdraw_effect. cbn [contributors]. by rewrite lookup_insert_eq.
    - subst c1. pool_fields. lia. }
  exists w2, (destroy_effect s k w2).
  split; [by apply effect_run_tx|]. split; [by apply effect_run_tx|].
  subst w2. unfold destroy_effect, withdraw_effect, stake_effect.
  cbn [pools contributors caps coins ctx ids_created]. repeat split.
  - rewrite insert_insert_eq.
    assert (set_balance (mkBalance (value (balance p1) - v))
              (set_status (withdraw_status p1 v)
                 (set_total_stake (total_stake p1 - v) p1)) = p) as ->.
    { subst p1. destruct p as [pid rs ts op pct st acc rps [bal]].
      unfold withdraw_status, stake_status in *. pool_fields.
      replace (ts + v - v) with ts by lia. replace (bal + v - v) with bal by lia.
      unfold set_balance, set_status, set_total_stake. cbn. f_equal.
      destruct ((ts + v >=? rs) && (st =? COLLECTING)) eqn:E1;
        [change (READY =? READY) with true|];
        destruct (ts <? rs) eqn:E2; zbool; cbn [andb];
        try (destruct (st =? READY) eqn:E3); zbool; unfold_status; lia. }
    by apply insert_id.
  - rewrite insert_insert_eq. apply delete_insert_id. apply Hfresh. lia.
Qed.

Lemma stake_withdraw_destroy_round_trip_witness :
  ∃ w2 w3,
    run_tx (mkTx 11 (WithdrawUserStake 0 (ids_created (ctx collecting_store))
                       (coin_value (coin_of 1000)))) ready_store = Ok tt w2 ∧
    run_tx (mkTx 11 (DestroyEmptyContributor (ids_created (ctx collecting_store)))) w2
    = Ok tt w3 ∧
    pools w3 = pools collecting_store ∧
    contributors w3 = contributors collecting_store ∧
    caps w3 = caps collecting_store ∧
    coins w3 = coins collecting_store
               ++ [(11, mkCoin (ids_created (ctx collecting_store) + 1)
                          (mkBalance (coin_value (coin_of 1000))))].
Proof.
  refine (stake_withdraw_destroy_round_trip collecting_store 11 0 (coin_of 1000)
            ready_store _ _).
  - apply (reachable_typed (take 1 lifecycle)). vm_compute; reflexivity.
  - vm_compute; reflexivity.
Defined.

(** X11.  What the views show after a stake.  In a reachable store, after
    a [stake_to_pool] of a coin worth [v] into pool [h] that returns,
    [get_contributor_info] on the new record gives pool [h], the sender, [v]
    and a debt of 0; [is_contributor_for_pool] holds of the record with pool
    [h] and with no other pool; [get_pool_info] shows [total_stake] and
    balance grown by [v], and the status Ready exactly when the threshold is
    met. *)
Theorem views_after_stake w s h coin w1 p :
  reachable w → pools w !! h = Some p →
  run_tx (mkTx s (StakeToPool h coin)) w = Ok tt w1 →
  let k := ids_created (ctx w) in
  let v := coin_value coin in
  get_contributor_info k w1 = Ok (h, s, v, 0) w1 ∧
  (∀ h' p', pools w1 !! h' = Some p' →
     is_contributor_for_pool k h' w1 = Ok (h' =? h) w1) ∧
  get_pool_info h w1
  = Ok (required_stake p, total_stake p + v, operator p, operator_reward_pct p,
        (if required_stake p <=? total_stake p + v then READY else COLLECTING),
        0, value (balance p) + v) w1.
Proof.
  intros Hr Hp Hstake k v. destruct (reachable_wf w Hr) as [Hw _].
  pose proof Hw as (Hps & _).
  apply run_tx_effect, stake_effect_inv in Hstake as (p0 & Hp0 & Hst & Hv & ->).
  pose proof (eq_trans (eq_sym Hp) Hp0) as [= <-]. clear Hp0.
  destruct (Hps h p Hp) as (_ & (Hid & _ & _ & _ & _ & _ & _ & _ & Hcoll & Hready & Hidle) & _).
  destruct Hidle as [Hrps Hacc]; [unfold_status; lia|].
  fold v. split; [|split].
  - unfold get_contributor_info, bind, read_contributor, stake_effect. cbn [contributors].
    rewrite lookup_insert_eq. cbv [ret]. pool_fields. rewrite Hid, Hrps. done.
  - intros h' p' Hp'.
    assert (id p' = h') as Hid'.
    { unfold stake_effect in Hp'. cbn [pools] in Hp'.
      apply lookup_insert_Some in Hp' as [[<- <-]|[_ Hp']]; [by pool_fields|].
      by destruct (Hps h' p' Hp') as (_ & (? & _) & _). }
    unfold is_contributor_for_pool, bind, read_contributor, read_pool.
    unfold stake_effect in *. cbn [contributors pools] in *.
    rewrite lookup_insert_eq. cbn [pools]. rewrite Hp'. cbv [ret]. pool_fields.
    rewrite Hid, Hid'.
    f_equal. apply Z.eqb_sym.
  - unfold get_pool_info, bind, read_pool, stake_effect. cbn [pools].
    rewrite lookup_insert_eq. cbv [ret]. unfold stake_status, balance_value. pool_fields.
    rewrite Hacc. f_equal. f_equal. f_equal. f_equal.
    destruct Hst as [Hc|Hrd].
    + rewrite Hc. change (COLLECTING =? COLLECTING) with true. rewrite andb_true_r.
      rewrite Z.geb_leb. done.
    + assert (required_stake p ≤ total_stake p) by (apply Hready; unfold_status; lia).
      rewrite Hrd. change (READY =? COLLECTING) with false. rewrite andb_false_r.
      destruct (required_stake p <=? total_stake p + v) eqn:E; zbool; [done|lia].
Qed.

Lemma views_after_stake_witness :
  get_contributor_info (ids_created (ctx collecting_store)) ready_store
  = Ok (0, 11, coin_value (coin_of 1000), 0) ready_store.
Proof.
  refine (proj1 (views_after_stake collecting_store 11 0 (coin_of 1000) ready_store
                   (mkValidatorPool 0 1000 0 10 10 COLLECTING 0 0 (mkBalance 0)) _ _ _)).
  - apply (reachable_typed (take 1 lifecycle)). vm_compute; reflexivity.
  - vm_compute; reflexivity.
  - vm_compute; reflexivity.
Defined.

(** X12.  The default pool.  [create_validator_pool] never fails: in a
    reachable store it returns for every sender and creates, under a fresh
    ID [n], a Collecting pool of the sender with a threshold of 1000000000
    and an operator cut of 10 percent, with its OperatorCap under [n + 1];
    it is [create_custom_validator_pool 1000000000 10].  Every pool, record
    and cap that was in the store is still there unchanged. *)
Theorem default_pool_is_created w s :
  reachable w →
  let n := ids_created (ctx w) in
  ∃ w', run_tx (mkTx s CreateValidatorPool) w = Ok tt w' ∧
        run_tx (mkTx s (CreateCustomValidatorPool 1000000000 10)) w = Ok tt w' ∧
        get_pool_info n w' = Ok (1000000000, 0, s, 10, COLLECTING, 0, 0) w' ∧
        caps w' !! (n + 1) = Some (mkOperatorCap (n + 1) n) ∧
        (∀ h p, pools w !! h = Some p → pools w' !! h = Some p) ∧
        (∀ k r, caps w !! k = Some r → caps w' !! k = Some r) ∧
        contributors w' = contributors w.
Proof.
  intros Hr n. destruct (reachable_wf w Hr) as [Hw _].
  pose proof (fresh_ids w Hw) as Hfresh. cbv zeta in Hfresh.
  exists (create_effect s 1000000000 10 w).
  split; [apply effect_run_tx, effect_create_default|].
  split; [apply effect_run_tx, effect_create; lia|].
  unfold create_effect. fold n. cbn [pools caps contributors].
  split; [|split; [|split; [|split]]].
  - unfold get_pool_info, bind, read_pool. cbn [pools]. by rewrite lookup_insert_eq.
  - by rewrite lookup_insert_eq.
  - intros h p Hp. rewrite lookup_insert_ne; [done|]. intros <-.
    destruct (Hfresh n) as (Hnone & _); [lia|].
    pose proof (eq_trans (eq_sym Hp) Hnone). discriminate.
  - intros k r Hk. rewrite lookup_insert_ne; [done|]. intros <-.
    destruct (Hfresh (n + 1)) as (_ & _ & Hnone); [lia|].
    pose proof (eq_trans (eq_sym Hk) Hnone). discriminate.
  - done.
Qed.

Lemma default_pool_is_created_witness :
  ∃ w', run_tx (mkTx 20 CreateValidatorPool) active_store = Ok tt w' ∧
        run_tx (mkTx 20 (CreateCustomValidatorPool 1000000000 10)) active_store = Ok tt w'.
Proof.
  destruct (default_pool_is_created active_store 20) as (w' & Hdefault & Hcustom & _).
  - apply (reachable_typed lifecycle). vm_compute; reflexivity.
  - exists w'. split; [exact Hdefault|exact Hcustom].
Defined.

(** X13.  [destroy_empty_contributor] looks at the stake only.  For a record
    in the store, sent by anyone: when [staked_amount] is 0 the call returns
    and removes the record, leaving every pool, every other record, every
    cap, coin and event as they were; otherwise it aborts with
    [E_INSUFFICIENT_STAKE].  A record it removes had no reward pending:
    [calculate_pending_reward] returns 0 for it against every pool. *)
Theorem destroy_empty_contributor_outcome w s k c :
  contributors w !! k = Some c →
  (staked_amount c = 0 →
     (∃ w', run_tx (mkTx s (DestroyEmptyContributor k)) w = Ok tt w' ∧
            contributors w' = delete k (contributors w) ∧
            pools w' = pools w ∧ caps w' = caps w ∧ coins w' = coins w ∧
            events w' = events w) ∧
     (∀ h p, pools w !! h = Some p → calculate_pending_reward h k w = Ok 0 w)) ∧
  (staked_amount c ≠ 0 →
     ∃ w', run_tx (mkTx s (DestroyEmptyContributor k)) w
           = Abort (Assert E_INSUFFICIENT_STAKE) w').
Proof.
  intros Hc. split.
  - intros Hz. split.
    + exists (destroy_effect s k w). split; [|done].
      by apply effect_run_tx, (effect_destroy s w k c).
    + intros h p Hp. apply (calculate_pending_reward_idle h k w p c); auto.
  - intros Hnz. unfold run_tx. cbn [tx_call tx_sender resolve dispatch].
    rewrite (resolve_record s w k c) by done.
    unfold destroy_empty_contributor, bind, take_contributor, assert.
    change (contributors (begin_tx s w)) with (contributors w). rewrite Hc.
    apply Z.eqb_neq in Hnz. rewrite Hnz. eauto.
Qed.

Lemma destroy_empty_contributor_outcome_witness :
  ∃ w', run_tx (mkTx 11 (DestroyEmptyContributor 2)) emptied_store = Ok tt w' ∧
        contributors w' = delete 2 (contributors emptied_store).
Proof.
  destruct (proj1 (proj1 (destroy_empty_contributor_outcome emptied_store 11 2
                            (mkContributor 2 0 11 0 0) ltac:(vm_compute; reflexivity))
                     eq_refl))
    as (w' & Hrun & Hrecords & _).
  exists w'. split; [exact Hrun|exact Hrecords].
Defined.

(** X14.  A transaction touches only what it names.  In a reachable store,
    a transaction leaves every pool other than the one it names exactly as
    it was, and every Contributor Record other than the one it names; and no
    transaction ever changes or removes an OperatorCap. *)
Theorem other_objects_are_untouched w t :
  reachable w →
  (∀ h p, pools w !! h = Some p → pool_named (tx_call t) ≠ Some h →
     pools (execute t w) !! h = Some p) ∧
  (∀ k c, contributors w !! k = Some c → record_named (tx_call t) ≠ Some k →
     contributors (execute t w) !! k = Some c) ∧
  (∀ k r, caps w !! k = Some r → caps (execute t w) !! k = Some r).
Proof.
  intros Hr. destruct (reachable_wf w Hr) as [Hw _].
  pose proof (fresh_ids w Hw) as Hfresh. cbv zeta in Hfresh.
  assert (∀ {A} (m : gmap ID A) k x, m !! k = Some x → k < ids_created (ctx w) →
            ∀ y, <[ids_created (ctx w) := y]> m !! k = Some x) as Hnew.
  { intros A m k x Hk Hlt y. rewrite lookup_insert_ne by lia. done. }
  assert (∀ {A} (m : gmap ID A) k x, m !! k = Some x → k < ids_created (ctx w) →
            ∀ y, <[ids_created (ctx w) + 1 := y]> m !! k = Some x) as Hnew1.
  { intros A m k x Hk Hlt y. rewrite lookup_insert_ne by lia. done. }
  assert (∀ {A} (m : gmap ID A) k k0 x y, m !! k = Some x → Some k0 ≠ Some k →
            <[k0 := y]> m !! k = Some x) as Hother.
  { intros A m k k0 x y Hk Hne. rewrite lookup_insert_ne; [done|]. congruence. }
  destruct Hw as (Hps & Hcs & Hcp).
  exec_cases (execute_cases t w) t Heff; [|done].
  split; [|split].
  - intros h p Hp Hne. destruct (Hps h p Hp) as (? & _).
    destruct Heff; unfold_effects; cbn [pool_named] in Hne;
      first [done | by apply Hnew; [|lia] | by apply Hother].
  - intros k c Hc Hne. destruct (Hcs k c Hc) as (? & _).
    destruct Heff; unfold_effects; cbn [record_named] in Hne;
      first [done | by apply Hnew; [|lia] | by apply Hother | idtac].
    rewrite lookup_delete_ne; [done|]. congruence.
  - intros k r Hk. destruct (Hcp k r Hk) as (? & _).
    destruct Heff; unfold_effects; first [done | by apply Hnew1; [|lia]].
Qed.

Lemma other_objects_are_untouched_witness :
  pools (execute (mkTx 21 (StakeToPool 3 (coin_of 50))) two_pools_store) !! 0
  = Some (mkValidatorPool 0 1000 1000 10 10 ACTIVE 100 100000 (mkBalance 1100)).
Proof.
  refine (proj1 (other_objects_are_untouched two_pools_store
                   (mkTx 21 (StakeToPool 3 (coin_of 50))) _) 0 _ _ _).
  - apply (reachable_typed two_pools). vm_compute; reflexivity.
  - vm_compute; reflexivity.
  - discriminate.
Defined.
(** * The event log and the pools *)

Lemma events_grow w t e : e ∈ events w → e ∈ events (execute t w).
Proof.
  intros He. exec_cases (execute_cases t w) t Heff; [|done].
  destruct Heff; unfold_effects; try done; apply elem_of_app; by left.
Qed.

(** A [PoolCreated] event of the log was there before the transaction, or
    announces the pool the transaction has created. *)
Lemma pool_created_origin w t h op rs pct :
  PoolCreated h op rs pct ∈ events (execute t w) →
  PoolCreated h op rs pct ∈ events w ∨
  ∃ p, pools (execute t w) !! h = Some p ∧
       operator p = op ∧ required_stake p = rs ∧ operator_reward_pct p = pct.
Proof.
  intros He. exec_cases (execute_cases t w) t Heff; [|by left].
  destruct Heff; unfold_effects; try (by left);
    apply elem_of_app in He as [He|He]; try (by left);
    apply list_elem_of_singleton in He; try discriminate;
    injection He as -> -> -> ->; right; eexists; rewrite lookup_insert_eq; done.
Qed.

(** A pool of the store was there before the transaction, or has been
    created by it and is announced in the log. *)
Lemma pool_origin w t h p' :
  pools (execute t w) !! h = Some p' →
  (∃ p, pools w !! h = Some p ∧ pool_kept p p') ∨
  PoolCreated h (operator p') (required_stake p') (operator_reward_pct p')
    ∈ events (execute t w).
Proof.
  intros Hp'.
  exec_cases (execute_cases t w) t Heff;
    [|left; exists p'; split; [done|apply pool_kept_refl]].
  assert (∀ h0 (q q' : ValidatorPool),
            pools w !! h0 = Some q → pool_kept q q' →
            <[h0 := q']> (pools w) !! h = Some p' →
            ∃ p, pools w !! h = Some p ∧ pool_kept p p') as Hupd.
  { intros h0 q q' Hq Hk Hins. apply lookup_insert_Some in Hins as [[<- <-]|[_ Hins]].
    - eauto.
    - exists p'. split; [done|apply pool_kept_refl]. }
  destruct Heff as [|rs pct Hrs Hpct|h0 coin q Hq Hst Hv Hbal Htot Hmul
    |h0 cap q r Hq Hr Hst Hop|h0 coin q Hq Hst Hv Hbal Hacc Hrps
    |h0 k q c Hq Hc Hst Hown Hmul Hpen Hpct Hgross Hbal
    |h0 k q c Hq Hc Hst Hown Hmul Hpen
    |h0 cap q r Hq Hr Hst Hop Hmul Hshare Hbal
    |h0 cap q r Hq Hr Hst Hop Hmul Hshare
    |h0 k amount q c Hq Hc Hst Hown Hamt Hle Htot Hbal
    |k c Hc Hz]; unfold_effects;
    try (left; exists p'; split; [done|apply pool_kept_refl]);
    try (left; eapply Hupd; [exact Hq| |exact Hp'];
         unfold pool_kept; pool_fields; repeat split; try lia;
         apply (record_rps_ge q (coin_value coin) Hv)).
  - apply lookup_insert_Some in Hp' as [[<- <-]|[_ Hp']].
    + right. apply elem_of_app. right. apply list_elem_of_singleton. done.
    + left. exists p'. split; [done|apply pool_kept_refl].
  - apply lookup_insert_Some in Hp' as [[<- <-]|[_ Hp']].
    + right. apply elem_of_app. right. apply list_elem_of_singleton. done.
    + left. exists p'. split; [done|apply pool_kept_refl].
Qed.

(** X15.  Every pool is announced, and only pools are.  In a reachable
    store the log holds, for each pool, a [PoolCreated] event with the
    pool's id, [operator], [required_stake] and [operator_reward_pct] as
    they are now; and each [PoolCreated] event of the log names a pool of
    the store with these parameters. *)
Theorem pools_are_announced w :
  reachable w →
  (∀ h p, pools w !! h = Some p →
     PoolCreated h (operator p) (required_stake p) (operator_reward_pct p) ∈ events w) ∧
  (∀ h op rs pct, PoolCreated h op rs pct ∈ events w →
     ∃ p, pools w !! h = Some p ∧
          operator p = op ∧ required_stake p = rs ∧ operator_reward_pct p = pct).
Proof.
  induction 1 as [|t w Hr [IH1 IH2] Hty].
  - split.
    + intros h p Hp. cbn in Hp. by rewrite lookup_empty in Hp.
    + intros h op rs pct He. cbn in He. by apply elem_of_nil in He.
  - destruct (reachable_wf w Hr) as [Hw _]. split.
    + intros h p' Hp'. destruct (pool_origin w t h p' Hp') as [(p & Hp & Hk)|?]; [|done].
      destruct Hk as (_ & -> & -> & -> & _). apply events_grow. by apply IH1.
    + intros h op rs pct He.
      destruct (pool_created_origin w t h op rs pct He) as [Hold|?]; [|done].
      destruct (IH2 h op rs pct Hold) as (p & Hp & <- & <- & <-).
      destruct (pool_kept_step w h p t Hw Hp) as (p' & Hp' & _ & ? & ? & ? & _).
      by exists p'.
Qed.

Lemma pools_are_announced_witness :
  PoolCreated 3 20 500 25 ∈ events two_pools_store.
Proof.
  refine (proj1 (pools_are_announced two_pools_store _) 3
            (mkValidatorPool 3 500 200 20 25 COLLECTING 0 0 (mkBalance 200)) _).
  - apply (reachable_typed two_pools). vm_compute; reflexivity.
  - vm_compute; reflexivity.
Defined.

(** * Once a pool is active *)

(** X16.  Activation is final and locks the stake.  Once a pool is Active
    in a reachable store, then in every store reached from there
    [withdraw_stake] on it aborts with [E_WITHDRAWAL_NOT_ALLOWED], whatever
    the record, the amount and the sender, and [stake] into it aborts with
    [E_INVALID_STATE]: the module has no way back from Active. *)
Theorem stake_is_locked_once_active w w' h p :
  reachable w → pools w !! h = Some p → status p = ACTIVE → future w w' →
  ∀ s,
    (∀ k c amount, contributors w' !! k = Some c →
       withdraw_stake h k amount (begin_tx s w')
       = Abort (Assert E_WITHDRAWAL_NOT_ALLOWED) (begin_tx s w')) ∧
    (∀ coin, stake h coin (begin_tx s w')
             = Abort (Assert E_INVALID_STATE) (begin_tx s w')).
Proof.
  intros Hr Hp Hst Hfut s.
  destruct (active_pool_future w w' h p (reachable_basic w Hr) Hp Hst Hfut)
    as (p' & Hp' & Hst' & _).
  split.
  - intros k c amount Hc.
    pose proof (withdraw_stake_spec h k amount (begin_tx s w') p' c Hp' Hc) as Hspec.
    destruct (withdraw_stake h k amount (begin_tx s w')) as [coin w1|[code| | |] w1];
      cbn in Hspec; try done.
    + destruct Hspec as ([?|?] & _); unfold_status; lia.
    + destruct Hspec as (-> & [(-> & _)|([?|?] & _)]); [done|unfold_status; lia..].
    + destruct Hspec as ([?|?] & _); unfold_status; lia.
    + destruct Hspec as ([?|?] & _); unfold_status; lia.
  - intros coin.
    pose proof (stake_spec h coin (begin_tx s w') p' Hp') as Hspec.
    destruct (stake h coin (begin_tx s w')) as [c w1|[code| | |] w1];
      cbn in Hspec; try done.
    + destruct Hspec as ([?|?] & _); unfold_status; lia.
    + destruct Hspec as (-> & [(-> & _)|(_ & [?|?] & _)]); [done|unfold_status; lia..].
    + destruct Hspec as ([?|?] & _); unfold_status; lia.
Qed.

Lemma stake_is_locked_once_active_witness :
  withdraw_stake 0 2 1000 (begin_tx 11 claimed_store)
  = Abort (Assert E_WITHDRAWAL_NOT_ALLOWED) (begin_tx 11 claimed_store).
Proof.
  refine (proj1 (stake_is_locked_once_active active_store claimed_store 0
                   (mkValidatorPool 0 1000 1000 10 10 ACTIVE 100 100000 (mkBalance 1100))
                   _ _ eq_refl _ 11) 2 (mkContributor 2 0 11 1000 100) 1000 _).
  - apply (reachable_typed lifecycle). vm_compute; reflexivity.
  - vm_compute; reflexivity.
  - apply future_execute; [apply future_now|reflexivity].
  - vm_compute; reflexivity.
Defined.

(** X17.  One reward is bounded.  On an Active pool of a reachable store,
    [record_reward] aborts with an arithmetic error for every coin worth
    more than 18446744073709, because [reward_amount * 1000000] leaves
    [u64]; the transaction leaves the store as it was. *)
Theorem record_reward_is_bounded w s h p coin :
  reachable w → pools w !! h = Some p → status p = ACTIVE →
  18446744073709 < coin_value coin →
  (∃ w', record_reward h coin (begin_tx s w) = Abort ARITHMETIC_ERROR w') ∧
  execute (mkTx s (RecordValidatorReward h coin)) w = w.
Proof.
  intros Hr Hp Hst Hbig.
  destruct (reachable_basic w Hr h p Hp) as (_ & _ & Hreq & _ & _ & Hready & _).
  assert (0 < total_stake p) as Hpos.
  { assert (required_stake p ≤ total_stake p) by (apply Hready; unfold_status; lia). lia. }
  assert (∃ w', record_reward h coin (begin_tx s w) = Abort ARITHMETIC_ERROR w') as Habs.
  { pose proof (record_reward_spec h coin (begin_tx s w) p Hp) as Hspec.
    destruct (record_reward h coin (begin_tx s w)) as [[] w1|[code| | |] w1];
      cbn in Hspec; try done.
    - destruct Hspec as (_ & _ & _ & _ & Hmul & _). destruct (Hmul Hpos).
      unfold u64_max in *. lia.
    - destruct Hspec as (_ & [(_ & ?)|(_ & _ & ?)]); [done|lia].
    - eauto. }
  split; [done|]. destruct Habs as [w' Habs].
  unfold execute, run_tx. cbn [tx_call tx_sender resolve dispatch].
  rewrite (resolve_pool s w h p) by done. unfold record_validator_reward.
  by rewrite Habs.
Qed.

Lemma record_reward_is_bounded_witness :
  execute (mkTx 10 (RecordValidatorReward 0 (coin_of 18446744073710))) active_store
  = active_store.
Proof.
  refine (proj2 (record_reward_is_bounded active_store 10 0
                   (mkValidatorPool 0 1000 1000 10 10 ACTIVE 100 100000 (mkBalance 1100))
                   (coin_of 18446744073710) _ _ eq_refl _)).
  - apply (reachable_typed lifecycle). vm_compute; reflexivity.
  - vm_compute; reflexivity.
  - vm_compute; reflexivity.
Defined.

Lemma claim_reward_overflow h k w p c :
  pools w !! h = Some p → contributors w !! k = Some c →
  status p = ACTIVE → owner c = sender (ctx w) →
  u64_max < staked_amount c * reward_per_stake p →
  claim_reward h k w = Abort ARITHMETIC_ERROR w.
Proof.
  intros Hp Hc Hst Hown Hbig. focus_both w Hp Hc.
  destruct p as [pid rs ts op pct st acc rps [bal]], c as [cid cpid own stk debt].
  cbn in Hst, Hown, Hbig. subst st own.
  unfold claim_reward. mrun_det. reflexivity.
Qed.

(** X18.  A claim that overflows stays out of reach.  [claim_reward]
    computes [staked_amount * reward_per_stake] before it subtracts the
    debt.  Once this product is beyond [u64] for a record of an Active pool
    in a reachable store, then in every store reached from there in which
    the record still has that stake, [claim_reward] sent by its owner aborts
    with an arithmetic error, and so does [calculate_pending_reward]:
    [reward_per_stake] never goes down and a past claim does not help. *)
Theorem claim_overflow_is_permanent w w' h p k c c' :
  reachable w → pools w !! h = Some p → status p = ACTIVE →
  contributors w !! k = Some c →
  u64_max < staked_amount c * reward_per_stake p →
  future w w' →
  contributors w' !! k = Some c' → staked_amount c' = staked_amount c →
  (∃ w1, claim_reward h k (begin_tx (owner c') w') = Abort ARITHMETIC_ERROR w1) ∧
  (∀ s, ∃ w1, calculate_pending_reward h k (begin_tx s w') = Abort ARITHMETIC_ERROR w1).
Proof.
  intros Hr Hp Hst Hc Hbig Hfut Hc' Hsame.
  pose proof (reachable_wf w Hr) as Hw.
  destruct (active_pool_future w w' h p (reachable_basic w Hr) Hp Hst Hfut)
    as (p' & Hp' & Hst' & _).
  destruct (pool_kept_future w w' h p Hw Hp Hfut) as (p'' & Hp'' & Hk).
  pose proof (eq_trans (eq_sym Hp') Hp'') as [= <-]. clear Hp''.
  destruct Hk as (_ & _ & _ & _ & Hrps).
  destruct Hw as [(_ & Hcs & _) _].
  destruct (Hcs k c Hc) as (_ & (_ & Hstk & _) & _). unfold in_u64 in Hstk.
  assert (u64_max < staked_amount c' * reward_per_stake p') as Hbig'.
  { rewrite Hsame. nia. }
  assert (staked_amount c' ≠ 0) as Hnz.
  { intros Hz. rewrite Hz in Hbig'. unfold u64_max in *. lia. }
  split.
  - exists (begin_tx (owner c') w').
    by apply (claim_reward_overflow h k (begin_tx (owner c') w') p' c').
  - intros s.
    pose proof (calculate_pending_reward_spec h k (begin_tx s w') p' c' Hp' Hc') as Hspec.
    destruct (calculate_pending_reward h k (begin_tx s w')) as [v w1|[code| | |] w1];
      cbn in Hspec; try done.
    + destruct Hspec as (_ & [([?|?] & _)|(_ & _ & ? & _)]); [done..|lia].
    + eauto.
Qed.

Lemma claim_overflow_is_permanent_witness :
  ∃ w1, claim_reward 0 2 (begin_tx 11 overflowing_store) = Abort ARITHMETIC_ERROR w1.
Proof.
  refine (proj1 (claim_overflow_is_permanent overflowing_store overflowing_store 0
                   (mkValidatorPool 0 1000 1000 10 10 ACTIVE 20000000000000
                      20000000000000000 (mkBalance 20000000001000))
                   2 (mkContributor 2 0 11 1000 0) (mkContributor 2 0 11 1000 0)
                   _ _ eq_refl _ _ (future_now _) _ eq_refl)).
  - apply (reachable_typed overflowing). vm_compute; reflexivity.
  - vm_compute; reflexivity.
  - vm_compute; reflexivity.
  - vm_compute; reflexivity.
  - vm_compute; reflexivity.
Defined.
(** * Liveness in scoped histories *)

Lemma sum_of_nonneg f h (cs : gmap ID Contributor) :
  (∀ k c, cs !! k = Some c → pool_id c = h → 0 ≤ f c) → 0 ≤ sum_of f h cs.
Proof.
  intros Hall.
  assert (sum_of (λ _, 0) h cs = 0) as <-.
  { change (λ _ : Contributor, 0) with (λ c : Contributor, 0 * f c).
    rewrite sum_of_scale. lia. }
  by apply sum_of_le.
Qed.

(** A record of the pool counts for no more than the sum over the pool. *)
Lemma sum_of_member f h (cs : gmap ID Contributor) k c :
  (∀ k c, cs !! k = Some c → pool_id c = h → 0 ≤ f c) →
  cs !! k = Some c → pool_id c = h → f c ≤ sum_of f h cs.
Proof.
  intros Hall Hc Hown.
  pose proof (sum_of_delete f h k c cs Hc) as Hdel. rewrite weight_own in Hdel by done.
  assert (0 ≤ sum_of f h (delete k cs)); [|lia].
  apply sum_of_nonneg. intros k' c' Hc' Hown'.
  apply lookup_delete_Some in Hc' as [_ Hc']. by apply (Hall k').
Qed.

Lemma sum_of_plus f g h (cs : gmap ID Contributor) :
  sum_of (λ c, f c + g c) h cs = sum_of f h cs + sum_of g h cs.
Proof.
  induction cs as [|k c cs Hk IH] using map_ind.
  - rewrite !sum_of_empty. lia.
  - rewrite !sum_of_insert_fresh by done. rewrite IH. unfold weight.
    destruct (pool_id c =? h); lia.
Qed.

(** X19.  Before activation every stake can be withdrawn.  In a store
    reached by a history in which each Contributor Record is presented only
    with the pool it was staked into, for a pool that is not Active the
    owner of a record of the pool can withdraw any amount up to its
    [staked_amount]: [withdraw_stake] returns a coin worth the amount. *)
Theorem withdrawal_is_funded w h p k c amount :
  reachable_scoped w → pools w !! h = Some p → status p ≠ ACTIVE →
  contributors w !! k = Some c → pool_id c = h →
  0 < amount ≤ staked_amount c →
  ∃ coin w', withdraw_stake h k amount (begin_tx (owner c) w) = Ok coin w' ∧
             coin_value coin = amount.
Proof.
  intros Hr Hp Hst Hc Hown Hamt. pose proof (reachable_scoped_inv w Hr) as Hw.
  pose proof Hw as [Hps Hcs].
  destruct (Hps h p Hp) as (_ & _ & Hstat & _ & _ & Htot & _ & Hidle & _).
  destruct (Hidle Hst) as (_ & _ & Hbal).
  assert (staked_amount c ≤ total_stake p) as Hle.
  { rewrite Htot. apply (sum_of_member staked_amount h (contributors w) k c); try done.
    intros k' c' Hc' _. by destruct (Hcs k' c' Hc') as (_ & _ & ? & _). }
  eexists _, _. split.
  - apply (withdraw_stake_returns h k amount (begin_tx (owner c) w) p c); try done;
      try lia; destruct Hstat as [?|[?|?]]; auto; done.
  - done.
Qed.

Lemma withdrawal_is_funded_witness :
  ∃ coin w', withdraw_stake 0 2 400 (begin_tx 11 ready_store) = Ok coin w' ∧
             coin_value coin = 400.
Proof.
  refine (withdrawal_is_funded ready_store 0
            (mkValidatorPool 0 1000 1000 10 10 READY 0 0 (mkBalance 1000)) 2
            (mkContributor 2 0 11 1000 0) 400 _ _ _ _ eq_refl _).
  - apply reachable_scoped_execute_all; [constructor|vm_compute; reflexivity].
  - vm_compute; reflexivity.
  - discriminate.
  - vm_compute; reflexivity.
  - cbn [staked_amount]. lia.
Defined.

(** What an Active or idle pool holds beyond its total stake covers what
    [claim_reward] would pay to all of its records together and what
    [claim_operator_reward] would pay. *)
Lemma pool_is_funded w h p :
  world_inv w → pools w !! h = Some p →
  0 ≤ total_stake p ∧ 0 ≤ operator_share p ∧
  (∀ k c, contributors w !! k = Some c → pool_id c = h →
     0 ≤ user_share p c ≤ sum_of (user_share p) h (contributors w)) ∧
  total_stake p + sum_of (user_share p) h (contributors w) + operator_share p
    ≤ value (balance p).
Proof.
  intros Hw Hp. pose proof Hw as [Hps Hcs].
  destruct (Hps h p Hp) as (_ & _ & _ & _ & Hpct & Htot & _ & _ & R & HR).
  pose proof HR as (Hacc & Hrps & Hscaled & Hcover & Hpaid).
  set (cs := contributors w) in *.
  assert (∀ k c, cs !! k = Some c → pool_id c = h →
            0 ≤ pending p c ∧ 0 ≤ user_share p c ∧
            100 * user_share p c ≤ (100 - operator_reward_pct p) * pending p c) as Hshare.
  { intros k c Hc Hown. destruct (Hcs k c Hc) as (_ & _ & Hs & Hd & Hsettled).
    rewrite Hown in Hsettled. specialize (Hsettled p Hp).
    destruct (settled_bounds p c Hs Hrps) as [_ Hfloor].
    assert (reward_debt c ≤ settled p c) as Hle.
    { unfold settled. apply Z.div_le_lower_bound; lia. }
    assert (0 ≤ pending p c) as Hpen by (unfold pending; lia).
    split; [done|].
    destruct (decide (pending p c = 0)) as [Hz|Hnz].
    - assert (user_share p c = 0) as -> by (unfold user_share; by rewrite Hz). lia.
    - apply (user_share_bounds p c); lia. }
  assert (100 * sum_of (user_share p) h cs
          ≤ (100 - operator_reward_pct p) * (sum_of (settled p) h cs - debt_in h cs))
    as Husers.
  { rewrite <- sum_of_scale.
    assert (sum_of (settled p) h cs - debt_in h cs
            = sum_of (λ c, settled p c + (-1) * reward_debt c) h cs) as ->.
    { rewrite sum_of_plus, sum_of_scale. unfold debt_in. lia. }
    rewrite <- sum_of_scale. apply sum_of_le. intros k c Hc Hown.
    destruct (Hshare k c Hc Hown) as (_ & _ & Hb). unfold pending in Hb. lia. }
  assert (1000000 * sum_of (settled p) h cs ≤ reward_per_stake p * total_stake p)
    as Hsettled.
  { rewrite Htot. unfold staked_in. rewrite <- !sum_of_scale. apply sum_of_le.
    intros k c Hc _. destruct (Hcs k c Hc) as (_ & _ & Hs & _).
    destruct (settled_bounds p c Hs Hrps) as [_ Hfloor]. lia. }
  destruct (operator_share_bounds p ltac:(lia) ltac:(lia)) as [Ho0 Ho1].
  assert (0 ≤ total_stake p) as Hts.
  { rewrite Htot. apply sum_of_nonneg. intros k' c' Hc' _.
    by destruct (Hcs k' c' Hc') as (_ & _ & ? & _). }
  split; [done|]. split; [done|]. split.
  - intros k c Hc Hown. split; [by destruct (Hshare k c Hc Hown) as (_ & ? & _)|].
    apply (sum_of_member (user_share p) h cs k c); try done.
    intros k' c' Hc' Hown'. by destruct (Hshare k' c' Hc' Hown') as (_ & ? & _).
  - assert ((100 - operator_reward_pct p) * sum_of (settled p) h cs
            ≤ (100 - operator_reward_pct p) * R) by nia.
    lia.
Qed.

(** X20.  Rewards are fully funded.  In a store reached by a history in
    which each Contributor Record is presented only with the pool it was
    staked into, an Active pool holds, beyond its [total_stake], at least
    what [claim_reward] would pay to all of its records together plus what
    [claim_operator_reward] would pay: no claim on the pool fails for lack
    of funds, in whatever order the claims are made. *)
Theorem rewards_are_fully_funded w h p :
  reachable_scoped w → pools w !! h = Some p → status p = ACTIVE →
  total_stake p + sum_of (user_share p) h (contributors w) + operator_share p
    ≤ value (balance p) ∧
  (∀ s k c w', contributors w !! k = Some c → pool_id c = h →
     claim_reward h k (begin_tx s w) ≠ Abort ENotEnough w') ∧
  (∀ s cap w', claim_operator_reward h cap (begin_tx s w) ≠ Abort ENotEnough w').
Proof.
  intros Hr Hp Hst. pose proof (reachable_scoped_inv w Hr) as Hw.
  destruct (pool_is_funded w h p Hw Hp) as (Hts & Ho & Hmem & Hfunded).
  split; [done|]. split.
  - intros s k c w' Hc Hown Habs.
    pose proof (claim_reward_spec h k (begin_tx s w) p c Hp Hc) as Hspec.
    rewrite Habs in Hspec. destruct Hspec as (_ & _ & _ & Hlow).
    destruct (Hmem k c Hc Hown). lia.
  - intros s cap w' Habs.
    pose proof (claim_operator_reward_spec h cap (begin_tx s w) p Hp) as Hspec.
    rewrite Habs in Hspec. destruct Hspec as (_ & _ & _ & Hlow).
    assert (0 ≤ sum_of (user_share p) h (contributors w)).
    { apply sum_of_nonneg. intros k' c' Hc' Hown'. by destruct (Hmem k' c' Hc' Hown'). }
    lia.
Qed.

Lemma rewards_are_fully_funded_witness :
  1000
  + sum_of (user_share (mkValidatorPool 0 1000 1000 10 10 ACTIVE 100 100000 (mkBalance 1100)))
      0 (contributors active_store)
  + operator_share (mkValidatorPool 0 1000 1000 10 10 ACTIVE 100 100000 (mkBalance 1100))
  ≤ 1100.
Proof.
  refine (proj1 (rewards_are_fully_funded active_store 0
                   (mkValidatorPool 0 1000 1000 10 10 ACTIVE 100 100000 (mkBalance 1100))
                   _ _ eq_refl)).
  - apply reachable_scoped_execute_all; [constructor|vm_compute; reflexivity].
  - vm_compute; reflexivity.
Defined.

(** * References between objects *)

(** X21.  References are never left dangling.  In a reachable store every
    object is stored under its own ID; the pool a Contributor Record names
    in [pool_id] is in the store, and so is the pool an OperatorCap names;
    every pool has its OperatorCap in the store; and no ID is shared by a
    pool, a record and a cap. *)
Theorem references_are_live w :
  reachable w →
  (∀ h p, pools w !! h = Some p →
     id p = h ∧
     (∃ k r, caps w !! k = Some r ∧ cap_pool_id r = h) ∧
     contributors w !! h = None ∧ caps w !! h = None) ∧
  (∀ k c, contributors w !! k = Some c →
     contributor_id c = k ∧ is_Some (pools w !! pool_id c) ∧ caps w !! k = None) ∧
  (∀ k r, caps w !! k = Some r →
     cap_id r = k ∧ is_Some (pools w !! cap_pool_id r)).
Proof.
  intros Hr. destruct (reachable_wf w Hr) as [(Hps & Hcs & Hcp) _].
  split; [|split].
  - intros h p Hp. destruct (Hps h p Hp) as (_ & (Hid & _) & Hcap & Hnc & Hnp).
    split; [done|]. split; [|done]. by exists (h + 1), (mkOperatorCap (h + 1) h).
  - intros k c Hc. by destruct (Hcs k c Hc) as (_ & (? & _ & _ & ?) & ?).
  - intros k r Hk. by destruct (Hcp k r Hk) as (_ & (? & _ & ?)).
Qed.

Lemma references_are_live_witness :
  5 = 5 ∧ is_Some (pools two_pools_store !! 3) ∧ caps two_pools_store !! 5 = None.
Proof.
  refine (proj1 (proj2 (references_are_live two_pools_store _)) 5
            (mkContributor 5 3 21 200 0) _).
  - apply (reachable_typed two_pools). vm_compute; reflexivity.
  - vm_compute; reflexivity.
Defined.

(** X22.  Fields stay within their types.  In a reachable store every
    [u64] field of every pool and of every Contributor Record holds a value
    between 0 and 2^64 - 1, [operator_reward_pct] is at most 100, and the
    status is one of Collecting, Ready and Active: the checked arithmetic
    of the functions never leaves a field out of range. *)
Theorem fields_stay_in_range w :
  reachable w →
  (∀ h p, pools w !! h = Some p →
     is_u64 (required_stake p) && is_u64 (total_stake p) &&
     is_u64 (accumulated_reward p) && is_u64 (reward_per_stake p) &&
     is_u64 (value (balance p)) && is_u8 (operator_reward_pct p) &&
     (operator_reward_pct p <=? 100) && is_u8 (status p) && (status p <=? ACTIVE) = true) ∧
  (∀ k c, contributors w !! k = Some c →
     is_u64 (staked_amount c) && is_u64 (reward_debt c) = true).
Proof.
  intros Hr. destruct (reachable_wf w Hr) as [(Hps & Hcs & _) _]. split.
  - intros h p Hp.
    destruct (Hps h p Hp) as (_ & (_ & ? & ? & ? & ? & ? & ? & ? & _) & _).
    unfold in_u64, is_u64, is_u8, u8_max in *. unfold_status.
    repeat (apply andb_true_iff; split); apply Z.leb_le; lia.
  - intros k c Hc. destruct (Hcs k c Hc) as (_ & (_ & ? & ? & _) & _).
    unfold in_u64, is_u64 in *.
    repeat (apply andb_true_iff; split); apply Z.leb_le; lia.
Qed.

Lemma fields_stay_in_range_witness :
  is_u64 (staked_amount (mkContributor 2 0 11 1000 0))
  && is_u64 (reward_debt (mkContributor 2 0 11 1000 0)) = true.
Proof.
  refine (proj2 (fields_stay_in_range active_store _) 2 (mkContributor 2 0 11 1000 0) _).
  - apply (reachable_typed lifecycle). vm_compute; reflexivity.
  - vm_compute; reflexivity.
Defined.
(** * The order of claims, and who may call *)

(** A claim that returned in [w] returns with the same coin value in [w1],
    where the pool and the record show the claim the same fields and the
    pool still holds the payout. *)
Lemma claim_reward_pays_the_same h k w w1 p p1 c coin w2 :
  pools w !! h = Some p → contributors w !! k = Some c →
  pools w1 !! h = Some p1 → contributors w1 !! k = Some c →
  sender (ctx w1) = sender (ctx w) →
  status p1 = status p → reward_per_stake p1 = reward_per_stake p →
  operator_reward_pct p1 = operator_reward_pct p →
  user_share p c ≤ value (balance p1) →
  claim_reward h k w = Ok coin w2 →
  ∃ coin' w3, claim_reward h k w1 = Ok coin' w3 ∧ coin_value coin' = coin_value coin.
Proof.
  intros Hp Hc Hp1 Hc1 Hsnd Hst Hrps Hpct Hbal Hcl.
  pose proof (claim_reward_spec h k w p c Hp Hc) as Hspec. rewrite Hcl in Hspec.
  assert (pending p1 c = pending p c) as Hpen1.
  { unfold pending, settled. by rewrite Hrps. }
  assert (user_share p1 c = user_share p c) as Hshare1.
  { unfold user_share. by rewrite Hpen1, Hpct. }
  destruct Hspec as (Hact & Hown & Hmul & Hle &
    [(Hpen & Hpct' & Hgross & _ & -> & _)|(Hpen & -> & _)]).
  - eexists _, _. split.
    { apply (claim_reward_pays h k w1 p1 c); try done;
        rewrite ?Hst, ?Hsnd, ?Hrps, ?Hpen1, ?Hpct, ?Hshare1; done. }
    cbn. done.
  - eexists _, _. split.
    { apply (claim_reward_nothing h k w1 p1 c); try done;
        rewrite ?Hst, ?Hsnd, ?Hrps, ?Hpen1; try done. unfold pending in *. lia. }
    done.
Qed.

Lemma claim_operator_reward_pays_the_same h cap w w1 p p1 coin w2 :
  pools w !! h = Some p → pools w1 !! h = Some p1 →
  sender (ctx w1) = sender (ctx w) →
  status p1 = status p → operator p1 = operator p →
  accumulated_reward p1 = accumulated_reward p →
  operator_reward_pct p1 = operator_reward_pct p →
  operator_share p ≤ value (balance p1) →
  claim_operator_reward h cap w = Ok coin w2 →
  ∃ coin' w3, claim_operator_reward h cap w1 = Ok coin' w3 ∧
              coin_value coin' = coin_value coin.
Proof.
  intros Hp Hp1 Hsnd Hst Hop Hacc Hpct Hbal Hcl.
  pose proof (claim_operator_reward_spec h cap w p Hp) as Hspec. rewrite Hcl in Hspec.
  assert (operator_share p1 = operator_share p) as Hshare1.
  { unfold operator_share. by rewrite Hacc, Hpct. }
  destruct Hspec as (Hact & Hsender & Hmul & [(Hpos & _ & -> & _)|(Hzero & -> & _)]).
  - eexists _, _. split.
    { apply (claim_operator_reward_pays h cap w1 p1); try done;
        rewrite ?Hst, ?Hsnd, ?Hop, ?Hacc, ?Hpct, ?Hshare1; done. }
    cbn. done.
  - eexists _, _. split.
    { apply (claim_operator_reward_nothing h cap w1 p1); try done;
        rewrite ?Hst, ?Hsnd, ?Hop, ?Hacc, ?Hpct, ?Hshare1; done. }
    done.
Qed.

Lemma claim_operator_effect_inv s w h cap w1 p :
  effect s w (ClaimOperatorRewards h cap) w1 → pools w !! h = Some p →
  contributors w1 = contributors w ∧
  ∃ p1, pools w1 !! h = Some p1 ∧
        status p1 = status p ∧ reward_per_stake p1 = reward_per_stake p ∧
        operator_reward_pct p1 = operator_reward_pct p.
Proof.
  intros Heff Hp. inversion Heff as [| | | | | | |? ? q ? Hq|? ? q ? Hq| |]; subst;
    pose proof (eq_trans (eq_sym Hp) Hq) as [= <-]; unfold_effects; (split; [done|]).
  - eexists. rewrite lookup_insert_eq. by pool_fields.
  - by exists p.
Qed.

Lemma claim_effect_inv s w h k w1 p :
  effect s w (ClaimUserReward h k) w1 → pools w !! h = Some p →
  ∃ p1, pools w1 !! h = Some p1 ∧
        status p1 = status p ∧ operator p1 = operator p ∧
        accumulated_reward p1 = accumulated_reward p ∧
        operator_reward_pct p1 = operator_reward_pct p.
Proof.
  intros Heff Hp. inversion Heff as [| | | | |? ? q ? Hq|? ? q ? Hq| | | |]; subst;
    pose proof (eq_trans (eq_sym Hp) Hq) as [= <-]; unfold_effects.
  - eexists. rewrite lookup_insert_eq. by pool_fields.
  - by exists p.
Qed.

(** X23.  Claims can be made in either order.  In a store reached by a
    history in which each Contributor Record is presented only with the pool
    it was staked into, take a pool and a record of the pool.  If
    [claim_reward] on the record returns in the store, it also returns right
    after a [claim_operator_rewards] transaction on the pool has returned,
    with a coin of the same value; and if [claim_operator_reward] returns in
    the store, it also returns right after a [claim_user_reward] transaction
    on the record has returned, with a coin of the same value. *)
Theorem claims_can_be_made_in_either_order w h p k c cap so su :
  reachable_scoped w → pools w !! h = Some p →
  contributors w !! k = Some c → pool_id c = h →
  (∀ w1 coin w2,
     run_tx (mkTx so (ClaimOperatorRewards h cap)) w = Ok tt w1 →
     claim_reward h k (begin_tx su w) = Ok coin w2 →
     ∃ coin' w3, claim_reward h k (begin_tx su w1) = Ok coin' w3 ∧
                 coin_value coin' = coin_value coin) ∧
  (∀ w1 coin w2,
     run_tx (mkTx su (ClaimUserReward h k)) w = Ok tt w1 →
     claim_operator_reward h cap (begin_tx so w) = Ok coin w2 →
     ∃ coin' w3, claim_operator_reward h cap (begin_tx so w1) = Ok coin' w3 ∧
                 coin_value coin' = coin_value coin).
Proof.
  intros Hr Hp Hc Hown. split.
  - intros w1 coin w2 Hrun Hcl.
    assert (reachable_scoped w1) as Hr1.
    { pose proof (reachable_scoped_execute (mkTx so (ClaimOperatorRewards h cap)) w
                    Hr eq_refl eq_refl) as Hex.
      unfold execute in Hex. by rewrite Hrun in Hex. }
    apply run_tx_effect in Hrun.
    destruct (claim_operator_effect_inv so w h cap w1 p Hrun Hp)
      as (Hcs & p1 & Hp1 & Hst1 & Hrps1 & Hpct1).
    assert (contributors w1 !! k = Some c) as Hc1 by (by rewrite Hcs).
    destruct (pool_is_funded w1 h p1 (reachable_scoped_inv w1 Hr1) Hp1)
      as (Hts & Ho & Hmem & Hfunded).
    destruct (Hmem k c Hc1 Hown) as [_ Hle].
    apply (claim_reward_pays_the_same h k (begin_tx su w) (begin_tx su w1) p p1 c coin w2);
      try done.
    assert (user_share p1 c = user_share p c) as <-.
    { unfold user_share, pending, settled. by rewrite Hrps1, Hpct1. }
    lia.
  - intros w1 coin w2 Hrun Hcl.
    assert (reachable_scoped w1) as Hr1.
    { assert (scoped (ClaimUserReward h k) w = true) as Hsc.
      { cbn [scoped]. rewrite Hc. by apply Z.eqb_eq. }
      pose proof (reachable_scoped_execute (mkTx su (ClaimUserReward h k)) w
                    Hr eq_refl Hsc) as Hex.
      unfold execute in Hex. by rewrite Hrun in Hex. }
    apply run_tx_effect in Hrun.
    destruct (claim_effect_inv su w h k w1 p Hrun Hp)
      as (p1 & Hp1 & Hst1 & Hop1 & Hacc1 & Hpct1).
    destruct (pool_is_funded w1 h p1 (reachable_scoped_inv w1 Hr1) Hp1)
      as (Hts & Ho & Hmem & Hfunded).
    assert (0 ≤ sum_of (user_share p1) h (contributors w1)) as Hsum.
    { apply sum_of_nonneg. intros k' c' Hc' Hown'. by destruct (Hmem k' c' Hc' Hown'). }
    apply (claim_operator_reward_pays_the_same h cap (begin_tx so w) (begin_tx so w1)
             p p1 coin w2); try done.
    assert (operator_share p1 = operator_share p) as <-.
    { unfold operator_share. by rewrite Hacc1, Hpct1. }
    lia.
Qed.

Lemma claims_can_be_made_in_either_order_witness :
  ∃ coin' w3,
    claim_reward 0 2
      (begin_tx 11 (execute (mkTx 10 (ClaimOperatorRewards 0 1)) active_store))
    = Ok coin' w3 ∧
    coin_value coin' = 90.
Proof.
  assert (∃ coin w2, claim_reward 0 2 (begin_tx 11 active_store) = Ok coin w2 ∧
                     coin_value coin = 90)
    as (coin & w2 & Hcl & Hval) by (eexists _, _; split; vm_compute; reflexivity).
  rewrite <- Hval.
  refine (proj1 (claims_can_be_made_in_either_order active_store 0
                   (mkValidatorPool 0 1000 1000 10 10 ACTIVE 100 100000 (mkBalance 1100))
                   2 (mkContributor 2 0 11 1000 0) 1 10 11 _ _ _ eq_refl)
            (execute (mkTx 10 (ClaimOperatorRewards 0 1)) active_store) coin w2 _ Hcl).
  - apply reachable_scoped_execute_all; [constructor|vm_compute; reflexivity].
  - vm_compute; reflexivity.
  - vm_compute; reflexivity.
  - vm_compute; reflexivity.
Defined.

(** X24.  Anyone may record a reward.  [record_reward] does not look at the
    sender: when it returns for one sender it returns for every sender, with
    the same pools, records, caps and events; and when it aborts for one
    sender it aborts with the same code for every sender. *)
Theorem record_reward_ignores_the_sender h coin w s s' :
  match record_reward h coin (begin_tx s w), record_reward h coin (begin_tx s' w) with
  | Ok _ w1, Ok _ w2 =>
      pools w2 = pools w1 ∧ contributors w2 = contributors w1 ∧ caps w2 = caps w1 ∧
      coins w2 = coins w1 ∧ events w2 = events w1
  | Abort e1 _, Abort e2 _ => e1 = e2
  | _, _ => False
  end.
Proof.
  destruct (pools w !! h) as [p|] eqn:Hp.
  - pose proof (record_reward_spec h coin (begin_tx s w) p Hp) as H1.
    pose proof (record_reward_spec h coin (begin_tx s' w) p Hp) as H2.
    destruct (record_reward h coin (begin_tx s w)) as [[] w1|[c1| | |] w1],
      (record_reward h coin (begin_tx s' w)) as [[] w2|[c2| | |] w2];
      cbn in H1, H2; try done.
    + destruct H1 as (_ & _ & _ & _ & _ & ->), H2 as (_ & _ & _ & _ & _ & ->). done.
    + destruct H1 as (? & ? & _), H2 as (_ & [(_ & ?)|(_ & _ & ?)]); [done|lia].
    + destruct H1 as (? & ? & ? & ? & Hmul & _), H2 as (_ & _ & [?|[?|(Hpos & [?|?])]]);
        try lia; destruct (Hmul Hpos); lia.
    + destruct H2 as (? & ? & _), H1 as (_ & [(_ & ?)|(_ & _ & ?)]); [done|lia].
    + destruct H1 as (_ & [(-> & ?)|(-> & ? & ?)]), H2 as (_ & [(-> & ?)|(-> & ? & ?)]);
        done || lia.
    + destruct H2 as (? & ? & _), H1 as (_ & [(_ & ?)|(_ & _ & ?)]); [done|lia].
    + destruct H2 as (? & ? & ? & ? & Hmul & _), H1 as (_ & _ & [?|[?|(Hpos & [?|?])]]);
        try lia; destruct (Hmul Hpos); lia.
    + destruct H1 as (? & ? & _), H2 as (_ & [(_ & ?)|(_ & _ & ?)]); [done|lia].
  - unfold record_reward, bind, read_pool. cbn [pools begin_tx with_ctx].
    by rewrite Hp.
Qed.

Lemma record_reward_ignores_the_sender_witness :
  match record_reward 0 (coin_of 7) (begin_tx 10 active_store),
        record_reward 0 (coin_of 7) (begin_tx 99 active_store) with
  | Ok _ w1, Ok _ w2 =>
      pools w2 = pools w1 ∧ contributors w2 = contributors w1 ∧ caps w2 = caps w1 ∧
      coins w2 = coins w1 ∧ events w2 = events w1
  | Abort e1 _, Abort e2 _ => e1 = e2
  | _, _ => False
  end.
Proof. exact (record_reward_ignores_the_sender 0 (coin_of 7) active_store 10 99). Defined.
